(** * Zotero reference extractor: the extraction, normalization and
    conversion pipeline, embedded in Rocq.

  The development follows the TypeScript sources:
  - [core/normalize.ts]   deduplication keys, merge, trim, sort, cite keys;
  - [convert/citationJs.ts]  conversion to CSL-JSON, BibLaTeX, BibTeX, RIS;
  - [extractors/docx.ts]  citation payloads in instruction text;
  - [extractors/pdf.ts]   TEI bibliography entries to CSL items;
  - [cli.ts]              the loop over the input files.

  The libraries around the sources are parameters: the collation of
  [localeCompare], the formatting engine, the schema validators; the XML
  parser is taken by its result, the parsed document.

  JavaScript values are modelled by the type [JsVal]; strings are lists of
  code units restricted to U+0000..U+00FF; numbers are the integer-valued
  doubles, as [Z].  An object is the list of its own properties; where the
  sources read or write a property under a computed name, the members of
  [Object.prototype] are taken into account.  A function of the source
  that can raise a [TypeError] returns an [option], [None] standing for
  the exception. *)

From Stdlib Require Import List Ascii ZArith Lia Bool Arith.
From Stdlib Require String.
From Stdlib Require Import Permutation Sorted DecimalString DecimalZ.
Import ListNotations.

Set Implicit Arguments.

(** ** Strings *)

Definition str := list ascii.

(** String literals denote lists of code units. *)
Inductive lstr := Lnil | Lcons (a : ascii) (l : lstr).

Fixpoint lstr_of_bytes (l : list Byte.byte) : lstr :=
match l with
| nil => Lnil
| cons b r => Lcons (ascii_of_byte b) (lstr_of_bytes r)
end.

Fixpoint bytes_of_lstr (l : lstr) : list Byte.byte :=
match l with
| Lnil => nil
| Lcons a r => cons (byte_of_ascii a) (bytes_of_lstr r)
end.

Declare Scope str_scope.
Delimit Scope str_scope with str.
#[warnings="-via-type-mismatch"]
String Notation list lstr_of_bytes bytes_of_lstr
(via lstr mapping [[nil] => Lnil, [cons] => Lcons]) : str_scope.
Open Scope str_scope.
Open Scope list_scope.

Definition str_eqb (a b : str) : bool :=
if list_eq_dec ascii_dec a b then true else false.

Module Char.

Definition code (c : ascii) : nat := nat_of_ascii c.

Definition between (lo hi : nat) (c : ascii) : bool :=
  (lo <=? code c) && (code c <=? hi).

(** [a-z], [A-Z], [0-9] *)
Definition is_az (c : ascii) : bool := between 97 122 c.
Definition is_AZ (c : ascii) : bool := between 65 90 c.
Definition is_digit (c : ascii) : bool := between 48 57 c.
Definition is_alnum_lower (c : ascii) : bool := is_az c || is_digit c.

(** [\w] is [A-Za-z0-9_] *)
Definition is_word (c : ascii) : bool :=
  is_az c || is_AZ c || is_digit c || (code c =? 95).

(** White space and line terminators of ECMAScript below U+0100: TAB, LF,
    VT, FF, CR, SPACE and NO-BREAK SPACE.  [String.prototype.trim] and the
    regular expression class [\s] use the same set. *)
Definition is_ws (c : ascii) : bool :=
  between 9 13 c || (code c =? 32) || (code c =? 160).

(** U+000A LINE FEED *)
Definition line_feed : ascii := ascii_of_nat 10.

(** Upper-case letters of Latin-1: A-Z and U+00C0..U+00DE but U+00D7. *)
Definition has_lower (c : ascii) : bool :=
  is_AZ c || (between 192 222 c && negb (code c =? 215)).

Definition lower (c : ascii) : ascii :=
  if has_lower c then ascii_of_nat (code c + 32) else c.

(** Lower-case letters whose upper case is one code unit below U+0100:
    a-z and U+00E0..U+00FE but U+00F7.  (The upper case of U+00B5, U+00DF
    and U+00FF lies outside this range; the sources only take the upper
    case of letters a-z.) *)
Definition has_upper (c : ascii) : bool :=
  is_az c || (between 224 254 c && negb (code c =? 247)).

Definition upper (c : ascii) : ascii :=
  if has_upper c then ascii_of_nat (code c - 32) else c.

(** The upper case of U+00DF is two code units. *)
Definition upper_units (c : ascii) : list ascii :=
  if code c =? 223 then ["S"%char; "S"%char] else [upper c].

End Char.

Module Str.

Definition toLowerCase (s : str) : str := map Char.lower s.
Definition toUpperCase (s : str) : str := flat_map Char.upper_units s.

Fixpoint trimStart (s : str) : str :=
  match s with
  | c :: r => if Char.is_ws c then trimStart r else s
  | [] => []
  end.

Definition trimEnd (s : str) : str := rev (trimStart (rev s)).

(** [s.trim()] *)
Definition trim (s : str) : str := trimEnd (trimStart s).

(** [p] is a prefix of [s]: the rest of [s] after [p]. *)
Fixpoint strip_prefix (p s : str) : option str :=
  match p, s with
  | [], _ => Some s
  | a :: p', b :: s' => if Ascii.eqb a b then strip_prefix p' s' else None
  | _ :: _, [] => None
  end.

Definition startsWith (p s : str) : bool :=
  match strip_prefix p s with Some _ => true | None => false end.

(** [s.replace(/^(p1|p2|...)/, '')] for literal alternatives. *)
Fixpoint strip_first (ps : list str) (s : str) : str :=
  match ps with
  | [] => s
  | p :: ps' =>
      match strip_prefix p s with
      | Some r => r
      | None => strip_first ps' s
      end
  end.

(** [s.replace(/c+$/, '')] *)
Fixpoint dropWhile (f : ascii -> bool) (s : str) : str :=
  match s with
  | c :: r => if f c then dropWhile f r else s
  | [] => []
  end.

Definition dropWhileEnd (f : ascii -> bool) (s : str) : str :=
  rev (dropWhile f (rev s)).

(** [s.split(/\s+/)]: the pieces between maximal runs of white space; a
    leading or trailing run leaves an empty piece, and the empty string
    splits into one empty piece. *)
Fixpoint split_go (in_ws : bool) (s : str) : list str :=
  match s with
  | [] => [[]]
  | c :: r =>
      if Char.is_ws c then
        if in_ws then split_go true r else [] :: split_go true r
      else
        match split_go false r with
        | w :: ws => (c :: w) :: ws
        | [] => [[c]]
        end
  end.

Definition split_ws (s : str) : list str :=
  match s with
  | [] => [[]]
  | c :: r =>
      if Char.is_ws c then [] :: split_go true r else split_go false s
  end.

(** [s.match(/\d{4}/)]: the first run of four digits, [match[0]]. *)
Definition four_digits (s : str) : bool :=
  match s with
  | a :: b :: c :: d :: _ =>
      Char.is_digit a && Char.is_digit b && Char.is_digit c && Char.is_digit d
  | _ => false
  end.

Fixpoint match_d4 (s : str) : option str :=
  match s with
  | [] => None
  | _ :: r => if four_digits s then Some (firstn 4 s) else match_d4 r
  end.

(** [s.charAt(0).toUpperCase() + s.slice(1)] *)
Definition capitalize (s : str) : str :=
  toUpperCase (firstn 1 s) ++ skipn 1 s.

(** [String(n)] for an integer [n]. *)
Definition of_Z (n : Z) : str :=
  String.list_ascii_of_string (NilZero.string_of_int (Z.to_int n)).

Definition of_nat (n : nat) : str := of_Z (Z.of_nat n).

Fixpoint takeWhile (f : ascii -> bool) (s : str) : str :=
  match s with
  | c :: r => if f c then c :: takeWhile f r else []
  | [] => []
  end.

Definition digits_value (ds : str) : Z :=
  fold_left (fun acc d => (10 * acc + Z.of_nat (Char.code d - 48))%Z) ds 0%Z.

(** [parseInt(s, 10)]; [None] for [NaN]. *)
Definition parseInt10 (s : str) : option Z :=
  let s1 := trimStart s in
  let negative :=
    match s1 with c :: _ => Ascii.eqb c "-" | [] => false end in
  let s2 :=
    match s1 with
    | c :: r => if Ascii.eqb c "-" || Ascii.eqb c "+" then r else s1
    | [] => s1
    end in
  match takeWhile Char.is_digit s2 with
  | [] => None
  | ds => Some (if negative then - digits_value ds else digits_value ds)%Z
  end.

(** [s] holds none of the characters [bad]. *)
Definition free_of (bad : list ascii) (s : str) : bool :=
  forallb (fun c => negb (existsb (Ascii.eqb c) bad)) s.

(** [parts.join(sep)] *)
Fixpoint join (sep : str) (parts : list str) : str :=
  match parts with
  | [] => []
  | [p] => p
  | p :: ps => p ++ sep ++ join sep ps
  end.

End Str.

(** ** JavaScript values *)

#[warnings="-register-all"]
Inductive JsVal : Type :=
| JUndef
| JNull
| JBool (b : bool)
| JNum (n : Z)
| JStr (s : str)
| JArr (vs : list JsVal)
| JObj (kvs : list (str * JsVal)).

(** An object is the list of its own enumerable properties in enumeration
  order, as [Object.entries] gives them; keys are pairwise distinct.  The
  objects of the sources come from [JSON.parse], an object literal or a
  spread: their prototype is [Object.prototype]. *)
Definition obj := list (str * JsVal).

Module Obj.

Fixpoint lookup (k : str) (o : obj) : option JsVal :=
  match o with
  | [] => None
  | (k', v) :: r => if str_eqb k k' then Some v else lookup k r
  end.

(** [o.k] for a field name [k] that the sources write out ([title],
    [DOI], [author], ...): none of them names a member of
    [Object.prototype], so the value is that of the own property.  A read
    [o[key]] with a computed key goes through [inherited] as well. *)
Definition get (o : obj) (k : str) : JsVal :=
  match lookup k o with
  | Some v => v
  | None => JUndef
  end.

(** The text that [String] gives for the built-in function [name], in the
    form V8 prints it. *)
Definition native (name : str) : str :=
  "function " ++ name ++ "() { [native code] }".

(** The members of [Object.prototype], each with the text [String] gives
    for its value: eleven functions and the accessor [__proto__], which
    reads as [Object.prototype] itself.  None of the values is
    [undefined], [null], the empty string or otherwise falsy. *)
Definition prototype : list (str * str) :=
  [("constructor", native "Object");
   ("__defineGetter__", native "__defineGetter__");
   ("__defineSetter__", native "__defineSetter__");
   ("hasOwnProperty", native "hasOwnProperty");
   ("__lookupGetter__", native "__lookupGetter__");
   ("__lookupSetter__", native "__lookupSetter__");
   ("isPrototypeOf", native "isPrototypeOf");
   ("propertyIsEnumerable", native "propertyIsEnumerable");
   ("toString", native "toString");
   ("valueOf", native "valueOf");
   ("__proto__", "[object Object]");
   ("toLocaleString", native "toLocaleString")].

(** [k] names a member of [Object.prototype]. *)
Definition inherited (k : str) : bool :=
  existsb (fun m => str_eqb k (fst m)) prototype.

(** [o[k] = v] on an object [o] that has no own property [__proto__]:
    every name but [__proto__] becomes (or stays) an own property; the
    assignment to [__proto__] is taken by the setter of
    [Object.prototype] and adds no property. *)
Definition assignable (k : str) : bool := negb (str_eqb k "__proto__").

(** [o[k] = v]: an existing property keeps its place, a new one goes
    last. *)
Fixpoint set (o : obj) (k : str) (v : JsVal) : obj :=
  match o with
  | [] => [(k, v)]
  | (k', v') :: r =>
      if str_eqb k k' then (k', v) :: r else (k', v') :: set r k v
  end.

Definition keys (o : obj) : list str := map fst o.

Definition wf (o : obj) : Prop := NoDup (keys o).

End Obj.

Module Js.

(** ToBoolean *)
Definition truthy (v : JsVal) : bool :=
  match v with
  | JUndef | JNull => false
  | JBool b => b
  | JNum n => negb (n =? 0)%Z
  | JStr s => match s with [] => false | _ => true end
  | JArr _ | JObj _ => true
  end.

(** [v === undefined || v === null] *)
Definition nullish (v : JsVal) : bool :=
  match v with
  | JUndef | JNull => true
  | _ => false
  end.

(** [v === undefined || v === null || v === ''] *)
Definition is_empty (v : JsVal) : bool :=
  match v with
  | JUndef | JNull | JStr [] => true
  | _ => false
  end.

Definition index_entries (vs : list JsVal) : obj :=
  combine (map Str.of_nat (seq 0 (length vs))) vs.

(** [v.k] for a property name [k] that is not [length], an index or a
    method: only objects have such properties.  [None] when [v] is
    [undefined] or [null] (TypeError). *)
Definition prop (v : JsVal) (k : str) : option JsVal :=
  match v with
  | JUndef | JNull => None
  | JObj o => Some (Obj.get o k)
  | _ => Some JUndef
  end.

(** [v?.k] *)
Definition oprop (v : JsVal) (k : str) : JsVal :=
  match prop v k with
  | Some r => r
  | None => JUndef
  end.

(** [v[0]] on a value that is not [undefined] or [null]. *)
Definition first (v : JsVal) : JsVal :=
  match v with
  | JArr (x :: _) => x
  | JStr (c :: _) => JStr [c]
  | JObj o => Obj.get o "0"
  | _ => JUndef
  end.

(** [v?.[0]] *)
Definition ofirst (v : JsVal) : JsVal := first v.

(** [String(v)] *)
Fixpoint toString (v : JsVal) : str :=
  match v with
  | JUndef => "undefined"
  | JNull => "null"
  | JBool true => "true"
  | JBool false => "false"
  | JNum n => Str.of_Z n
  | JStr s => s
  | JArr vs =>
      Str.join ","
        (map (fun x => if nullish x then [] else toString x) vs)
  | JObj _ => "[object Object]"
  end.

(** [v > 0] for the values that are compared without parsing a string:
    [undefined] and objects convert to [NaN], [null] to [0], [true] to
    [1].  Strings and arrays are not modelled ([None]). *)
Definition positive (v : JsVal) : option bool :=
  match v with
  | JNum n => Some (0 <? n)%Z
  | JBool b => Some b
  | JUndef | JNull | JObj _ => Some false
  | JStr _ | JArr _ => None
  end.

(** No object inside [v] has a property named [__proto__]. *)
Fixpoint proto_free (v : JsVal) : bool :=
  match v with
  | JArr vs => forallb proto_free vs
  | JObj kvs =>
      forallb (fun kv => Obj.assignable (fst kv) && proto_free (snd kv)) kvs
  | _ => true
  end.

(** No string inside [v] holds a line feed. *)
Fixpoint single_line (v : JsVal) : bool :=
  match v with
  | JStr s => Str.free_of [Char.line_feed] s
  | JArr vs => forallb single_line vs
  | JObj kvs => forallb (fun kv => single_line (snd kv)) kvs
  | _ => true
  end.

End Js.


(** ** [Array.prototype.sort]

    The sort is stable (ECMAScript 2019), so with a consistent comparator
    its result is determined: the elements in ascending order, equal ones in
    their input order.  It is computed here by insertion, from the right of
    the array; the sort raises what the comparator raises. *)

Module ArraySort.
Section Sort.
Variable A : Type.
Variable cmp : A -> A -> option comparison.

(** [x] goes before the first element it does not come after. *)
Fixpoint insert (x : A) (l : list A) : option (list A) :=
  match l with
  | [] => Some [x]
  | y :: r =>
      match cmp x y with
      | None => None
      | Some Gt =>
          match insert x r with
          | None => None
          | Some r' => Some (y :: r')
          end
      | Some _ => Some (x :: l)
      end
  end.

Fixpoint sort (l : list A) : option (list A) :=
  match l with
  | [] => Some []
  | x :: r =>
      match sort r with
      | None => None
      | Some s => insert x s
      end
  end.

End Sort.
End ArraySort.

(** Comparison of strings by code units, a collation that can stand for
    [localeCompare] on the keys used for sorting. *)
Fixpoint codeunit_compare (a b : str) : comparison :=
  match a, b with
  | [], [] => Eq
  | [], _ :: _ => Lt
  | _ :: _, [] => Gt
  | x :: a', y :: b' =>
      match Nat.compare (Char.code x) (Char.code y) with
      | Eq => codeunit_compare a' b'
      | c => c
      end
  end.
(** ** core/normalize.ts *)

Inductive RefSource := DocxCitation | DocxBibliography | PdfGrobid.

(** [ExtractedRef] of core/types.ts *)
Record ExtractedRef := mkRef {
  item : obj;
  source : RefSource;
  sourceFile : str;
  rawData : JsVal
}.

Module Normalize.

(** A string method called on [v]: [None] (TypeError) unless [v] is a
    string. *)
Definition as_str (v : JsVal) : option str :=
  match v with
  | JStr s => Some s
  | _ => None
  end.

(** [v || ''] *)
Definition or_empty (v : JsVal) : JsVal :=
  if Js.truthy v then v else JStr [].

(** The alternatives of [/^https?:\/\/(dx\.)?doi\.org\//]. *)
Definition doi_url_prefixes : list str :=
  ["https://dx.doi.org/"; "https://doi.org/";
   "http://dx.doi.org/"; "http://doi.org/"].

Definition normalizeDoi (doi : str) : str :=
  Str.trim
    (Str.strip_first ["doi:"]
       (Str.strip_first doi_url_prefixes (Str.toLowerCase doi))).

Definition is_slash (c : ascii) : bool := Ascii.eqb c "/".

Definition normalizeUrl (url : str) : str :=
  Str.trim (Str.dropWhileEnd is_slash (Str.toLowerCase url)).

Definition normalizeTitle (title : str) : str :=
  firstn 100 (filter Char.is_alnum_lower (Str.toLowerCase title)).

Definition extractYear (item : obj) : option str :=
  let issued := Obj.get item "issued" in
  let y := Js.ofirst (Js.ofirst (Js.oprop issued "date-parts")) in
  if Js.truthy y then Some (Js.toString y)
  else
    let lit := Js.oprop issued "literal" in
    if Js.truthy lit then
      match as_str lit with
      | None => None
      | Some l =>
          match Str.match_d4 l with
          | Some m => Some m
          | None => Some "unknown"
          end
      end
    else Some "unknown".

(** The body of [getFirstAuthorFamily] once [first = item.author[0]] is
    known. *)
Definition first_family (first : JsVal) : option str :=
  match Js.prop first "family" with
  | None => None
  | Some fam =>
      if Js.truthy fam then
        match as_str fam with
        | None => None
        | Some f => Some (filter Char.is_az (Str.toLowerCase f))
        end
      else
        let lit := Js.oprop first "literal" in
        if Js.truthy lit then
          match as_str lit with
          | None => None
          | Some l =>
              let firstWord := hd [] (Str.split_ws l) in
              Some (filter Char.is_az (Str.toLowerCase firstWord))
          end
        else Some "unknown"
  end.

(** [item.author && item.author.length > 0] holds for a non-empty array
    and for a non-empty string; numbers and booleans have no [length].
    An [author] that is an object but no array is outside the declared
    type [CslName[]]: its [length] and its [0] are its own properties of
    these names. *)
Definition getFirstAuthorFamily (item : obj) : option str :=
  match Obj.get item "author" with
  | JArr (first :: _) => first_family first
  | JStr (c :: _) => first_family (JStr [c])
  | JObj author =>
      match Js.positive (Obj.get author "length") with
      | Some true => first_family (Obj.get author "0")
      | Some false => Some "unknown"
      | None => None
      end
  | _ => Some "unknown"
  end.

Definition generateDedupeKey (item : obj) : option str :=
  let doi := Obj.get item "DOI" in
  if Js.truthy doi then
    match as_str doi with
    | Some d => Some ("doi:" ++ normalizeDoi d)
    | None => None
    end
  else
    let url := Obj.get item "URL" in
    if Js.truthy url then
      match as_str url with
      | Some u => Some ("url:" ++ normalizeUrl u)
      | None => None
      end
    else
      match as_str (or_empty (Obj.get item "title")) with
      | None => None
      | Some t =>
          let title := normalizeTitle t in
          match extractYear item with
          | None => None
          | Some year =>
              match getFirstAuthorFamily item with
              | None => None
              | Some firstAuthor =>
                  Some ("key:" ++ firstAuthor ++ "|" ++ year ++ "|" ++ title)
              end
          end
      end.

(** [targetValue === undefined || targetValue === null ||
    targetValue === ''] for [targetValue = target[key]]: the read goes
    through the prototype, so for a name that [target] does not have
    itself the value is the inherited member when [key] names one, never
    empty, and [undefined] otherwise. *)
Definition target_empty (target : obj) (key : str) : bool :=
  match Obj.lookup key target with
  | Some v => Js.is_empty v
  | None => negb (Obj.inherited key)
  end.

(** One iteration of the loop of [mergeItems] over
    [Object.entries(source)].  The assignment is reached only when
    [target] has the property itself or inherits none of that name, so it
    writes an own property. *)
Definition merge_field (target : obj) (kv : str * JsVal) : obj :=
  let (key, value) := kv in
  if negb (Js.is_empty value) then
    if target_empty target key then Obj.set target key value
    else target
  else target.

Definition mergeItems (target source : obj) : obj :=
  fold_left merge_field source target.

(** The [Map] [seen]: keys in insertion order. *)
Definition seen_map := list (str * obj).

Fixpoint seen_get (key : str) (seen : seen_map) : option obj :=
  match seen with
  | [] => None
  | (k, v) :: r => if str_eqb key k then Some v else seen_get key r
  end.

(** [mergeItems(seen.get(key), source)] mutates the stored record in
    place. *)
Fixpoint seen_merge (key : str) (source : obj) (seen : seen_map) : seen_map :=
  match seen with
  | [] => []
  | (k, v) :: r =>
      if str_eqb key k then (k, mergeItems v source) :: r
      else (k, v) :: seen_merge key source r
  end.

Fixpoint dedupe_loop (refs : list ExtractedRef) (seen : seen_map)
         (duplicatesRemoved : nat) : option (seen_map * nat) :=
  match refs with
  | [] => Some (seen, duplicatesRemoved)
  | ref :: rest =>
      match generateDedupeKey (item ref) with
      | None => None
      | Some key =>
          match seen_get key seen with
          | Some _ =>
              dedupe_loop rest (seen_merge key (item ref) seen)
                (S duplicatesRemoved)
          | None =>
              dedupe_loop rest (seen ++ [(key, item ref)]) duplicatesRemoved
          end
      end
  end.

(** [{ unique, duplicatesRemoved }] *)
Definition deduplicateItems (refs : list ExtractedRef)
  : option (list obj * nat) :=
  match dedupe_loop refs [] 0 with
  | Some (seen, n) => Some (map snd seen, n)
  | None => None
  end.

Section SortItems.

(** [a.localeCompare(b)], by its sign.  The collation depends on the
    locale of the host; it is a parameter here. *)
Variable localeCompare : str -> str -> comparison.

(** The comparator of [sortItems]. *)
Definition compareItems (a b : obj) : option comparison :=
  match getFirstAuthorFamily a, getFirstAuthorFamily b with
  | Some authorA, Some authorB =>
      if negb (str_eqb authorA authorB)
      then Some (localeCompare authorA authorB)
      else
        match extractYear a, extractYear b with
        | Some yearA, Some yearB =>
            if negb (str_eqb yearA yearB)
            then Some (localeCompare yearA yearB)
            else
              match as_str (or_empty (Obj.get a "title")),
                    as_str (or_empty (Obj.get b "title")) with
              | Some ta, Some tb =>
                  Some (localeCompare (normalizeTitle ta) (normalizeTitle tb))
              | _, _ => None
              end
        | _, _ => None
        end
  | _, _ => None
  end.

(** [[...items].sort(...)] *)
Definition sortItems (items : list obj) : option (list obj) :=
  ArraySort.sort compareItems items.

End SortItems.

(** [typeof v === 'object' && v !== null] *)
Definition is_object (v : JsVal) : bool :=
  match v with
  | JArr _ | JObj _ => true
  | _ => false
  end.

(** [Object.entries(v)] for an object or an array. *)
Definition entries (v : JsVal) : obj :=
  match v with
  | JObj o => o
  | JArr vs => Js.index_entries vs
  | _ => []
  end.

Definition trim_value (v : JsVal) : JsVal :=
  match v with
  | JStr s => JStr (Str.trim s)
  | _ => v
  end.

(** The entries that the loop [trimmed[key] = ...] over
    [Object.entries] leaves as properties of the new object [trimmed]: an
    entry [__proto__] is assigned to the setter of [Object.prototype] and
    does not become a property.  (When its value is an object, that
    object becomes the prototype of [trimmed]; the members that [trimmed]
    would inherit from it are not represented.) *)
Definition assigned (o : obj) : obj :=
  filter (fun kv => Obj.assignable (fst kv)) o.

Definition trimName (name : JsVal) : JsVal :=
  JObj (map (fun kv => (fst kv, trim_value (snd kv)))
          (assigned (entries name))).

Definition trim_field (value : JsVal) : JsVal :=
  match value with
  | JStr s => JStr (Str.trim s)
  | JArr vs => JArr (map (fun v => if is_object v then trimName v else v) vs)
  | _ => value
  end.

Definition trimItem (item : obj) : obj :=
  map (fun kv => (fst kv, trim_field (snd kv))) (assigned item).

(** [{ items, duplicatesRemoved }] *)
Definition normalizeRefs (localeCompare : str -> str -> comparison)
           (refs : list ExtractedRef) : option (list obj * nat) :=
  match deduplicateItems refs with
  | None => None
  | Some (unique, duplicatesRemoved) =>
      let trimmed := map trimItem unique in
      match sortItems localeCompare trimmed with
      | None => None
      | Some sorted => Some (sorted, duplicatesRemoved)
      end
  end.

Definition skipWords : list str :=
  ["a"; "an"; "the"; "on"; "in"; "of"; "for"; "to"].

Definition skipped (w : str) : bool := existsb (str_eqb w) skipWords.

Fixpoint first_title_word (words : list str) : str :=
  match words with
  | [] => "Untitled"
  | word :: rest =>
      let cleaned := filter Char.is_az word in
      if Js.truthy (JStr cleaned) && negb (skipped cleaned)
      then Str.capitalize cleaned
      else first_title_word rest
  end.

Definition getFirstTitleWord (title : str) : str :=
  first_title_word (Str.split_ws (Str.toLowerCase title)).

Definition generateCiteKey (item : obj) : option str :=
  match getFirstAuthorFamily item with
  | None => None
  | Some a =>
      let author := match a with [] => "unknown" | _ => a end in
      match extractYear item with
      | None => None
      | Some year =>
          match as_str (or_empty (Obj.get item "title")) with
          | None => None
          | Some t =>
              let titleWord := getFirstTitleWord t in
              let authorKey := Str.capitalize author in
              Some (authorKey ++ year ++ titleWord)
          end
      end
  end.

(** [t] is [s] without its leading and trailing white space. *)
Definition whitespace_trimmed (s t : str) : Prop :=
  exists l r,
    s = l ++ t ++ r /\
    forallb Char.is_ws l = true /\ forallb Char.is_ws r = true /\
    (forall c, hd_error t = Some c -> Char.is_ws c = false) /\
    (forall c, hd_error (rev t) = Some c -> Char.is_ws c = false).



(** A title word counts when letters remain after cleaning and it is not
    in the stop-list. *)
Definition significant (w : str) : Prop := w <> [] /\ ~ In w skipWords.

(** [tw] is the first significant word of the title [t], capitalized, or
    the literal [Untitled] when no word is significant. *)
Definition title_word (t tw : str) : Prop :=
  let words := map (filter Char.is_az) (Str.split_ws (Str.toLowerCase t)) in
  (exists pre w post,
     words = pre ++ w :: post /\
     Forall (fun x => ~ significant x) pre /\
     significant w /\ tw = Str.capitalize w) \/
  (Forall (fun x => ~ significant x) words /\ tw = "Untitled").

(** The sort keys of a record: author, year, title. *)
Definition sort_key (item : obj) : option (str * str * str) :=
  match getFirstAuthorFamily item, extractYear item,
        as_str (or_empty (Obj.get item "title")) with
  | Some a, Some y, Some t => Some (a, y, normalizeTitle t)
  | _, _, _ => None
  end.

Section SortOrder.
Variable localeCompare : str -> str -> comparison.

Definition before (a b : str) : Prop := localeCompare a b = Lt.

(** Author ascending, then year, then title. *)
Definition key_le (k1 k2 : str * str * str) : Prop :=
  let '(a1, y1, t1) := k1 in
  let '(a2, y2, t2) := k2 in
  before a1 a2 \/
  (a1 = a2 /\
   (before y1 y2 \/
    (y1 = y2 /\ (before t1 t2 \/ t1 = t2)))).

(** The comparator of [sortItems] on sort keys. *)
Definition compare_keys (k1 k2 : str * str * str) : comparison :=
  let '(a1, y1, t1) := k1 in
  let '(a2, y2, t2) := k2 in
  if negb (str_eqb a1 a2) then localeCompare a1 a2
  else if negb (str_eqb y1 y2) then localeCompare y1 y2
  else localeCompare t1 t2.

Definition item_le (a b : obj) : Prop :=
  exists ka kb, sort_key a = Some ka /\ sort_key b = Some kb /\ key_le ka kb.

End SortOrder.

Definition key_eq_dec (k1 k2 : str * str * str) : {k1 = k2} + {k1 <> k2}.
Proof. repeat decide equality. Defined.

(** The records of [items] whose sort keys are [k], in order. *)
Definition with_key (k : str * str * str) (items : list obj) : list obj :=
  filter (fun it => match sort_key it with
                    | Some k' => if key_eq_dec k' k then true else false
                    | None => false
                    end) items.

(** The DOI prefixes that [normalizeDoi] strips. *)
Definition doi_prefixes : list str := doi_url_prefixes ++ ["doi:"].

(** [d] starts with none of the DOI prefixes. *)
Definition unprefixed (d : str) : bool :=
  forallb (fun p => negb (Str.startsWith p d)) doi_prefixes.

End Normalize.

Module Examples.
Import Normalize.

Definition name (family given : str) : JsVal :=
  JObj [("family", JStr family); ("given", JStr given)].

Definition issued_year (y : Z) : JsVal :=
  JObj [("date-parts", JArr [JArr [JNum y]])].

Definition sampleItem : obj :=
  [("type", JStr "article-journal");
   ("title", JStr "A Test Article About Testing");
   ("author", JArr [name "Smith" "John"; name "Doe" "Jane"]);
   ("issued", issued_year 2023);
   ("DOI", JStr "10.1234/test.2023.001")].

Definition greatBook : obj :=
  [("type", JStr "book");
   ("title", JStr "The Great Book!");
   ("author", JArr [name "Smith" "John"]);
   ("issued", issued_year 2023)].

Definition article (title family given : str) (year : Z) : obj :=
  [("type", JStr "article-journal");
   ("title", JStr title);
   ("author", JArr [name family given]);
   ("issued", issued_year year)].

Definition unsorted : list obj :=
  [article "Zebra Research" "Zebra" "Z" 2020;
   article "Alpha Study" "Alpha" "A" 2021;
   article "Alpha Earlier" "Alpha" "A" 2020].

End Examples.

(** ** core/types.ts: the declared types, as predicates on values *)

Module Types.

(** [z.string().optional()] *)
Definition opt_string (v : JsVal) : bool :=
  match v with JUndef | JStr _ => true | _ => false end.

(** [z.union([z.string(), z.number()])] *)
Definition string_or_number (v : JsVal) : bool :=
  match v with JStr _ | JNum _ => true | _ => false end.

Definition opt_string_or_number (v : JsVal) : bool :=
  match v with JUndef => true | _ => string_or_number v end.

Definition fields_ok (check : JsVal -> bool) (o : obj) (fields : list str)
  : bool :=
  forallb (fun f => check (Obj.get o f)) fields.

(** [CslNameSchema] *)
Definition CslName_ok (v : JsVal) : bool :=
  match v with
  | JObj o =>
      fields_ok opt_string o
        ["family"; "given"; "literal"; "dropping-particle";
         "non-dropping-particle"; "suffix"]
  | _ => false
  end.

Definition opt_names (v : JsVal) : bool :=
  match v with
  | JUndef => true
  | JArr vs => forallb CslName_ok vs
  | _ => false
  end.

(** [z.array(z.array(z.union([z.number(), z.string()]))).optional()] *)
Definition opt_date_parts (v : JsVal) : bool :=
  match v with
  | JUndef => true
  | JArr vs =>
      forallb (fun p => match p with
                        | JArr xs => forallb string_or_number xs
                        | _ => false
                        end) vs
  | _ => false
  end.

(** [CslDateSchema.optional()] *)
Definition opt_CslDate (v : JsVal) : bool :=
  match v with
  | JUndef => true
  | JObj o =>
      opt_date_parts (Obj.get o "date-parts") &&
      opt_string_or_number (Obj.get o "season") &&
      (match Obj.get o "circa" with
       | JUndef | JBool _ | JNum _ | JStr _ => true
       | _ => false
       end) &&
      fields_ok opt_string o ["literal"; "raw"]
  | _ => false
  end.

(** [CslItemSchema]; the schema is [passthrough], further fields are
    unconstrained. *)
Definition CslItem_ok (o : obj) : bool :=
  (match Obj.get o "type" with JStr _ => true | _ => false end) &&
  fields_ok opt_string_or_number o
    ["id"; "volume"; "issue"; "number-of-pages"; "edition"] &&
  fields_ok opt_string o
    ["DOI"; "ISBN"; "ISSN"; "PMID"; "PMCID"; "URL";
     "title"; "title-short"; "container-title"; "container-title-short";
     "collection-title"; "page"; "page-first"; "publisher";
     "publisher-place"; "abstract"; "language"; "note"; "keyword";
     "citation-key"; "citation-label"] &&
  fields_ok opt_names o
    ["author"; "editor"; "translator"; "collection-editor";
     "container-author"] &&
  fields_ok opt_CslDate o ["issued"; "accessed"; "event-date"; "submitted"].

(** [z.boolean().optional()] *)
Definition opt_boolean (v : JsVal) : bool :=
  match v with JUndef | JBool _ => true | _ => false end.

(** [z.array(z.string()).optional()] *)
Definition opt_strings (v : JsVal) : bool :=
  match v with
  | JUndef => true
  | JArr vs => forallb (fun x => match x with JStr _ => true | _ => false end) vs
  | _ => false
  end.

(** [CslItemSchema.optional()] *)
Definition opt_CslItem (v : JsVal) : bool :=
  match v with
  | JUndef => true
  | JObj o => CslItem_ok o
  | _ => false
  end.

(** [ZoteroCitationItemSchema] *)
Definition ZoteroCitationItem_ok (v : JsVal) : bool :=
  match v with
  | JObj o =>
      opt_string_or_number (Obj.get o "id") &&
      opt_strings (Obj.get o "uris") &&
      opt_CslItem (Obj.get o "itemData") &&
      fields_ok opt_string o ["locator"; "label"; "prefix"; "suffix"] &&
      opt_boolean (Obj.get o "suppress-author")
  | _ => false
  end.

(** [z.record(z.unknown()).optional()] *)
Definition opt_record (v : JsVal) : bool :=
  match v with JUndef | JObj _ => true | _ => false end.

(** [ZoteroCitationSchema] *)
Definition ZoteroCitation_ok (v : JsVal) : bool :=
  match v with
  | JObj o =>
      opt_string (Obj.get o "citationID") &&
      (match Obj.get o "citationItems" with
       | JUndef => true
       | JArr vs => forallb ZoteroCitationItem_ok vs
       | _ => false
       end) &&
      opt_record (Obj.get o "properties") &&
      opt_string (Obj.get o "schema")
  | _ => false
  end.

(** [safeParse] by the verdict of the schema.  The data of a success is
    taken to be the validated value: the keys that the library drops from
    objects that are not [passthrough] are kept. *)
Definition ZoteroCitationSchema (v : JsVal) : option JsVal :=
  if ZoteroCitation_ok v then Some v else None.

Definition CslItemSchema (v : JsVal) : option obj :=
  match v with
  | JObj o => if CslItem_ok o then Some o else None
  | _ => None
  end.

End Types.

(** ** [JSON.stringify] and [JSON.parse]

    The two built-ins on the values of the model.  [JSON.parse] is a lexer
    followed by a parser with an explicit stack; a text with a fraction, an
    exponent or a [\u] escape above U+00FF has no value in the model and is
    refused like a malformed text. *)

Module Json.

Definition dquote : ascii := ascii_of_nat 34.
Definition backslash : ascii := ascii_of_nat 92.

Definition hex_digit (n : nat) : ascii :=
  if n <? 10 then ascii_of_nat (48 + n) else ascii_of_nat (87 + n).

(** QuoteJSONString, one code unit. *)
Definition escape_char (c : ascii) : str :=
  let n := Char.code c in
  if n =? 34 then [backslash; dquote]
  else if n =? 92 then [backslash; backslash]
  else if n =? 8 then [backslash; "b"%char]
  else if n =? 12 then [backslash; "f"%char]
  else if n =? 10 then [backslash; "n"%char]
  else if n =? 13 then [backslash; "r"%char]
  else if n =? 9 then [backslash; "t"%char]
  else if n <? 32 then
    [backslash; "u"%char; "0"%char; "0"%char;
     hex_digit (n / 16); hex_digit (n mod 16)]
  else [c].

Definition quote (s : str) : str :=
  dquote :: flat_map escape_char s ++ [dquote].

Definition newline : str := [ascii_of_nat 10].

(** What stands between the brackets of an array or an object, from the
    texts of its parts: [gap] is empty or the indentation unit, [ind] the
    current indentation. *)
Definition inner (gap ind : str) (parts : list str) : str :=
  match parts with
  | [] => []
  | _ =>
      match gap with
      | [] => Str.join "," parts
      | _ =>
          newline ++ (ind ++ gap) ++
          Str.join ("," ++ newline ++ (ind ++ gap)) parts ++
          newline ++ ind
      end
  end.

Definition wrap (gap ind : str) (opening closing : ascii) (parts : list str)
  : str :=
  opening :: inner gap ind parts ++ [closing].

Definition colon (gap : str) : str :=
  match gap with [] => ":" | _ => ": " end.

(** SerializeJSONProperty: [undefined] is [null] in an array, and a
    property whose value is [undefined] is left out of an object. *)
Fixpoint ser (gap ind : str) (v : JsVal) {struct v} : str :=
  match v with
  | JUndef | JNull => "null"
  | JBool true => "true"
  | JBool false => "false"
  | JNum n => Str.of_Z n
  | JStr s => quote s
  | JArr vs => wrap gap ind "[" "]" (map (ser gap (ind ++ gap)) vs)
  | JObj kvs =>
      let fix members (l : list (str * JsVal)) : list str :=
        match l with
        | [] => []
        | (k, x) :: r =>
            match x with
            | JUndef => members r
            | _ => (quote k ++ colon gap ++ ser gap (ind ++ gap) x)
                     :: members r
            end
        end in
      wrap gap ind "{" "}" (members kvs)
  end.

(** The texts of the properties of an object, as in [ser]. *)
Fixpoint members (gap ind : str) (l : obj) : list str :=
  match l with
  | [] => []
  | (k, x) :: r =>
      match x with
      | JUndef => members gap ind r
      | _ => (quote k ++ colon gap ++ ser gap (ind ++ gap) x)
               :: members gap ind r
      end
  end.

(** [JSON.stringify(v)] and [JSON.stringify(v, null, 2)], for [v] not
    [undefined]. *)
Definition stringify (pretty : bool) (v : JsVal) : str :=
  ser (if pretty then "  " else []) [] v.

Inductive token :=
| TLBrace | TRBrace | TLBracket | TRBracket | TComma | TColon
| TStr (s : str) | TNum (n : Z) | TTrue | TFalse | TNull.

Definition is_json_ws (c : ascii) : bool :=
  let n := Char.code c in
  (n =? 32) || (n =? 9) || (n =? 10) || (n =? 13).

Definition hex_value (c : ascii) : option nat :=
  let n := Char.code c in
  if Char.is_digit c then Some (n - 48)
  else if Char.between 97 102 c then Some (n - 87)
  else if Char.between 65 70 c then Some (n - 55)
  else None.

(** [0] or a digit 1-9 followed by digits. *)
Definition valid_nat (s : str) : bool :=
  match s with
  | [] => false
  | [c] => Char.is_digit c
  | c :: r => Char.between 49 57 c && forallb Char.is_digit r
  end.

Definition valid_int (s : str) : bool :=
  match s with
  | c :: r => if Ascii.eqb c "-" then valid_nat r else valid_nat s
  | [] => false
  end.

(** The number token for the characters read, last one first. *)
Definition number_token (acc : str) : option token :=
  let s := rev acc in
  if valid_int s then
    match NilZero.int_of_string (String.string_of_list_ascii s) with
    | Some d => Some (TNum (Z.of_int d))
    | None => None
    end
  else None.

Inductive mode := MNormal | MStr (acc : str) | MNum (acc : str).

Definition emit (t : token) (rest : option (list token))
  : option (list token) :=
  match rest with
  | Some ts => Some (t :: ts)
  | None => None
  end.

(** The code unit of a simple escape [\c]. *)
Definition unescape (c : ascii) : option ascii :=
  let n := Char.code c in
  if n =? 34 then Some dquote
  else if n =? 92 then Some backslash
  else if n =? 47 then Some "/"%char
  else if n =? 98 then Some (ascii_of_nat 8)
  else if n =? 102 then Some (ascii_of_nat 12)
  else if n =? 110 then Some (ascii_of_nat 10)
  else if n =? 114 then Some (ascii_of_nat 13)
  else if n =? 116 then Some (ascii_of_nat 9)
  else None.

(** The code unit of [\uh1h2h3h4], when below U+0100. *)
Definition unicode_escape (h1 h2 h3 h4 : ascii) : option ascii :=
  match hex_value h1, hex_value h2, hex_value h3, hex_value h4 with
  | Some 0, Some 0, Some a, Some b => Some (ascii_of_nat (16 * a + b))
  | _, _, _, _ => None
  end.

Fixpoint lex (m : mode) (s : str) {struct s} : option (list token) :=
  match s with
  | [] =>
      match m with
      | MNormal => Some []
      | MStr _ => None
      | MNum acc =>
          match number_token acc with
          | Some t => Some [t]
          | None => None
          end
      end
  | c :: r =>
      let normal (_ : unit) : option (list token) :=
        if is_json_ws c then lex MNormal r
        else if Ascii.eqb c "{" then emit TLBrace (lex MNormal r)
        else if Ascii.eqb c "}" then emit TRBrace (lex MNormal r)
        else if Ascii.eqb c "[" then emit TLBracket (lex MNormal r)
        else if Ascii.eqb c "]" then emit TRBracket (lex MNormal r)
        else if Ascii.eqb c "," then emit TComma (lex MNormal r)
        else if Ascii.eqb c ":" then emit TColon (lex MNormal r)
        else if Ascii.eqb c dquote then lex (MStr []) r
        else if Ascii.eqb c "-" || Char.is_digit c then lex (MNum [c]) r
        else
          match r with
          | c1 :: c2 :: c3 :: r3 =>
              if str_eqb [c; c1; c2; c3] "true"
              then emit TTrue (lex MNormal r3)
              else if str_eqb [c; c1; c2; c3] "null"
              then emit TNull (lex MNormal r3)
              else
                match r3 with
                | c4 :: r4 =>
                    if str_eqb [c; c1; c2; c3; c4] "false"
                    then emit TFalse (lex MNormal r4)
                    else None
                | [] => None
                end
          | _ => None
          end in
      match m with
      | MNormal => normal tt
      | MNum acc =>
          if Char.is_digit c then lex (MNum (c :: acc)) r
          else if Ascii.eqb c "." || Ascii.eqb c "e" || Ascii.eqb c "E"
          then None
          else
            match number_token acc with
            | Some t => emit t (normal tt)
            | None => None
            end
      | MStr acc =>
          if Ascii.eqb c dquote then emit (TStr (rev acc)) (lex MNormal r)
          else if Ascii.eqb c backslash then
            match r with
            | e :: r1 =>
                if Ascii.eqb e "u" then
                  match r1 with
                  | h1 :: h2 :: h3 :: h4 :: r5 =>
                      match unicode_escape h1 h2 h3 h4 with
                      | Some x => lex (MStr (x :: acc)) r5
                      | None => None
                      end
                  | _ => None
                  end
                else
                  match unescape e with
                  | Some x => lex (MStr (x :: acc)) r1
                  | None => None
                  end
            | [] => None
            end
          else if Char.code c <? 32 then None
          else lex (MStr (c :: acc)) r
      end
  end.

(** The containers under construction: an array with its elements so far,
    last one first; an object with its properties so far, and with the key
    whose value is being read. *)
Inductive frame :=
| FArr (acc : list JsVal)
| FObj (acc : obj)
| FObjK (acc : obj) (key : str).

Inductive pstate :=
| PValue (close_ok : bool)
| PKey (close_ok : bool)
| PColon (key : str)
| PAfter
| PDone (v : JsVal).

(** A complete value [v] goes to the container on top of the stack. *)
Definition deliver (v : JsVal) (stack : list frame)
  : option (pstate * list frame) :=
  match stack with
  | [] => Some (PDone v, [])
  | FArr acc :: st => Some (PAfter, FArr (v :: acc) :: st)
  | FObjK acc key :: st => Some (PAfter, FObj (Obj.set acc key v) :: st)
  | FObj _ :: _ => None
  end.

Definition step (p : pstate) (stack : list frame) (t : token)
  : option (pstate * list frame) :=
  match p with
  | PValue close_ok =>
      match t with
      | TLBrace => Some (PKey true, FObj [] :: stack)
      | TLBracket => Some (PValue true, FArr [] :: stack)
      | TStr s => deliver (JStr s) stack
      | TNum n => deliver (JNum n) stack
      | TTrue => deliver (JBool true) stack
      | TFalse => deliver (JBool false) stack
      | TNull => deliver JNull stack
      | TRBracket =>
          match close_ok, stack with
          | true, FArr [] :: st => deliver (JArr []) st
          | _, _ => None
          end
      | _ => None
      end
  | PKey close_ok =>
      match t with
      | TStr k => Some (PColon k, stack)
      | TRBrace =>
          match close_ok, stack with
          | true, FObj [] :: st => deliver (JObj []) st
          | _, _ => None
          end
      | _ => None
      end
  | PColon k =>
      match t, stack with
      | TColon, FObj acc :: st => Some (PValue false, FObjK acc k :: st)
      | _, _ => None
      end
  | PAfter =>
      match t, stack with
      | TComma, FArr _ :: _ => Some (PValue false, stack)
      | TComma, FObj _ :: _ => Some (PKey false, stack)
      | TRBracket, FArr acc :: st => deliver (JArr (rev acc)) st
      | TRBrace, FObj acc :: st => deliver (JObj acc) st
      | _, _ => None
      end
  | PDone _ => None
  end.

Fixpoint run (p : pstate) (stack : list frame) (ts : list token)
  : option JsVal :=
  match ts with
  | [] =>
      match p, stack with
      | PDone v, [] => Some v
      | _, _ => None
      end
  | t :: r =>
      match step p stack t with
      | Some (p', stack') => run p' stack' r
      | None => None
      end
  end.

(** [JSON.parse(text)]; [None] for a SyntaxError. *)
Definition parse (text : str) : option JsVal :=
  match lex MNormal text with
  | Some ts => run (PValue false) [] ts
  | None => None
  end.

(** The tokens of the text of a value. *)
Fixpoint tokens (v : JsVal) : list token :=
  match v with
  | JUndef | JNull => [TNull]
  | JBool true => [TTrue]
  | JBool false => [TFalse]
  | JNum n => [TNum n]
  | JStr s => [TStr s]
  | JArr vs =>
      let fix elems (first : bool) (l : list JsVal) : list token :=
        match l with
        | [] => []
        | x :: r =>
            (if first then [] else [TComma]) ++ tokens x ++ elems false r
        end in
      TLBracket :: elems true vs ++ [TRBracket]
  | JObj kvs =>
      let fix props (first : bool) (l : list (str * JsVal)) : list token :=
        match l with
        | [] => []
        | (k, x) :: r =>
            match x with
            | JUndef => props first r
            | _ =>
                (if first then [] else [TComma]) ++
                TStr k :: TColon :: tokens x ++ props false r
            end
        end in
      TLBrace :: props true kvs ++ [TRBrace]
  end.

Fixpoint elem_tokens (first : bool) (l : list JsVal) : list token :=
  match l with
  | [] => []
  | x :: r =>
      (if first then [] else [TComma]) ++ tokens x ++ elem_tokens false r
  end.

Fixpoint prop_tokens (first : bool) (l : obj) : list token :=
  match l with
  | [] => []
  | (k, x) :: r =>
      match x with
      | JUndef => prop_tokens first r
      | _ =>
          (if first then [] else [TComma]) ++
          TStr k :: TColon :: tokens x ++ prop_tokens false r
      end
  end.

(** The values [JSON.parse] can return: no [undefined] inside, and the
    keys of every object pairwise distinct. *)
#[warnings="-register-all"]
Inductive json_value : JsVal -> Prop :=
| jv_null : json_value JNull
| jv_bool b : json_value (JBool b)
| jv_num n : json_value (JNum n)
| jv_str s : json_value (JStr s)
| jv_arr vs : Forall json_value vs -> json_value (JArr vs)
| jv_obj kvs :
    NoDup (map fst kvs) ->
    Forall (fun kv => json_value (snd kv)) kvs ->
    json_value (JObj kvs).

(** The rest of a parse from the state that a step leads to. *)
Definition continue (next : option (pstate * list frame)) (ts : list token)
  : option JsVal :=
  match next with
  | Some (p, stack) => run p stack ts
  | None => None
  end.

(** A text that can follow a number. *)
Definition ends_number (rest : str) : bool :=
  match rest with
  | [] => true
  | c :: _ =>
      negb (Char.is_digit c || Ascii.eqb c "." || Ascii.eqb c "e"
            || Ascii.eqb c "E")
  end.

Definition emits (ts : list token) (rest : option (list token))
  : option (list token) :=
  match rest with
  | Some l => Some (ts ++ l)
  | None => None
  end.

(** Token lists with a comma between them. *)
Definition sep_tokens (tss : list (list token)) : list token :=
  match tss with
  | [] => []
  | ts :: r => ts ++ flat_map (fun x => TComma :: x) r
  end.

(** [text] read before any text that can follow a value gives [ts]. *)
Definition lexes (text : str) (ts : list token) : Prop :=
  forall rest,
    ends_number rest = true ->
    lex MNormal (text ++ rest) = emits ts (lex MNormal rest).

Definition defined (kv : str * JsVal) : bool :=
  match snd kv with JUndef => false | _ => true end.

(** The text and the tokens of one property. *)
Definition prop_text (gap ind : str) (kv : str * JsVal) : str :=
  quote (fst kv) ++ colon gap ++ ser gap (ind ++ gap) (snd kv).

Definition prop_toks (kv : str * JsVal) : list token :=
  TStr (fst kv) :: TColon :: tokens (snd kv).

(** The tokens of [v], read where a value can stand, give [v]. *)
Definition parses (v : JsVal) : Prop :=
  forall b st rest,
    run (PValue b) st (tokens v ++ rest) = continue (deliver v st) rest.

(** The characters of a printed integer. *)
Definition digit_or_minus (c : ascii) : Prop :=
  Char.is_digit c = true \/ c = "-"%char.

End Json.

(** ** convert/citationJs.ts *)

Inductive OutputFormat := CSL | BibLaTeX | BibTeX | RIS.

(** The three uses of the citation-js engine: [format('bibtex', {template:
    'biblatex'})], [format('bibtex')] and [format('ris')]. *)
Inductive CiteTarget := CiteBibLaTeX | CiteBibTeX | CiteRis.

Module Convert.
Import Normalize.

(** [a ?? b] *)
Definition coalesce (a b : JsVal) : JsVal :=
  if Js.nullish a then b else a.

(** [item.id ?? generateCiteKey(item) ?? `ref-${index + 1}`] *)
Definition item_id (item : obj) (index : nat) : option JsVal :=
  let id := Obj.get item "id" in
  if Js.nullish id then
    match generateCiteKey item with
    | None => None
    | Some key =>
        Some (coalesce (JStr key) (JStr ("ref-" ++ Str.of_nat (index + 1))))
    end
  else Some id.

(** [{ ...item, id: ... }] *)
Definition with_id (item : obj) (index : nat) : option obj :=
  match item_id item index with
  | None => None
  | Some id => Some (Obj.set item "id" id)
  end.

(** [items.map((item, index) => ...)], from position [index] on. *)
Fixpoint with_ids_from (index : nat) (items : list obj) : option (list obj) :=
  match items with
  | [] => Some []
  | item :: rest =>
      match with_id item index with
      | None => None
      | Some item' =>
          match with_ids_from (S index) rest with
          | None => None
          | Some rest' => Some (item' :: rest')
          end
      end
  end.

Definition itemsWithIds (items : list obj) : option (list obj) :=
  with_ids_from 0 items.

Definition formatCslJson (items : list obj) (minify : bool) : str :=
  Json.stringify (negb minify) (JArr (map JObj items)).

(** Lookup in a table of texts. *)
Fixpoint assoc (k : str) (table : list (str * str)) : option str :=
  match table with
  | [] => None
  | (k', v) :: r => if str_eqb k k' then Some v else assoc k r
  end.

(** [mapping[cslType] || fallback] as it is written into the entry: the
    value of the own property, else the text of the member of
    [Object.prototype] that [mapping] inherits under that name, else the
    fallback. *)
Definition map_type (mapping : list (str * str)) (fallback cslType : str)
  : str :=
  match assoc cslType mapping with
  | Some v => v
  | None =>
      match assoc cslType Obj.prototype with
      | Some text => text
      | None => fallback
      end
  end.

Definition mapCslTypeToBibLaTeX (cslType : JsVal) : str :=
  map_type
    [("article-journal", "article"); ("article-magazine", "article");
     ("article-newspaper", "article"); ("book", "book");
     ("chapter", "incollection"); ("paper-conference", "inproceedings");
     ("thesis", "thesis"); ("report", "report"); ("webpage", "online");
     ("dataset", "dataset"); ("software", "software")]
    "misc" (Js.toString cslType).

Definition mapCslTypeToBibTeX (cslType : JsVal) : str :=
  map_type
    [("article-journal", "article"); ("article-magazine", "article");
     ("article-newspaper", "article"); ("book", "book");
     ("chapter", "incollection"); ("paper-conference", "inproceedings");
     ("thesis", "phdthesis"); ("report", "techreport")]
    "misc" (Js.toString cslType).

Definition mapCslTypeToRis (cslType : JsVal) : str :=
  map_type
    [("article-journal", "JOUR"); ("article-magazine", "MGZN");
     ("article-newspaper", "NEWS"); ("book", "BOOK"); ("chapter", "CHAP");
     ("paper-conference", "CONF"); ("thesis", "THES"); ("report", "RPRT");
     ("webpage", "ELEC"); ("dataset", "DATA"); ("software", "COMP")]
    "GEN" (Js.toString cslType).

(** The callback of [item.author.map] in the bracket formats. *)
Definition author_name (a : JsVal) : option JsVal :=
  match Js.prop a "literal" with
  | None => None
  | Some literal =>
      if Js.truthy literal then Some literal
      else
        let family := Js.oprop a "family" in
        let given := Js.oprop a "given" in
        if Js.truthy family && Js.truthy given
        then Some (JStr (Js.toString family ++ ", " ++ Js.toString given))
        else if Js.truthy family then Some family
        else Some (JStr [])
  end.

Fixpoint map_opt (A B : Type) (f : A -> option B) (l : list A)
  : option (list B) :=
  match l with
  | [] => Some []
  | x :: r =>
      match f x, map_opt f r with
      | Some y, Some r' => Some (y :: r')
      | _, _ => None
      end
  end.

(** The [author] field of a bracket entry, when there is one.  An
    [author] that is no array is outside the declared type: a non-empty
    string and an object with a positive [length] have no method [map]
    (TypeError). *)
Definition author_field (item : obj) : option (list str) :=
  match Obj.get item "author" with
  | JArr [] => Some []
  | JArr vs =>
      match map_opt author_name vs with
      | None => None
      | Some names =>
          let authors :=
            Str.join " and " (map Js.toString (filter Js.truthy names)) in
          match authors with
          | [] => Some []
          | _ => Some [("  author = {" ++ authors ++ "}")]
          end
      end
  | JStr (_ :: _) => None
  | JObj author =>
      match Js.positive (Obj.get author "length") with
      | Some false => Some []
      | _ => None
      end
  | _ => Some []
  end.

(** [if (v) fields.push(`  name = {${v}}`)] *)
Definition field (name : str) (v : JsVal) : list str :=
  if Js.truthy v then ["  " ++ name ++ " = {" ++ Js.toString v ++ "}"]
  else [].

Definition first_year (item : obj) : JsVal :=
  Js.ofirst (Js.ofirst (Js.oprop (Obj.get item "issued") "date-parts")).

Definition newline : str := [ascii_of_nat 10].

Definition entry (type key : str) (fields : list str) : str :=
  "@" ++ type ++ "{" ++ key ++ "," ++ newline
  ++ Str.join ("," ++ newline) fields ++ newline ++ "}".

Definition generateBibLaTeXEntry (item : obj) : option str :=
  match generateCiteKey item with
  | None => None
  | Some key =>
      let type := mapCslTypeToBibLaTeX (Obj.get item "type") in
      match author_field item with
      | None => None
      | Some authors =>
          let fieldName :=
            if str_eqb type "article" then "journaltitle" else "booktitle" in
          Some (entry type key
                  (authors
                   ++ field "title" (Obj.get item "title")
                   ++ field "year" (first_year item)
                   ++ field fieldName (Obj.get item "container-title")
                   ++ field "volume" (Obj.get item "volume")
                   ++ field "number" (Obj.get item "issue")
                   ++ field "pages" (Obj.get item "page")
                   ++ field "doi" (Obj.get item "DOI")
                   ++ field "url" (Obj.get item "URL")
                   ++ field "publisher" (Obj.get item "publisher")
                   ++ field "isbn" (Obj.get item "ISBN")))
      end
  end.

Definition generateBibTeXEntry (item : obj) : option str :=
  match generateCiteKey item with
  | None => None
  | Some key =>
      let type := mapCslTypeToBibTeX (Obj.get item "type") in
      match author_field item with
      | None => None
      | Some authors =>
          Some (entry type key
                  (authors
                   ++ field "title" (Obj.get item "title")
                   ++ field "year" (first_year item)
                   ++ field "journal" (Obj.get item "container-title")
                   ++ field "volume" (Obj.get item "volume")
                   ++ field "number" (Obj.get item "issue")
                   ++ field "pages" (Obj.get item "page")
                   ++ field "doi" (Obj.get item "DOI")
                   ++ field "url" (Obj.get item "URL")
                   ++ field "publisher" (Obj.get item "publisher")))
      end
  end.

Definition manualBibLaTeX (items : list obj) : option str :=
  match map_opt generateBibLaTeXEntry items with
  | Some entries => Some (Str.join (newline ++ newline) entries)
  | None => None
  end.

Definition manualBibTeX (items : list obj) : option str :=
  match map_opt generateBibTeXEntry items with
  | Some entries => Some (Str.join (newline ++ newline) entries)
  | None => None
  end.

(** [if (v) lines.push(`TAG  - ${v}`)] *)
Definition ris_line (tag : str) (v : JsVal) : list str :=
  if Js.truthy v then [tag ++ "  - " ++ Js.toString v] else [].

(** One turn of [for (const author of item.author)]. *)
Definition ris_author (author : JsVal) : option (list str) :=
  match Js.prop author "literal" with
  | None => None
  | Some literal =>
      if Js.truthy literal then Some (ris_line "AU" literal)
      else
        let family := Js.oprop author "family" in
        let given := Js.oprop author "given" in
        if Js.truthy family then
          if Js.truthy given
          then Some ["AU  - " ++ Js.toString family ++ ", "
                     ++ Js.toString given]
          else Some (ris_line "AU" family)
        else Some []
  end.

(** The units of a non-empty string have neither [literal] nor [family];
    a number, a boolean or an object is not iterable (TypeError). *)
Definition ris_authors (item : obj) : option (list str) :=
  let author := Obj.get item "author" in
  if Js.truthy author then
    match author with
    | JArr vs =>
        match map_opt ris_author vs with
        | Some ls => Some (concat ls)
        | None => None
        end
    | JStr _ => Some []
    | _ => None
    end
  else Some [].

(** [s.split('-')] *)
Fixpoint split_hyphen (s : str) : list str :=
  match s with
  | [] => [[]]
  | c :: r =>
      if Ascii.eqb c "-" then [] :: split_hyphen r
      else
        match split_hyphen r with
        | w :: ws => (c :: w) :: ws
        | [] => [[c]]
        end
  end.

(** [SP] and [EP] from [item.page]. *)
Definition ris_pages (item : obj) : option (list str) :=
  let page := Obj.get item "page" in
  if Js.truthy page then
    match page with
    | JStr p =>
        let parts := split_hyphen p in
        let sp := hd [] parts in
        let ep := hd [] (tl parts) in
        Some ((match sp with [] => [] | _ => ["SP  - " ++ Str.trim sp] end)
              ++ (match ep with [] => [] | _ => ["EP  - " ++ Str.trim ep] end))
    | _ => None
    end
  else Some [].

Definition generateRisEntry (item : obj) : option str :=
  match ris_authors item, ris_pages item with
  | Some authors, Some pages =>
      Some (Str.join newline
              (["TY  - " ++ mapCslTypeToRis (Obj.get item "type")]
               ++ authors
               ++ ris_line "TI" (Obj.get item "title")
               ++ ris_line "PY" (first_year item)
               ++ ris_line "JO" (Obj.get item "container-title")
               ++ ris_line "VL" (Obj.get item "volume")
               ++ ris_line "IS" (Obj.get item "issue")
               ++ pages
               ++ ris_line "DO" (Obj.get item "DOI")
               ++ ris_line "UR" (Obj.get item "URL")
               ++ ris_line "PB" (Obj.get item "publisher")
               ++ ["ER  - "; []]))
  | _, _ => None
  end.

Definition manualRis (items : list obj) : option str :=
  match map_opt generateRisEntry items with
  | Some entries => Some (Str.join newline entries)
  | None => None
  end.

(** The length of the match of [@\w+\{id,] at the start of [s], and the
    length of its first group [@\w+\{]. *)
Definition match_key (id s : str) : option (nat * nat) :=
  match s with
  | c :: r =>
      if Ascii.eqb c "@" then
        let w := length r - length (Str.dropWhile Char.is_word r) in
        match w, Str.strip_prefix ("{" ++ id ++ ",") (skipn w r) with
        | S _, Some _ => Some (1 + w + 1, 1 + w + 1 + length id + 1)
        | _, _ => None
        end
      else None
  | [] => None
  end.

(** GetSubstitution for a pattern with the two groups [g1] and [g2]: the
    replacement text with [$$], [$&], [$`], [$'], [$1], [$2] (also written
    [$01], [$02]) expanded; any other [$] stands for itself. *)
Fixpoint expand (repl matched before after g1 g2 : str) : str :=
  match repl with
  | [] => []
  | c :: r =>
      if Ascii.eqb c "$" then
        match r with
        | d :: r1 =>
            if Ascii.eqb d "$" then "$" ++ expand r1 matched before after g1 g2
            else if Ascii.eqb d "&"
            then matched ++ expand r1 matched before after g1 g2
            else if Ascii.eqb d "`"
            then before ++ expand r1 matched before after g1 g2
            else if Ascii.eqb d "'"
            then after ++ expand r1 matched before after g1 g2
            else if Ascii.eqb d "0" then
              match r1 with
              | e :: r2 =>
                  if Ascii.eqb e "1"
                  then g1 ++ expand r2 matched before after g1 g2
                  else if Ascii.eqb e "2"
                  then g2 ++ expand r2 matched before after g1 g2
                  else c :: expand r matched before after g1 g2
              | [] => c :: expand r matched before after g1 g2
              end
            else if Ascii.eqb d "1"
            then g1 ++ expand r1 matched before after g1 g2
            else if Ascii.eqb d "2"
            then g2 ++ expand r1 matched before after g1 g2
            else c :: expand r matched before after g1 g2
        | [] => [c]
        end
      else c :: expand r matched before after g1 g2
  end.

(** [result.replace(pattern, `$1${newKey}$2`)] with the flag [g]: [s] is
    the text from the current position on, [done] the text before it, last
    unit first, and [skip] the number of units of the last match still to
    pass. *)
Fixpoint replace_keys (id newKey done s : str) (skip : nat) : str :=
  match s with
  | [] => []
  | c :: r =>
      match skip with
      | S k => replace_keys id newKey (c :: done) r k
      | 0 =>
          match match_key id s with
          | Some (g1, len) =>
              expand ("$1" ++ newKey ++ "$2")
                (firstn len s) (rev done) (skipn len s) (firstn g1 s) ","
              ++ replace_keys id newKey (c :: done) r (len - 1)
          | None => c :: replace_keys id newKey (c :: done) r 0
          end
      end
  end.

Fixpoint postProcessBibTeX (bibtex : str) (items : list obj) : option str :=
  match items with
  | [] => Some bibtex
  | item :: rest =>
      let originalId := Js.toString (Obj.get item "id") in
      match generateCiteKey item with
      | None => None
      | Some newKey =>
          postProcessBibTeX (replace_keys originalId newKey [] bibtex 0) rest
      end
  end.

Section Engine.

(** [new Cite(items).format(...)] of citation-js; [None] when it raises. *)
Variable cite_format : CiteTarget -> list obj -> option str.

(** [try { ... } catch { return manualBibLaTeX(items) }] *)
Definition formatBibLaTeX (items : list obj) : option str :=
  match cite_format CiteBibLaTeX items with
  | Some output =>
      match postProcessBibTeX output items with
      | Some result => Some result
      | None => manualBibLaTeX items
      end
  | None => manualBibLaTeX items
  end.

Definition formatBibTeX (items : list obj) : option str :=
  match cite_format CiteBibTeX items with
  | Some output =>
      match postProcessBibTeX output items with
      | Some result => Some result
      | None => manualBibTeX items
      end
  | None => manualBibTeX items
  end.

Definition formatRis (items : list obj) : option str :=
  match cite_format CiteRis items with
  | Some output => Some output
  | None => manualRis items
  end.

Definition convertToFormat (items : list obj) (format : OutputFormat)
           (minify : bool) : option str :=
  match itemsWithIds items with
  | None => None
  | Some withIds =>
      match format with
      | CSL => Some (formatCslJson withIds minify)
      | BibLaTeX => formatBibLaTeX withIds
      | BibTeX => formatBibTeX withIds
      | RIS => formatRis withIds
      end
  end.

End Engine.

(** *** Entries in the text of the engine *)








(** An engine that raises on every input. *)
Definition engine_raises (_ : CiteTarget) (_ : list obj) : option str := None.

(** An engine that keys every entry by the [id] of its record. *)
Definition engine_keyed_by_id (_ : CiteTarget) (items : list obj)
  : option str :=
  Some (Str.join newline
          (map (fun it => "@misc{" ++ Js.toString (Obj.get it "id") ++ ","
                          ++ newline ++ "}") items)).


Definition record_with_id : obj :=
  [("type", JStr "article-journal");
   ("id", JStr "myid");
   ("title", JStr "A Test Article About Testing");
   ("author", JArr [Examples.name "Smith" "John"]);
   ("issued", Examples.issued_year 2023)].

(** The record handed to the formatters for [it]: [it] itself when it has
    an [id], [it] with its cite key as [id] otherwise. *)
Definition identified (it it' : obj) : Prop :=
  (Js.nullish (Obj.get it "id") = false -> it' = it) /\
  (Js.nullish (Obj.get it "id") = true ->
   exists key,
     generateCiteKey it = Some key /\ it' = Obj.set it "id" (JStr key)).


End Convert.

(** ** extractors/docx.ts *)

Module Docx.

(** [text.indexOf(c, from)]; [None] for [-1]. *)
Fixpoint index_from (c : ascii) (s : str) (pos : nat) : option nat :=
  match s with
  | [] => None
  | x :: r => if Ascii.eqb x c then Some pos else index_from c r (S pos)
  end.

Definition indexOf (text : str) (c : ascii) (from : nat) : option nat :=
  index_from c (skipn from text) from.

(** [text.slice(a, b)] for [a <= b]. *)
Definition slice (text : str) (a b : nat) : str :=
  firstn (b - a) (skipn a text).

(** The loop of [findBalancedBrace]: [s] is the text from index [i] on. *)
Fixpoint scan (s : str) (i : nat) (depth : Z) (inString escape : bool)
  : option nat :=
  match s with
  | [] => None
  | char :: r =>
      if escape then scan r (S i) depth inString false
      else if Ascii.eqb char Json.backslash && inString
      then scan r (S i) depth inString true
      else if Ascii.eqb char Json.dquote
      then scan r (S i) depth (negb inString) false
      else if inString then scan r (S i) depth inString false
      else if Ascii.eqb char "{"
      then scan r (S i) (depth + 1) inString false
      else if Ascii.eqb char "}" then
        if (depth - 1 =? 0)%Z then Some i
        else scan r (S i) (depth - 1) inString false
      else scan r (S i) depth inString false
  end.

(** [None] for [-1]. *)
Definition findBalancedBrace (text : str) (start : nat) : option nat :=
  scan (skipn start text) start 0 false false.

(** The alternatives of
    [/ADDIN (?:ZOTERO_ITEM |ZOTERO_BIBL |CSL_CITATION )/]. *)
Definition markers : list str :=
  ["ADDIN ZOTERO_ITEM "; "ADDIN ZOTERO_BIBL "; "ADDIN CSL_CITATION "].

(** The length of the marker that [s] starts with, [match[0].length]. *)
Definition marker_at (s : str) : option nat :=
  match filter (fun m => Str.startsWith m s) markers with
  | m :: _ => Some (length m)
  | [] => None
  end.

(** The body of the loop of [extractJsonBlocks] once a marker has matched:
    [startSearch] is the index after the marker. *)
Definition block_after (text : str) (startSearch : nat) : list str :=
  match indexOf text "{" startSearch with
  | None => []
  | Some jsonStart =>
      match findBalancedBrace text jsonStart with
      | None => []
      | Some jsonEnd => [slice text jsonStart (jsonEnd + 1)]
      end
  end.

(** The loop [while ((match = citationPattern.exec(text)) !== null)]: [s]
    is the text from index [pos] on, and the next match is looked for from
    [lastIndex = pos + skip]. *)
Fixpoint exec_from (text s : str) (pos skip : nat) : list str :=
  match s with
  | [] => []
  | _ :: r =>
      match skip with
      | S k => exec_from text r (S pos) k
      | 0 =>
          match marker_at s with
          | Some len =>
              block_after text (pos + len)
                ++ exec_from text r (S pos) (len - 1)
          | None => exec_from text r (S pos) 0
          end
      end
  end.

Definition extractJsonBlocks (text : str) : list str :=
  exec_from text text 0 0.

(** The indices, from [pos] on, at which a marker starts in the text whose
    rest from [pos] is [s]. *)
Fixpoint marker_positions_from (s : str) (pos : nat) : list nat :=
  match s with
  | [] => []
  | _ :: r =>
      match marker_at s with
      | Some _ => pos :: marker_positions_from r (S pos)
      | None => marker_positions_from r (S pos)
      end
  end.

Definition marker_positions (text : str) : list nat :=
  marker_positions_from text 0.

(** What the marker at index [i] contributes. *)
Definition block_at (text : str) (i : nat) : list str :=
  match marker_at (skipn i text) with
  | Some len => block_after text (i + len)
  | None => []
  end.

(** The inside of a double-quoted string as the scanner reads it: a
    backslash takes the next character with it. *)
Inductive string_body : str -> Prop :=
| body_nil : string_body []
| body_char c r :
    c <> Json.dquote -> c <> Json.backslash ->
    string_body r -> string_body (c :: r)
| body_escape e r :
    string_body r -> string_body (Json.backslash :: e :: r).

(** Text in which every brace outside a string has its partner. *)
Inductive balanced : str -> Prop :=
| bal_nil : balanced []
| bal_char c r :
    c <> Json.dquote -> c <> "{"%char -> c <> "}"%char ->
    balanced r -> balanced (c :: r)
| bal_string b r :
    string_body b -> balanced r ->
    balanced (Json.dquote :: b ++ Json.dquote :: r)
| bal_braces b r :
    balanced b -> balanced r ->
    balanced ("{"%char :: b ++ "}"%char :: r).

(** Text without quotes and braces. *)
Definition plain (s : str) : Prop :=
  Forall (fun c => c <> Json.dquote /\ c <> "{"%char /\ c <> "}"%char) s.

(** [extractItemData(item, sourceFile)]; [None] for [null]. *)
Definition extractItemData (item : JsVal) (sourceFile : str)
  : option ExtractedRef :=
  match item with
  | JObj o =>
      match Obj.get o "itemData" with
      | JObj itemData =>
          if negb (Js.truthy (Obj.get itemData "type")) then None
          else Some (mkRef itemData DocxCitation sourceFile item)
      | _ => None
      end
  | _ => None
  end.

(** The text that one object contributes to [collectInstrTexts]. *)
Definition instrText_of (o : obj) : list str :=
  match Obj.lookup "w:instrText" o with
  | Some (JStr s) => [s]
  | Some (JObj textObj) =>
      match Obj.lookup "#text" textObj with
      | Some (JStr s) => [s]
      | _ => []
      end
  | _ => []
  end.

(** [collectInstrTexts(node)] *)
Fixpoint collectInstrTexts (node : JsVal) : list str :=
  match node with
  | JObj o =>
      instrText_of o
      ++ (fix each (l : list (str * JsVal)) : list str :=
            match l with
            | [] => []
            | (_, value) :: r =>
                (match value with
                 | JArr items =>
                     (fix all (l' : list JsVal) : list str :=
                        match l' with
                        | [] => []
                        | x :: r' => collectInstrTexts x ++ all r'
                        end) items
                 | JObj _ => collectInstrTexts value
                 | _ => []
                 end) ++ each r
            end) o
  | JArr vs =>
      (fix each (l : list JsVal) : list str :=
         match l with
         | [] => []
         | value :: r =>
             (match value with
              | JArr items =>
                  (fix all (l' : list JsVal) : list str :=
                     match l' with
                     | [] => []
                     | x :: r' => collectInstrTexts x ++ all r'
                     end) items
              | JObj _ => collectInstrTexts value
              | _ => []
              end) ++ each r
         end) vs
  | _ => []
  end.

Section Citations.

(** [ZoteroCitationSchema.safeParse] and [CslItemSchema.safeParse] of the
    validation library: [Some data] on success. *)
Variable ZoteroCitationSchema : JsVal -> option JsVal.
Variable CslItemSchema : JsVal -> option obj.

(** The relaxed fallback of [parseCitationJson]. *)
Definition relaxed_items (parsed : JsVal) (sourceFile : str)
  : list ExtractedRef :=
  match parsed with
  | JObj o =>
      match Obj.lookup "citationItems" o with
      | Some (JArr citationItems) =>
          flat_map (fun item =>
                      match extractItemData item sourceFile with
                      | Some extracted => [extracted]
                      | None => []
                      end) citationItems
      | _ => []
      end
  | _ => []
  end.

(** One turn of the loop over [citation.citationItems]; [None] when
    [citationItem] is [null] or [undefined] (TypeError). *)
Definition validated_item (citationItem : JsVal) (sourceFile : str)
  : option (list ExtractedRef) :=
  match Js.prop citationItem "itemData" with
  | None => None
  | Some itemData =>
      if Js.truthy itemData then
        match CslItemSchema itemData with
        | Some data => Some [mkRef data DocxCitation sourceFile citationItem]
        | None =>
            match itemData with
            | JObj payload =>
                if Js.truthy (Obj.get payload "type")
                then Some [mkRef payload DocxCitation sourceFile citationItem]
                else Some []
            | _ => Some []
            end
        end
      else Some []
  end.

Fixpoint validated_items (citationItems : list JsVal) (sourceFile : str)
  : option (list ExtractedRef) :=
  match citationItems with
  | [] => Some []
  | citationItem :: r =>
      match validated_item citationItem sourceFile,
            validated_items r sourceFile with
      | Some refs, Some rest => Some (refs ++ rest)
      | _, _ => None
      end
  end.

(** [parseCitationJson(jsonStr, sourceFile)]; [None] when it throws. *)
Definition parseCitationJson (jsonStr : str) (sourceFile : str)
  : option (list ExtractedRef) :=
  match Json.parse jsonStr with
  | None => None
  | Some parsed =>
      match ZoteroCitationSchema parsed with
      | None => Some (relaxed_items parsed sourceFile)
      | Some citation =>
          match Js.prop citation "citationItems" with
          | None => None
          | Some citationItems =>
              if Js.truthy citationItems then
                match citationItems with
                | JArr items => validated_items items sourceFile
                | JStr _ => Some []
                | _ => None
                end
              else Some []
          end
      end
  end.

(** [extractCitationsFromXml] on the parsed part; [None] stands for a part
    that the XML parser refuses. *)
Definition extractCitationsFromXml (doc : option JsVal) (sourceFile : str)
  : list ExtractedRef :=
  match doc with
  | None => []
  | Some d =>
      flat_map (fun json =>
                  match parseCitationJson json sourceFile with
                  | Some items => items
                  | None => []
                  end)
        (extractJsonBlocks (concat (collectInstrTexts d)))
  end.

(** The references of [extractFromDocx], from the parsed parts of the
    archive; [None] when it throws. *)
Definition extractFromDocx (xmlEntries : list (option JsVal))
           (filePath : str) : option (list ExtractedRef) :=
  match xmlEntries with
  | [] => None
  | _ => Some (flat_map (fun doc => extractCitationsFromXml doc filePath)
                 xmlEntries)
  end.

End Citations.

End Docx.

(** ** extractors/pdf.ts

    The TEI document is taken as the XML parser returns it: a value made of
    objects, arrays, strings and numbers. *)

Module Pdf.

(** [a === b] for a string [b]. *)
Definition is_str (v : JsVal) (s : str) : bool :=
  match v with
  | JStr x => str_eqb x s
  | _ => false
  end.

(** [extractText(element)]: a string or [undefined]. *)
Fixpoint extractText (element : JsVal) : JsVal :=
  match element with
  | JStr [] => JUndef
  | JStr s => JStr (Str.trim s)
  | JArr vs =>
      (fix each (l : list JsVal) : JsVal :=
         match l with
         | [] => JUndef
         | el :: r =>
             let text := extractText el in
             if Js.truthy text then text else each r
         end) vs
  | JObj o =>
      match Obj.lookup "#text" o with
      | Some t => JStr (Str.trim (Js.toString t))
      | None =>
          (fix each (l : list (str * JsVal)) : JsVal :=
             match l with
             | [] => JUndef
             | (key, v) :: r =>
                 if negb (Str.startsWith "@_" key) then
                   let text := extractText v in
                   if Js.truthy text then text else each r
                 else each r
             end) o
      end
  | _ => JUndef
  end.

(** [obj['@_unit'] === type || obj['@_type'] === type]; [None] when [el] is
    [null] or [undefined] (TypeError). *)
Definition has_type (el : JsVal) (type : str) : option bool :=
  match Js.prop el "@_unit", Js.prop el "@_type" with
  | Some u, Some t => Some (is_str u type || is_str t type)
  | _, _ => None
  end.

(** [extractText(element, type)] for a non-empty [type]. *)
Definition extractTextOf (element : JsVal) (type : str) : option JsVal :=
  if negb (Js.truthy element) then Some JUndef
  else
    match element with
    | JStr s => Some (JStr (Str.trim s))
    | JArr vs =>
        (fix each (l : list JsVal) : option JsVal :=
           match l with
           | [] => Some JUndef
           | el :: r =>
               match has_type el type with
               | None => None
               | Some true =>
                   let text := extractText el in
                   if Js.truthy text then Some text else each r
               | Some false => each r
               end
           end) vs
    | JObj o =>
        if negb (is_str (Obj.get o "@_unit") type)
           && negb (is_str (Obj.get o "@_type") type)
        then Some JUndef
        else Some (extractText element)
    | _ => Some JUndef
    end.

(** The elements of [v] when it is an array, [v] alone otherwise. *)
Definition as_list (v : JsVal) : list JsVal :=
  match v with
  | JArr vs => vs
  | _ => [v]
  end.

Definition author_of (author : JsVal) : list JsVal :=
  if Normalize.is_object author then
    let persName := Js.oprop author "persName" in
    if Js.truthy persName then
      let forename := extractText (Js.oprop persName "forename") in
      let surname := extractText (Js.oprop persName "surname") in
      if Js.truthy surname || Js.truthy forename
      then [JObj [("family", surname); ("given", forename)]]
      else []
    else
      let name := extractText author in
      if Js.truthy name then [JObj [("literal", name)]] else []
  else [].

Definition extractAuthors (authorElement : JsVal) : list JsVal :=
  if negb (Js.truthy authorElement) then []
  else flat_map author_of (as_list authorElement).

(** The [switch] on [type.toUpperCase()]. *)
Definition identifier_field (type : str) : option str :=
  let t := Str.toUpperCase type in
  if str_eqb t "DOI" then Some "DOI"
  else if str_eqb t "PMID" then Some "PMID"
  else if str_eqb t "PMCID" then Some "PMCID"
  else if str_eqb t "ISSN" then Some "ISSN"
  else if str_eqb t "ISBN" then Some "ISBN"
  else None.

(** One turn of the loop of [extractIdentifiers]. *)
Definition add_identifier (item : obj) (id : JsVal) : option obj :=
  if Normalize.is_object id then
    let type := Js.oprop id "@_type" in
    let value := extractText id in
    if negb (Js.truthy type) || negb (Js.truthy value) then Some item
    else
      match type with
      | JStr t =>
          match identifier_field t with
          | Some f => Some (Obj.set item f value)
          | None => Some item
          end
      | _ => None
      end
  else Some item.

Fixpoint add_identifiers (item : obj) (ids : list JsVal) : option obj :=
  match ids with
  | [] => Some item
  | id :: r =>
      match add_identifier item id with
      | Some item' => add_identifiers item' r
      | None => None
      end
  end.

(** [extractIdentifiers(obj, item)], for [obj] not [null] or
    [undefined]. *)
Definition extractIdentifiers (o : JsVal) (item : obj) : option obj :=
  let idno := Js.oprop o "idno" in
  if negb (Js.truthy idno) then Some item
  else add_identifiers item (as_list idno).

(** [if (v) item[k] = v] *)
Definition set_if (item : obj) (k : str) (v : JsVal) : obj :=
  if Js.truthy v then Obj.set item k v else item.

Definition set_authors (item : obj) (authors : list JsVal) : obj :=
  match authors with
  | [] => item
  | _ => Obj.set item "author" (JArr authors)
  end.

(** [typeof date === 'string' ? date : date['@_when'] || date['#text']],
    for a truthy [date]. *)
Definition year_of (date : JsVal) : JsVal :=
  match date with
  | JStr _ => date
  | _ =>
      let w := Js.oprop date "@_when" in
      if Js.truthy w then w else Js.oprop date "#text"
  end.

(** The [issued] date from [imprint.date]. *)
Definition set_date (item : obj) (date : JsVal) : option obj :=
  if Js.truthy date then
    let year := year_of date in
    if Js.truthy year then
      match year with
      | JStr y =>
          match Str.parseInt10 (firstn 4 y) with
          | Some yearNum =>
              Some (Obj.set item "issued"
                      (JObj [("date-parts", JArr [JArr [JNum yearNum]])]))
          | None => Some item
          end
      | _ => None
      end
    else Some item
  else Some item.

Definition from_imprint (item : obj) (imprint : JsVal) : option obj :=
  if Js.truthy imprint then
    let biblScope := Js.oprop imprint "biblScope" in
    match extractTextOf biblScope "volume" with
    | None => None
    | Some volume =>
        let item1 := set_if item "volume" volume in
        match extractTextOf biblScope "issue" with
        | None => None
        | Some issue =>
            let item2 := set_if item1 "issue" issue in
            match extractTextOf biblScope "page" with
            | None => None
            | Some pages =>
                let item3 := set_if item2 "page" pages in
                match set_date item3 (Js.oprop imprint "date") with
                | None => None
                | Some item4 =>
                    Some (set_if item4 "publisher"
                            (extractText (Js.oprop imprint "publisher")))
                end
            end
        end
    end
  else Some item.

Definition from_analytic (item : obj) (analytic : JsVal) : option obj :=
  if Js.truthy analytic then
    let item1 := set_if item "title" (extractText (Js.oprop analytic "title")) in
    let item2 :=
      set_authors item1 (extractAuthors (Js.oprop analytic "author")) in
    extractIdentifiers analytic item2
  else Some item.

Definition from_monogr (item : obj) (monogr : JsVal) : option obj :=
  if Js.truthy monogr then
    let containerTitle := extractText (Js.oprop monogr "title") in
    let item1 := set_if item "container-title" containerTitle in
    let item2 :=
      if negb (Js.truthy (Obj.get item1 "title"))
      then Obj.set (Obj.set item1 "title" containerTitle) "type" (JStr "book")
      else item1 in
    match from_imprint item2 (Js.oprop monogr "imprint") with
    | None => None
    | Some item3 =>
        let item4 :=
          if negb (Js.truthy (Obj.get item3 "author"))
          then set_authors item3 (extractAuthors (Js.oprop monogr "author"))
          else item3 in
        extractIdentifiers monogr item4
    end
  else Some item.

(** [biblStructToCsl(bibl)]: [Some None] for [null], [None] for a
    TypeError. *)
Definition biblStructToCsl (bibl : JsVal) : option (option obj) :=
  if Normalize.is_object bibl then
    let item := [("type", JStr "article-journal")] in
    match from_analytic item (Js.oprop bibl "analytic") with
    | None => None
    | Some item1 =>
        match from_monogr item1 (Js.oprop bibl "monogr") with
        | None => None
        | Some item2 =>
            match extractIdentifiers bibl item2 with
            | None => None
            | Some item3 =>
                if negb (Js.truthy (Obj.get item3 "title")) then Some None
                else Some (Some item3)
            end
        end
    end
  else Some None.

(** [findElements(node, name)] *)
Fixpoint findElements (name : str) (node : JsVal) : list JsVal :=
  match node with
  | JObj o =>
      (match Obj.lookup name o with
       | Some value => as_list value
       | None => []
       end)
      ++ (fix each (l : list (str * JsVal)) : list JsVal :=
            match l with
            | [] => []
            | (_, value) :: r =>
                (match value with
                 | JArr items =>
                     (fix all (l' : list JsVal) : list JsVal :=
                        match l' with
                        | [] => []
                        | x :: r' => findElements name x ++ all r'
                        end) items
                 | JObj _ => findElements name value
                 | _ => []
                 end) ++ each r
            end) o
  | JArr vs =>
      (fix each (l : list JsVal) : list JsVal :=
         match l with
         | [] => []
         | value :: r =>
             (match value with
              | JArr items =>
                  (fix all (l' : list JsVal) : list JsVal :=
                     match l' with
                     | [] => []
                     | x :: r' => findElements name x ++ all r'
                     end) items
              | JObj _ => findElements name value
              | _ => []
              end) ++ each r
         end) vs
  | _ => []
  end.

(** The loop of [parseTeiToCsl] over the entries found. *)
Fixpoint refs_of (biblStructs : list JsVal) (sourceFile : str)
  : option (list ExtractedRef) :=
  match biblStructs with
  | [] => Some []
  | bibl :: r =>
      match biblStructToCsl bibl, refs_of r sourceFile with
      | Some (Some item), Some refs =>
          Some (mkRef item PdfGrobid sourceFile bibl :: refs)
      | Some None, Some refs => Some refs
      | _, _ => None
      end
  end.

(** [parseTeiToCsl] on the parsed document. *)
Definition parseTeiToCsl (doc : JsVal) (sourceFile : str)
  : option (list ExtractedRef) :=
  refs_of (findElements "biblStruct" doc) sourceFile.

(** What [extractText] returns: [undefined] or a trimmed string. *)
Definition text_result (v : JsVal) : Prop :=
  v = JUndef \/ exists s, v = JStr (Str.trim s).

(** The references of [extractFromPdf], from the parsed answer of the
    service ([None] for an answer that is empty or that the XML parser
    refuses); [None] when it throws. *)
Definition extractFromPdf (tei : option JsVal) (filePath : str)
  : option (list ExtractedRef) :=
  match tei with
  | None => Some []
  | Some doc => parseTeiToCsl doc filePath
  end.

End Pdf.

(** ** cli.ts: the run over a batch of input files *)

Module Cli.

(** What an input file holds once the archive reader, the external service
    and the XML parser have done their part: the parsed parts of a Word
    archive, the parsed answer of the service for a PDF, or nothing for a
    file that is skipped or cannot be read. *)
Inductive Content : Type :=
| DocxParts (xmlEntries : list (option JsVal))
| PdfTei (tei : option JsVal)
| Skipped.

Definition File : Type := (str * Content)%type.

Definition is_docx (file : File) : bool :=
  match snd file with
  | DocxParts _ => true
  | _ => false
  end.

Section Run.

Variable ZoteroCitationSchema : JsVal -> option JsVal.
Variable CslItemSchema : JsVal -> option obj.
Variable localeCompare : str -> str -> comparison.

(** The body of the [try] in the loop over the files; [None] when it
    throws. *)
Definition extract (file : File) : option (list ExtractedRef) :=
  match snd file with
  | DocxParts xmlEntries =>
      Docx.extractFromDocx ZoteroCitationSchema CslItemSchema xmlEntries
        (fst file)
  | PdfTei tei => Pdf.extractFromPdf tei (fst file)
  | Skipped => None
  end.

(** [allRefs] after the loop: a file that throws contributes nothing. *)
Definition allRefs (files : list File) : list ExtractedRef :=
  flat_map (fun file =>
              match extract file with
              | Some refs => refs
              | None => []
              end) files.

(** [result.items], the list handed to the converter; [None] when
    [normalizeRefs] throws. *)
Definition items (files : list File) : option (list obj) :=
  match Normalize.normalizeRefs localeCompare (allRefs files) with
  | Some (sorted, _) => Some sorted
  | None => None
  end.

(** A record that passed the DOCX path: its citation item has a payload
    that passed the item schema or has a non-empty [type]. *)
Definition accepted (ref : ExtractedRef) : Prop :=
  let itemData := Js.oprop (rawData ref) "itemData" in
  Js.truthy itemData = true /\
  (CslItemSchema itemData = Some (item ref) \/
   (itemData = JObj (item ref) /\
    Js.truthy (Obj.get (item ref) "type") = true)).

End Run.

(** A title that is not blank. *)
Definition has_title (it : obj) : Prop :=
  exists t, Obj.get it "title" = JStr t /\ Str.trim t <> [].

(** A non-empty title without white space around it. *)
Definition titled (it : obj) : Prop :=
  exists t, Obj.get it "title" = JStr t /\ t <> [] /\ Str.trim t = t.

Definition identifiers : list str :=
  ["DOI"; "ISBN"; "ISSN"; "PMID"; "PMCID"; "URL"].

(** A non-empty title or at least one identifier. *)
Definition viable (it : obj) : bool :=
  negb (Js.is_empty (Obj.get it "title"))
  || existsb (fun k => negb (Js.is_empty (Obj.get it k))) identifiers.

(** A Word part with the field instructions [texts], one per run. *)
Definition part_with (texts : list str) : option JsVal :=
  Some (JObj [("w:document", JObj [("w:body", JObj [("w:p", JObj [("w:r",
    JArr (map (fun t =>
                 JObj [("w:instrText",
                        JObj [("#text", JStr t);
                              ("@_xml:space", JStr "preserve")])])
              texts))])])])]).

(** A field instruction holding [citation]. *)
Definition field_of (citation : JsVal) : str :=
  " ADDIN ZOTERO_ITEM CSL_CITATION " ++ Json.stringify false citation ++ " ".

(** A citation of one item whose payload has a [type] and nothing else. *)
Definition bare_citation : JsVal :=
  JObj [("citationItems",
         JArr [JObj [("itemData", JObj [("type", JStr "book")])]])].

(** The same with a numeric [citationID], which the citation schema
    refuses. *)
Definition draft_citation : JsVal :=
  JObj [("citationID", JNum 7);
        ("citationItems",
         JArr [JObj [("itemData", JObj [("type", JStr "book")])]])].

Definition bare_docx : File :=
  ("bare.docx", DocxParts [part_with [field_of bare_citation]]).

Definition draft_docx : File :=
  ("draft.docx", DocxParts [part_with [field_of draft_citation]]).

(** A Word file citing a record with a title, and the answer of the
    service for a PDF with two entries, the second without any title. *)
Definition paper_docx : File :=
  ("paper.docx",
   DocxParts
     [part_with
        [field_of
           (JObj [("citationItems",
                   JArr [JObj [("id", JNum 1);
                               ("itemData", JObj Examples.sampleItem)]])])]]).

Definition paper_pdf : File :=
  ("paper.pdf",
   PdfTei (Some (JObj [("TEI", JObj [("text", JObj [("listBibl", JObj
     [("biblStruct",
       JArr [JObj [("analytic",
                    JObj [("title",
                           JObj [("#text", JStr " Deep Learning ");
                                 ("@_level", JStr "a")]);
                          ("author",
                           JObj [("persName",
                                  JObj [("forename", JStr "Yann");
                                        ("surname", JStr "LeCun")])]);
                          ("idno",
                           JObj [("#text", JStr "10.1038/nature14539");
                                 ("@_type", JStr "DOI")])]);
                   ("monogr",
                    JObj [("title", JStr "Nature");
                          ("imprint",
                           JObj [("date",
                                  JObj [("@_when", JStr "2015-05-28")])])])];
             JObj [("monogr",
                    JObj [("imprint",
                           JObj [("publisher", JStr "Press")])])]])])])])]))).

End Cli.

(** ** Sample data *)

Module Samples.

Definition ref_of (it : obj) : ExtractedRef :=
  mkRef it DocxCitation "paper.docx" JUndef.

(** The sample article again, cited by its DOI in upper case and with a
    page range. *)
Definition sampleAgain : obj :=
  [("type", JStr "article-journal");
   ("DOI", JStr "10.1234/TEST.2023.001");
   ("page", JStr "1-10")].

(** Three citations, the first and the last of the same work. *)
Definition cited : list ExtractedRef :=
  [ref_of Examples.sampleItem; ref_of Examples.greatBook; ref_of sampleAgain].

End Samples.

(** ** Shapes of strings *)

(** An upper-case letter followed by lower-case letters, [[A-Z][a-z]*]. *)
Definition capitalized_word (s : str) : Prop :=
  exists c r, s = c :: r /\ Char.is_AZ c = true /\ forallb Char.is_az r = true.

(** ** Spans that close braces *)

(** Text that closes [d] open braces, the last one with its last
    character: [d] balanced spans, each followed by a closing brace. *)
Fixpoint closing (d : nat) (s : str) : Prop :=
  match d with
  | 0 => s = []
  | S d' =>
      exists b s',
        Docx.balanced b /\ s = b ++ "}"%char :: s' /\ closing d' s'
  end.

(** ** The fields that the TEI conversion writes *)

Definition identifier_fields : list str :=
  ["DOI"; "PMID"; "PMCID"; "ISSN"; "ISBN"].

(** The fields written after the titles and the type are settled. *)
Definition late_fields : list str :=
  ["author"; "volume"; "issue"; "page"; "issued"; "publisher"]
  ++ identifier_fields.

(** A TEI entry: an article in a journal. *)
Definition tei_article : JsVal :=
  JObj [("analytic",
         JObj [("title", JObj [("#text", JStr " Deep Learning ");
                               ("@_level", JStr "a")]);
               ("author",
                JObj [("persName",
                       JObj [("forename", JStr "Yann");
                             ("surname", JStr "LeCun")])]);
               ("idno",
                JArr [JObj [("#text", JStr " 10.1038/nature14539 ");
                            ("@_type", JStr "doi")];
                      JObj [("#text", JStr "27");
                            ("@_type", JStr "arXiv")]])]);
        ("monogr",
         JObj [("title", JStr "Nature");
               ("imprint",
                JObj [("date", JObj [("@_when", JStr "2015-05-28")])])])].

(** A TEI entry with a monograph title only. *)
Definition tei_book : JsVal :=
  JObj [("monogr",
         JObj [("title", JStr " The Art of Proof ");
               ("author", JObj [("#text", JStr "M. Beck")]);
               ("imprint", JObj [("publisher", JStr "Springer")])])].

(** ** The item schema, field by field *)

Definition in_fields (f : str) (fields : list str) : bool :=
  existsb (str_eqb f) fields.

(** What [CslItemSchema] asks of the value [v] of the field [f]; a field
    that the schema does not declare is unconstrained. *)
Definition field_ok (f : str) (v : JsVal) : bool :=
  (if str_eqb f "type"
   then match v with JStr _ => true | _ => false end else true) &&
  (if in_fields f ["id"; "volume"; "issue"; "number-of-pages"; "edition"]
   then Types.opt_string_or_number v else true) &&
  (if in_fields f
        ["DOI"; "ISBN"; "ISSN"; "PMID"; "PMCID"; "URL";
         "title"; "title-short"; "container-title"; "container-title-short";
         "collection-title"; "page"; "page-first"; "publisher";
         "publisher-place"; "abstract"; "language"; "note"; "keyword";
         "citation-key"; "citation-label"]
   then Types.opt_string v else true) &&
  (if in_fields f
        ["author"; "editor"; "translator"; "collection-editor";
         "container-author"]
   then Types.opt_names v else true) &&
  (if in_fields f ["issued"; "accessed"; "event-date"; "submitted"]
   then Types.opt_CslDate v else true).

(** A record that the relaxed fallback accepts: a [type] and a numeric
    [DOI]. *)
Definition numeric_doi_citation : JsVal :=
  JObj [("citationID", JNum 7);
        ("citationItems",
         JArr [JObj [("itemData",
                      JObj [("type", JStr "book"); ("DOI", JNum 101234)])]])].

Definition numeric_doi_docx : Cli.File :=
  ("draft.docx",
   Cli.DocxParts [Cli.part_with [Cli.field_of numeric_doi_citation]]).

(** ** The nodes that the recursive searches visit *)

(** What the search goes into from a property value or an array element
    [v]: [v] itself when it is an object, its elements when it is an
    array. *)
Definition entered (v c : JsVal) : Prop :=
  match v with
  | JObj _ => c = v
  | JArr items => In c items
  | _ => False
  end.

(** [c] is visited directly from the node [n]. *)
Definition child (n c : JsVal) : Prop :=
  match n with
  | JObj o => exists k v, In (k, v) o /\ entered v c
  | JArr vs => exists v, In v vs /\ entered v c
  | _ => False
  end.

(** [c] is visited in the search that starts at [n]. *)
Inductive visited (n : JsVal) : JsVal -> Prop :=
| visited_start : visited n n
| visited_step m c : visited n m -> child m c -> visited n c.

(** ** Collations *)

Module Collation.

(** Strings of lower-case letters and digits.  The author and the title
    sort keys are such strings; so is a year that is a number not below
    zero, a run of four digits, or the literal [unknown]. *)
Definition plain (s : str) : bool := forallb Char.is_alnum_lower s.

(** Sort keys that are plain. *)
Definition plain_key (k : str * str * str) : Prop :=
  let '(a, y, t) := k in plain a = true /\ plain y = true /\ plain t = true.

(** A collation that is [lc] on plain strings, puts plain strings before
    the others, and compares the others by code units. *)
Definition extend (lc : str -> str -> comparison) (a b : str) : comparison :=
  match plain a, plain b with
  | true, true => lc a b
  | true, false => Lt
  | false, true => Gt
  | false, false => codeunit_compare a b
  end.

(** U+00AD SOFT HYPHEN: the Unicode collation algorithm, which
    [localeCompare] follows on the host, ignores it. *)
Definition soft_hyphen : ascii := ascii_of_nat 173.

Definition ignorable (c : ascii) : bool := Ascii.eqb c soft_hyphen.

(** A collation that ignores soft hyphens. *)
Definition ignoring_compare (a b : str) : comparison :=
  codeunit_compare (filter (fun c => negb (ignorable c)) a)
    (filter (fun c => negb (ignorable c)) b).

(** A book with a title and a year given as a string. *)
Definition dated (title year : str) : obj :=
  [("type", JStr "book");
   ("title", JStr title);
   ("issued", JObj [("date-parts", JArr [JArr [JStr year]])])].

End Collation.
(** * Properties *)

(** ** Strings and objects *)

Lemma str_eqb_eq a b : str_eqb a b = true <-> a = b.
Proof. unfold str_eqb; destruct (list_eq_dec ascii_dec a b); split; congruence. Qed.

Lemma str_eqb_refl a : str_eqb a a = true.
Proof. now apply str_eqb_eq. Qed.

Lemma str_eqb_neq a b : str_eqb a b = false <-> a <> b.
Proof. unfold str_eqb; destruct (list_eq_dec ascii_dec a b); split; congruence. Qed.


Lemma get_set_same (o : obj) k v : Obj.get (Obj.set o k v) k = v.
Proof.
  unfold Obj.get. induction o as [|[k' v'] r IH]; simpl.
  - now rewrite str_eqb_refl.
  - destruct (str_eqb k k') eqn:E; simpl; rewrite E; auto.
Qed.

Lemma get_set_other (o : obj) k k' v :
  k <> k' -> Obj.get (Obj.set o k v) k' = Obj.get o k'.
Proof.
  intros Hk. unfold Obj.get. induction o as [|[k0 v0] r IH]; simpl.
  - destruct (str_eqb k' k) eqn:E; auto.
    apply str_eqb_eq in E; congruence.
  - destruct (str_eqb k k0) eqn:E; simpl.
    + apply str_eqb_eq in E; subst k0.
      destruct (str_eqb k' k) eqn:E'; auto.
      apply str_eqb_eq in E'; congruence.
    + destruct (str_eqb k' k0); auto.
Qed.

Lemma keys_set_in (o : obj) k v :
  In k (Obj.keys o) -> Obj.keys (Obj.set o k v) = Obj.keys o.
Proof.
  unfold Obj.keys. induction o as [|[k0 v0] r IH]; simpl; [tauto|].
  intros H. destruct (str_eqb k k0) eqn:E; simpl; auto.
  f_equal. apply IH. destruct H as [H|H]; auto.
  subst. now rewrite str_eqb_refl in E.
Qed.

Lemma keys_set_notin (o : obj) k v :
  ~ In k (Obj.keys o) -> Obj.keys (Obj.set o k v) = Obj.keys o ++ [k].
Proof.
  unfold Obj.keys. induction o as [|[k0 v0] r IH]; simpl; auto.
  intros H. destruct (str_eqb k k0) eqn:E; simpl.
  - apply str_eqb_eq in E. subst. tauto.
  - f_equal. apply IH. tauto.
Qed.

Lemma lookup_in (o : obj) k v : Obj.lookup k o = Some v -> In (k, v) o.
Proof.
  induction o as [|[k0 v0] r IH]; simpl; [discriminate|].
  destruct (str_eqb k k0) eqn:E.
  - apply str_eqb_eq in E. intros [= ->]. subst. auto.
  - auto.
Qed.

Lemma lookup_notin (o : obj) k : Obj.lookup k o = None <-> ~ In k (Obj.keys o).
Proof.
  unfold Obj.keys. induction o as [|[k0 v0] r IH]; simpl; [tauto|].
  destruct (str_eqb k k0) eqn:E.
  - apply str_eqb_eq in E. subst. split; [discriminate|tauto].
  - apply str_eqb_neq in E. rewrite IH. split; intros H; [intros [?|?]; auto; congruence | tauto].
Qed.

Lemma in_wf_lookup (o : obj) k v :
  Obj.wf o -> In (k, v) o -> Obj.lookup k o = Some v.
Proof.
  unfold Obj.wf, Obj.keys. induction o as [|[k0 v0] r IH]; simpl; [tauto|].
  intros Hnd [H|H].
  - inversion H; subst. now rewrite str_eqb_refl.
  - inversion Hnd; subst. destruct (str_eqb k k0) eqn:E.
    + apply str_eqb_eq in E. subst. exfalso. apply H2.
      change k0 with (fst (k0, v)). now apply in_map.
    + auto.
Qed.

Lemma toLowerCase_app a b :
  Str.toLowerCase (a ++ b) = Str.toLowerCase a ++ Str.toLowerCase b.
Proof. apply map_app. Qed.

Lemma strip_prefix_app p s : Str.strip_prefix p (p ++ s) = Some s.
Proof.
  induction p; simpl; auto. now rewrite Ascii.eqb_refl.
Qed.

Lemma strip_prefix_inv p s r : Str.strip_prefix p s = Some r -> s = p ++ r.
Proof.
  revert s; induction p as [|a p IH]; simpl; intros s.
  - now intros [= ->].
  - destruct s as [|b s]; [discriminate|].
    destruct (Ascii.eqb a b) eqn:E; [|discriminate].
    apply Ascii.eqb_eq in E. subst. intros H. f_equal. auto.
Qed.

(** Induction on values, through arrays and objects. *)
Lemma JsVal_induction (P : JsVal -> Prop) :
  P JUndef -> P JNull -> (forall b, P (JBool b)) -> (forall n, P (JNum n)) ->
  (forall s, P (JStr s)) ->
  (forall vs, Forall P vs -> P (JArr vs)) ->
  (forall kvs, Forall (fun kv => P (snd kv)) kvs -> P (JObj kvs)) ->
  forall v, P v.
Proof.
  intros HU HN HB HZ HS HA HO.
  fix IH 1. intros [| |b|n|s|vs|kvs].
  - exact HU.
  - exact HN.
  - apply HB.
  - apply HZ.
  - apply HS.
  - apply HA. induction vs as [|x r IHr]; constructor; [apply IH | exact IHr].
  - apply HO. induction kvs as [|[k x] r IHr]; constructor;
      [apply IH | exact IHr].
Qed.

(** ** Deduplication keys *)

Section DedupeKey.
Import Normalize.

Lemma unprefixed_strip d :
  unprefixed d = true ->
  Str.strip_first doi_url_prefixes d = d /\ Str.strip_first ["doi:"] d = d.
Proof.
  unfold unprefixed, doi_prefixes, doi_url_prefixes, Str.startsWith.
  cbn [forallb app Str.strip_first].
  repeat match goal with
  | |- context [Str.strip_prefix ?p d] => destruct (Str.strip_prefix p d)
  end; cbn; intros H; try discriminate; auto.
Qed.

Lemma normalizeDoi_lower d d' :
  Str.toLowerCase d' = Str.toLowerCase d -> normalizeDoi d' = normalizeDoi d.
Proof. unfold normalizeDoi. now intros ->. Qed.

Lemma normalizeDoi_prefixed d p d' :
  In (Str.toLowerCase p) doi_prefixes ->
  unprefixed (Str.toLowerCase d) = true ->
  Str.toLowerCase d' = Str.toLowerCase p ++ Str.toLowerCase d ->
  normalizeDoi d' = normalizeDoi d.
Proof.
  intros Hp Hu He. unfold normalizeDoi. rewrite He.
  destruct (unprefixed_strip _ Hu) as [H1 H2]. rewrite H1, H2.
  unfold doi_prefixes, doi_url_prefixes in Hp. cbn [app In] in Hp.
  destruct Hp as [<-|[<-|[<-|[<-|[<-|[]]]]]].
  1-4: match goal with
       | |- context [Str.strip_first doi_url_prefixes (?P ++ ?L)] =>
           replace (Str.strip_first doi_url_prefixes (P ++ L)) with L
             by reflexivity
       end; now rewrite H2.
  reflexivity.
Qed.

Lemma truthy_str s : s <> [] -> Js.truthy (JStr s) = true.
Proof. destruct s; simpl; congruence. Qed.

(** C2 (amended): a record whose DOI is a non-empty string gets the key
    ["doi:" ++ normalizeDoi DOI] whatever its other fields (the URL
    included); and a record that differs from it only in the letter case of
    the DOI, or in one of the prefixes [https://doi.org/],
    [http://doi.org/], [https://dx.doi.org/], [http://dx.doi.org/], [doi:]
    (in any letter case) put before a DOI that does not itself start with
    such a prefix, gets the same key. *)
Theorem generateDedupeKey_doi_priority (item : obj) (d p d' : str) :
  Obj.get item "DOI" = JStr d ->
  d <> [] ->
  p = [] \/
  (In (Str.toLowerCase p) doi_prefixes /\
   unprefixed (Str.toLowerCase d) = true) ->
  Str.toLowerCase d' = Str.toLowerCase p ++ Str.toLowerCase d ->
  generateDedupeKey item = Some ("doi:" ++ normalizeDoi d) /\
  generateDedupeKey (Obj.set item "DOI" (JStr d')) =
    Some ("doi:" ++ normalizeDoi d).
Proof.
  intros Hd Hne Hp He. split.
  - unfold generateDedupeKey. rewrite Hd, truthy_str by assumption.
    reflexivity.
  - unfold generateDedupeKey. rewrite get_set_same.
    assert (Hne' : d' <> []).
    { intros ->. destruct d; [congruence|].
      destruct (Str.toLowerCase p); discriminate. }
    rewrite truthy_str by assumption. cbn [as_str]. do 2 f_equal.
    destruct Hp as [-> | [Hp Hu]].
    + now apply normalizeDoi_lower.
    + eapply normalizeDoi_prefixed; eauto.
Qed.

Lemma generateDedupeKey_doi_priority_witness :
  let item := [("type", JStr "article-journal");
               ("DOI", JStr "10.1234/TEST.001");
               ("URL", JStr "https://example.com/article")] in
  generateDedupeKey item = Some "doi:10.1234/test.001" /\
  generateDedupeKey
    (Obj.set item "DOI" (JStr "https://doi.org/10.1234/test.001")) =
    Some "doi:10.1234/test.001".
Proof.
  intros item.
  apply (@generateDedupeKey_doi_priority item "10.1234/TEST.001"
           "https://doi.org/" "https://doi.org/10.1234/test.001").
  - reflexivity.
  - discriminate.
  - right. split; [right; left; reflexivity | reflexivity].
  - reflexivity.
Defined.

(** C2, as stated, fails: the two prefixes do not compose.  A record whose
    DOI is [https://doi.org/10.1234/x] and the record that differs from it
    only in a [doi:] prefix before that DOI get different keys. *)
Lemma generateDedupeKey_prefix_counterexample :
  let a := [("type", JStr "article-journal");
            ("DOI", JStr "https://doi.org/10.1234/x")] in
  let b := [("type", JStr "article-journal");
            ("DOI", JStr ("doi:" ++ "https://doi.org/10.1234/x"))] in
  generateDedupeKey a = Some "doi:10.1234/x" /\
  generateDedupeKey b = Some "doi:https://doi.org/10.1234/x" /\
  generateDedupeKey a <> generateDedupeKey b.
Proof. cbv zeta. repeat split; try reflexivity. discriminate. Qed.

End DedupeKey.

(** ** Merging duplicates *)

Section Merge.
Import Normalize.

Lemma get_cons_same k v (o : obj) : Obj.get ((k, v) :: o) k = v.
Proof. unfold Obj.get; simpl. now rewrite str_eqb_refl. Qed.

Lemma get_cons_other k k' v (o : obj) :
  k <> k' -> Obj.get ((k, v) :: o) k' = Obj.get o k'.
Proof.
  intros H. unfold Obj.get; simpl.
  destruct (str_eqb k' k) eqn:E; auto.
  apply str_eqb_eq in E; congruence.
Qed.

Lemma get_absent (o : obj) k : ~ In k (Obj.keys o) -> Obj.get o k = JUndef.
Proof.
  intros H. apply lookup_notin in H. unfold Obj.get. now rewrite H.
Qed.

Lemma lookup_set_other (o : obj) k k' v :
  k <> k' -> Obj.lookup k' (Obj.set o k v) = Obj.lookup k' o.
Proof.
  intros Hk. induction o as [|[k0 v0] r IH]; simpl.
  - destruct (str_eqb k' k) eqn:E; auto.
    apply str_eqb_eq in E; congruence.
  - destruct (str_eqb k k0) eqn:E; simpl.
    + apply str_eqb_eq in E; subst k0.
      destruct (str_eqb k' k) eqn:E'; auto.
      apply str_eqb_eq in E'; congruence.
    + destruct (str_eqb k' k0); auto.
Qed.

(** A field that is not empty is found not empty by the read through the
    prototype. *)
Lemma target_empty_get target k :
  target_empty target k = true -> Js.is_empty (Obj.get target k) = true.
Proof.
  unfold target_empty, Obj.get. destruct (Obj.lookup k target); auto.
Qed.

Lemma target_empty_own target k :
  Obj.inherited k = false ->
  target_empty target k = Js.is_empty (Obj.get target k).
Proof.
  unfold target_empty, Obj.get. intros ->.
  destruct (Obj.lookup k target); auto.
Qed.

Lemma merge_field_same target k v :
  Obj.get (merge_field target (k, v)) k =
    if target_empty target k && negb (Js.is_empty v)
    then v else Obj.get target k.
Proof.
  unfold merge_field.
  destruct (Js.is_empty v), (target_empty target k); simpl; auto.
  apply get_set_same.
Qed.

Lemma merge_field_other target k v k' :
  k <> k' -> Obj.get (merge_field target (k, v)) k' = Obj.get target k'.
Proof.
  intros H. unfold merge_field.
  destruct (Js.is_empty v), (target_empty target k); simpl; auto.
  now apply get_set_other.
Qed.

Lemma merge_field_empty_other target k v k' :
  k <> k' ->
  target_empty (merge_field target (k, v)) k' = target_empty target k'.
Proof.
  intros H. unfold merge_field.
  destruct (Js.is_empty v), (target_empty target k); simpl; auto.
  unfold target_empty. now rewrite lookup_set_other.
Qed.

(** The value of every field after a merge. *)
Lemma mergeItems_get (source target : obj) k :
  Obj.wf source ->
  Obj.get (mergeItems target source) k =
    if target_empty target k && negb (Js.is_empty (Obj.get source k))
    then Obj.get source k else Obj.get target k.
Proof.
  unfold mergeItems, Obj.wf, Obj.keys.
  revert target. induction source as [|[k0 v0] src IH]; intros target Hnd.
  - simpl. unfold Obj.get at 2; simpl. now rewrite andb_false_r.
  - inversion Hnd as [|? ? Hnotin Hnd']; subst. cbn [fold_left].
    rewrite IH by assumption.
    destruct (list_eq_dec ascii_dec k0 k) as [->|Hne].
    + rewrite get_cons_same, (get_absent src) by exact Hnotin.
      cbn [Js.is_empty negb]. rewrite andb_false_r.
      apply merge_field_same.
    + rewrite get_cons_other, merge_field_other,
        merge_field_empty_other by assumption.
      reflexivity.
Qed.

(** The record stored under [key] is the one that is merged into. *)
Lemma seen_merge_get key source seen target :
  seen_get key seen = Some target ->
  seen_get key (seen_merge key source seen) = Some (mergeItems target source).
Proof.
  induction seen as [|[k v] r IH]; simpl; [discriminate|].
  destruct (str_eqb key k) eqn:E; simpl; rewrite E; auto.
  now intros [= ->].
Qed.

Lemma seen_merge_values key source seen target :
  seen = [(key, target)] ->
  map snd (seen_merge key source seen) = [mergeItems target source].
Proof. intros ->. simpl. now rewrite str_eqb_refl. Qed.

(** C3: merging a duplicate [B] into the canonical record [A] leaves every
    field of [A] that is not absent, [null] or the empty string unchanged;
    a field of the merged record that differs from the field of [A] was
    absent, [null] or the empty string in [A], and its new value is the
    field of [B], which is not empty.  Such a gap is filled whenever the
    read [A[key]] finds it empty, that is, unless [A] lacks the property
    and inherits a member of [Object.prototype] under that name; in that
    case, and when the field of [B] is empty, the field of [A] stays as it
    is.  This is the merge [deduplicateItems] performs on a duplicate: two
    records with the same key are reduced to the first one merged with the
    second, counted as one duplicate removed. *)
Theorem mergeItems_non_destructive (A B : obj) (k : str) :
  Obj.wf B ->
  (Js.is_empty (Obj.get A k) = false ->
     Obj.get (mergeItems A B) k = Obj.get A k) /\
  (Obj.get (mergeItems A B) k <> Obj.get A k ->
     Js.is_empty (Obj.get A k) = true /\
     Js.is_empty (Obj.get B k) = false /\
     Obj.get (mergeItems A B) k = Obj.get B k) /\
  (Js.is_empty (Obj.get A k) = true ->
   Js.is_empty (Obj.get B k) = false ->
   (Obj.inherited k = false \/ In k (Obj.keys A)) ->
     Obj.get (mergeItems A B) k = Obj.get B k) /\
  (Js.is_empty (Obj.get B k) = true \/
   (Obj.inherited k = true /\ ~ In k (Obj.keys A)) ->
     Obj.get (mergeItems A B) k = Obj.get A k) /\
  (forall ra rb key,
     item ra = A -> item rb = B ->
     generateDedupeKey A = Some key -> generateDedupeKey B = Some key ->
     deduplicateItems [ra; rb] = Some ([mergeItems A B], 1)).
Proof.
  intros Hwf.
  pose proof (@mergeItems_get B A k Hwf) as Hget.
  assert (Hte : target_empty A k = true -> Js.is_empty (Obj.get A k) = true)
    by apply target_empty_get.
  split; [|split; [|split; [|split]]].
  - intros H. rewrite Hget.
    destruct (target_empty A k); [|reflexivity].
    rewrite Hte in H by reflexivity. discriminate.
  - intros H. rewrite Hget in *.
    destruct (target_empty A k); [|cbn in H; congruence].
    destruct (Js.is_empty (Obj.get B k)); cbn in *; [congruence|].
    auto.
  - intros H1 H2 H3. rewrite Hget, H2.
    replace (target_empty A k) with true; [reflexivity|].
    unfold target_empty, Obj.get in *.
    destruct (Obj.lookup k A) eqn:E; [now rewrite H1|].
    destruct H3 as [->|H3]; [reflexivity|].
    apply lookup_notin in E. contradiction.
  - intros [H|[H1 H2]]; rewrite Hget.
    + rewrite H. now rewrite andb_false_r.
    + replace (target_empty A k) with false; [reflexivity|].
      unfold target_empty. apply lookup_notin in H2. now rewrite H2, H1.
  - intros ra rb key <- <- Ha Hb. unfold deduplicateItems.
    cbn [dedupe_loop]. rewrite Ha, Hb. cbn [seen_get app].
    rewrite str_eqb_refl. cbn [seen_merge]. rewrite str_eqb_refl.
    reflexivity.
Qed.

Lemma mergeItems_non_destructive_witness :
  let A := [("type", JStr "article-journal"); ("title", JStr "Article");
            ("volume", JStr []); ("DOI", JStr "10.1234/merge")] in
  let B := [("type", JStr "book"); ("title", JStr "Article (variant)");
            ("DOI", JStr "10.1234/merge"); ("volume", JStr "42");
            ("page", JStr "1-10"); ("note", JNull);
            ("constructor", JStr "x")] in
  Obj.get (mergeItems A B) "title" = JStr "Article" /\
  Obj.get (mergeItems A B) "volume" = JStr "42" /\
  Obj.get (mergeItems A B) "page" = JStr "1-10" /\
  Obj.get (mergeItems A B) "note" = JUndef /\
  Obj.get (mergeItems A B) "constructor" = JUndef.
Proof.
  intros A B.
  assert (Hwf : Obj.wf B).
  { unfold Obj.wf, B. simpl.
    repeat (constructor; [simpl; intuition discriminate|]). constructor. }
  pose proof (@mergeItems_non_destructive A B "title" Hwf) as Ht.
  pose proof (@mergeItems_non_destructive A B "volume" Hwf) as Hv.
  pose proof (@mergeItems_non_destructive A B "page" Hwf) as Hp.
  pose proof (@mergeItems_non_destructive A B "note" Hwf) as Hn.
  pose proof (@mergeItems_non_destructive A B "constructor" Hwf) as Hc.
  split; [|split; [|split; [|split]]].
  - apply (proj1 Ht). reflexivity.
  - apply (proj1 (proj2 (proj2 Hv))); [reflexivity|reflexivity|].
    right. right. right. left. reflexivity.
  - apply (proj1 (proj2 (proj2 Hp))); [reflexivity|reflexivity|].
    left. reflexivity.
  - rewrite (proj1 (proj2 (proj2 (proj2 Hn)))); [reflexivity|].
    left. reflexivity.
  - rewrite (proj1 (proj2 (proj2 (proj2 Hc)))); [reflexivity|].
    right. split; [reflexivity|].
    intros [H|[H|[H|[H|[]]]]]; discriminate H.
Defined.

(** A field of the duplicate that is named like a member of
    [Object.prototype] is not copied: the read [target[key]] finds the
    inherited member. *)
Example mergeItems_inherited_name :
  mergeItems [("type", JStr "book")] [("constructor", JStr "x")] =
    [("type", JStr "book")] /\
  mergeItems [("type", JStr "book"); ("constructor", JStr [])]
    [("constructor", JStr "x")] =
    [("type", JStr "book"); ("constructor", JStr "x")] /\
  mergeItems [("type", JStr "book")] [("note", JStr "x")] =
    [("type", JStr "book"); ("note", JStr "x")].
Proof. repeat split. Qed.

End Merge.

(** ** Trimming *)

Section Trim.
Import Normalize.

Lemma trimStart_split s :
  exists l, s = l ++ Str.trimStart s /\ forallb Char.is_ws l = true.
Proof.
  induction s as [|c s [l [Hs Hl]]]; simpl.
  - now exists [].
  - destruct (Char.is_ws c) eqn:E.
    + exists (c :: l). simpl. rewrite E, Hl. split; [now f_equal | reflexivity].
    + now exists [].
Qed.

Lemma trimStart_head s c :
  hd_error (Str.trimStart s) = Some c -> Char.is_ws c = false.
Proof.
  induction s as [|a s IH]; simpl; [discriminate|].
  destruct (Char.is_ws a) eqn:E; auto. simpl. now intros [= <-].
Qed.

Lemma forallb_rev (f : ascii -> bool) l : forallb f (rev l) = forallb f l.
Proof.
  induction l; simpl; auto.
  rewrite forallb_app, IHl. simpl. rewrite andb_true_r. apply andb_comm.
Qed.

Lemma trim_spec s : whitespace_trimmed s (Str.trim s).
Proof.
  unfold whitespace_trimmed, Str.trim, Str.trimEnd.
  destruct (trimStart_split s) as [l [Hs Hl]].
  destruct (trimStart_split (rev (Str.trimStart s))) as [r [Hr Hrws]].
  exists l, (rev r). repeat split.
  - rewrite <- rev_app_distr, <- Hr, rev_involutive. exact Hs.
  - exact Hl.
  - now rewrite forallb_rev.
  - intros c Hc. apply (trimStart_head s).
    apply (f_equal (@rev ascii)) in Hr.
    rewrite rev_involutive, rev_app_distr in Hr. rewrite Hr.
    destruct (rev (Str.trimStart (rev (Str.trimStart s)))); [discriminate|].
    exact Hc.
  - intros c. rewrite rev_involutive. apply trimStart_head.
Qed.

Lemma get_map_values (f : JsVal -> JsVal) (o : obj) k :
  f JUndef = JUndef ->
  Obj.get (map (fun kv => (fst kv, f (snd kv))) o) k = f (Obj.get o k).
Proof.
  intros Hf. unfold Obj.get.
  induction o as [|[k0 v0] r IH]; simpl; auto.
  destruct (str_eqb k k0); auto.
Qed.


Lemma get_assigned (o : obj) k :
  Obj.get (assigned o) k = if Obj.assignable k then Obj.get o k else JUndef.
Proof.
  unfold Obj.get, assigned, Obj.assignable.
  induction o as [|[k0 v0] r IH]; simpl.
  - now destruct (negb _).
  - destruct (str_eqb k0 "__proto__") eqn:E0; simpl.
    + apply str_eqb_eq in E0. subst k0.
      destruct (str_eqb k "__proto__") eqn:E; simpl in *; auto.
    + destruct (str_eqb k k0) eqn:E; auto.
      apply str_eqb_eq in E. subst k0. now rewrite E0.
Qed.


Lemma assigned_fixed (o : obj) :
  forallb Obj.assignable (Obj.keys o) = true -> assigned o = o.
Proof.
  unfold Obj.keys, assigned. induction o as [|[k0 v0] r IH]; simpl; auto.
  rewrite andb_true_iff. intros [-> H]. now rewrite IH.
Qed.

Lemma trimItem_get item k :
  Obj.assignable k = true ->
  Obj.get (trimItem item) k = trim_field (Obj.get item k).
Proof.
  intros Hk. unfold trimItem.
  rewrite get_map_values, get_assigned, Hk by reflexivity. reflexivity.
Qed.





End Trim.

(** ** Citation keys *)

Section CiteKey.
Import Normalize Types Convert.

Lemma CslItem_ok_fields item :
  CslItem_ok item = true ->
  opt_string (Obj.get item "title") = true /\
  opt_names (Obj.get item "author") = true /\
  opt_CslDate (Obj.get item "issued") = true /\
  opt_string (Obj.get item "DOI") = true /\
  opt_string (Obj.get item "URL") = true.
Proof.
  unfold CslItem_ok, fields_ok. cbn [forallb].
  rewrite !andb_true_iff. tauto.
Qed.

Lemma title_total v :
  opt_string v = true -> exists t, as_str (or_empty v) = Some t.
Proof.
  destruct v as [| | | |s| |]; try discriminate; intros _.
  - now exists [].
  - destruct s; [now exists [] | eexists; reflexivity].
Qed.

Lemma first_family_total first :
  CslName_ok first = true -> exists a, first_family first = Some a.
Proof.
  destruct first as [| | | | | |o]; try discriminate.
  unfold CslName_ok, fields_ok. cbn [forallb]. rewrite !andb_true_iff.
  intros (Hf & _ & Hl & _).
  unfold first_family, Js.oprop, Js.prop.
  destruct (Obj.get o "family") as [| | | |f| |]; try discriminate;
    cbn [Js.truthy].
  2: destruct f; [|eexists; reflexivity].
  all: destruct (Obj.get o "literal") as [| | | |l| |]; try discriminate;
    cbn [Js.truthy]; try (eexists; reflexivity).
  all: destruct l; eexists; reflexivity.
Qed.

Lemma getFirstAuthorFamily_total item :
  opt_names (Obj.get item "author") = true ->
  exists a, getFirstAuthorFamily item = Some a.
Proof.
  unfold getFirstAuthorFamily.
  destruct (Obj.get item "author") as [| | | | |vs|]; try discriminate.
  - eexists; reflexivity.
  - destruct vs as [|first vs]; [eexists; reflexivity|].
    cbn [opt_names forallb]. rewrite andb_true_iff. intros [H _].
    now apply first_family_total.
Qed.

Lemma extractYear_total item :
  opt_CslDate (Obj.get item "issued") = true ->
  exists y, extractYear item = Some y.
Proof.
  unfold extractYear.
  destruct (Obj.get item "issued") as [| | | | | |o]; try discriminate.
  - eexists; reflexivity.
  - unfold opt_CslDate, fields_ok. cbn [forallb]. rewrite !andb_true_iff.
    intros (_ & Hl & _).
    destruct (Js.truthy _); [eexists; reflexivity|].
    unfold Js.oprop, Js.prop.
    destruct (Obj.get o "literal") as [| | | |l| |]; try discriminate;
      cbn [Js.truthy]; try (eexists; reflexivity).
    destruct l; [eexists; reflexivity|]. cbn [as_str].
    destruct (Str.match_d4 _); eexists; reflexivity.
Qed.

Lemma no_author_unknown item :
  Obj.get item "author" = JUndef \/ Obj.get item "author" = JArr [] ->
  getFirstAuthorFamily item = Some "unknown".
Proof. unfold getFirstAuthorFamily. now intros [-> | ->]. Qed.

Lemma no_issued_unknown item :
  Obj.get item "issued" = JUndef -> extractYear item = Some "unknown".
Proof. unfold extractYear. now intros ->. Qed.

Lemma skipped_In w : skipped w = true <-> In w skipWords.
Proof.
  unfold skipped. rewrite existsb_exists. split.
  - intros [x [Hin Heq]]. apply str_eqb_eq in Heq. now subst.
  - intros H. exists w. split; [assumption | apply str_eqb_refl].
Qed.

Lemma significant_dec w :
  (Js.truthy (JStr w) && negb (skipped w) = true) <-> significant w.
Proof.
  unfold significant. rewrite andb_true_iff, negb_true_iff.
  rewrite <- skipped_In. destruct w; simpl; split.
  - intros [? _]. discriminate.
  - intros [? _]. congruence.
  - intros [_ ->]. split; congruence.
  - intros [_ H]. split; auto. now destruct (skipped (a :: w)).
Qed.

Lemma first_title_word_spec words :
  let cleaned := map (filter Char.is_az) words in
  (exists pre w post,
     cleaned = pre ++ w :: post /\
     Forall (fun x => ~ significant x) pre /\
     significant w /\ first_title_word words = Str.capitalize w) \/
  (Forall (fun x => ~ significant x) cleaned /\
   first_title_word words = "Untitled").
Proof.
  induction words as [|word rest IH]; cbn zeta.
  - right. split; [constructor | reflexivity].
  - cbn [first_title_word map].
    destruct (Js.truthy (JStr (filter Char.is_az word)) &&
              negb (skipped (filter Char.is_az word))) eqn:E.
    + left. exists [], (filter Char.is_az word), (map (filter Char.is_az) rest).
      repeat split; auto; now apply significant_dec.
    + assert (Hn : ~ significant (filter Char.is_az word)).
      { intros H. apply significant_dec in H. congruence. }
      destruct IH as [(pre & w & post & Hc & Hpre & Hw & Hr) | [Hall Hr]].
      * left. exists (filter Char.is_az word :: pre), w, post.
        cbn zeta in Hc. rewrite Hc. repeat split; auto; apply Hw.
      * right. split; [constructor; assumption | assumption].
Qed.

Lemma getFirstTitleWord_spec t : title_word t (getFirstTitleWord t).
Proof. apply first_title_word_spec. Qed.

Lemma capitalize_nonempty a : a <> [] -> Str.capitalize a <> [].
Proof.
  destruct a as [|c r]; [congruence|]. intros _.
  unfold Str.capitalize, Str.toUpperCase, Char.upper_units. cbn.
  destruct (Char.code c =? 223); discriminate.
Qed.

(** The author part of a cite key. *)
Lemma generateCiteKey_eq item a year t :
  getFirstAuthorFamily item = Some a ->
  extractYear item = Some year ->
  as_str (or_empty (Obj.get item "title")) = Some t ->
  generateCiteKey item =
    Some ((match a with [] => "Unknown" | _ => Str.capitalize a end)
          ++ year ++ getFirstTitleWord t).
Proof.
  intros Ha Hy Ht. unfold generateCiteKey. rewrite Ha, Hy, Ht.
  destruct a; reflexivity.
Qed.

(** C7 (amended): for a record of the declared type, the cite key is
    [Author ++ Year ++ TitleWord].  [Author] is the normalized first-author
    family name with its first letter capitalized, and the literal
    [Unknown] when that name is empty, which includes the case that no
    author exists.  [Year] is the result of [extractYear], [unknown] when
    the record has no date.  [TitleWord] is the first title word that, after
    lowercasing and stripping non-letters, is not empty and not in the
    stop-list, capitalized, and [Untitled] when there is none. *)
Theorem generateCiteKey_format (item : obj) :
  CslItem_ok item = true ->
  exists a year t titleWord,
    getFirstAuthorFamily item = Some a /\
    extractYear item = Some year /\
    as_str (or_empty (Obj.get item "title")) = Some t /\
    title_word t titleWord /\
    generateCiteKey item =
      Some ((match a with [] => "Unknown" | _ => Str.capitalize a end)
            ++ year ++ titleWord) /\
    (Obj.get item "author" = JUndef \/ Obj.get item "author" = JArr [] ->
       a = "unknown" /\ Str.capitalize a = "Unknown") /\
    (Obj.get item "issued" = JUndef -> year = "unknown").
Proof.
  intros Hok. apply CslItem_ok_fields in Hok.
  destruct Hok as (Ht & Ha & Hy & _).
  destruct (getFirstAuthorFamily_total item Ha) as [a Ea].
  destruct (extractYear_total item Hy) as [year Ey].
  destruct (title_total _ Ht) as [t Et].
  exists a, year, t, (getFirstTitleWord t).
  split; [assumption|]. split; [assumption|]. split; [assumption|].
  split; [apply getFirstTitleWord_spec|].
  split; [now apply generateCiteKey_eq|]. split.
  - intros H. apply no_author_unknown in H. rewrite H in Ea.
    injection Ea as <-. split; reflexivity.
  - intros H. apply no_issued_unknown in H. congruence.
Qed.

Lemma generateCiteKey_format_witness :
  exists a year t titleWord,
    getFirstAuthorFamily Examples.greatBook = Some a /\
    extractYear Examples.greatBook = Some year /\
    as_str (or_empty (Obj.get Examples.greatBook "title")) = Some t /\
    title_word t titleWord /\
    generateCiteKey Examples.greatBook =
      Some ((match a with [] => "Unknown" | _ => Str.capitalize a end)
            ++ year ++ titleWord) /\
    (Obj.get Examples.greatBook "author" = JUndef \/
     Obj.get Examples.greatBook "author" = JArr [] ->
       a = "unknown" /\ Str.capitalize a = "Unknown") /\
    (Obj.get Examples.greatBook "issued" = JUndef -> year = "unknown").
Proof. apply generateCiteKey_format. reflexivity. Defined.

(** C7, as stated, fails: an author exists, the normalized family name is
    empty, and the key starts with [Unknown], not with the (empty)
    capitalized name. *)
Lemma generateCiteKey_author_counterexample :
  let item := [("type", JStr "article-journal");
               ("title", JStr "Deep Learning");
               ("author", JArr [Examples.name "123" "X"]);
               ("issued", Examples.issued_year 2020)] in
  getFirstAuthorFamily item = Some [] /\
  extractYear item = Some "2020" /\
  getFirstTitleWord "Deep Learning" = "Deep" /\
  generateCiteKey item = Some "Unknown2020Deep" /\
  generateCiteKey item <> Some (Str.capitalize [] ++ "2020" ++ "Deep").
Proof. cbv zeta. repeat split; try reflexivity. discriminate. Qed.

(** C10: for every record of the declared type, [generateCiteKey] returns a
    non-empty string, so the [id] that [convertToFormat] assigns is the
    record's own [id] when there is one and the cite key otherwise: the
    positional [ref-n] alternative is never taken. *)
Theorem generateCiteKey_nonempty (item : obj) :
  CslItem_ok item = true ->
  exists key,
    generateCiteKey item = Some key /\
    key <> [] /\
    forall index,
      item_id item index =
        Some (if Js.nullish (Obj.get item "id") then JStr key
              else Obj.get item "id").
Proof.
  intros Hok.
  apply CslItem_ok_fields in Hok. destruct Hok as (Ht & Ha & Hy & _).
  destruct (getFirstAuthorFamily_total item Ha) as [a Ea].
  destruct (extractYear_total item Hy) as [year Ey].
  destruct (title_total _ Ht) as [t Et].
  pose proof (generateCiteKey_eq item Ea Ey Et) as Hk.
  eexists. split; [exact Hk|]. split.
  - destruct a; [discriminate|].
    intros H. apply app_eq_nil in H. destruct H as [H _].
    revert H. now apply capitalize_nonempty.
  - intros index. unfold item_id. rewrite Hk.
    destruct (Js.nullish (Obj.get item "id")); reflexivity.
Qed.

Lemma generateCiteKey_nonempty_witness :
  exists key,
    generateCiteKey [("type", JStr "book")] = Some key /\
    key <> [] /\
    forall index,
      item_id [("type", JStr "book")] index =
        Some (if Js.nullish (Obj.get [("type", JStr "book")] "id")
              then JStr key else Obj.get [("type", JStr "book")] "id").
Proof. apply generateCiteKey_nonempty. reflexivity. Defined.

End CiteKey.

(** ** Sorting *)

Section StableSort.
Variable A : Type.
Variable cmp : A -> A -> option comparison.

Local Abbreviation insert := (ArraySort.insert cmp).
Local Abbreviation sort := (ArraySort.sort cmp).

Lemma insert_perm x l l' :
  insert x l = Some l' -> Permutation (x :: l) l'.
Proof.
  revert l'. induction l as [|y r IH]; simpl; intros l'.
  - now intros [= <-].
  - destruct (cmp x y) as [[| |]|]; try discriminate;
      try (now intros [= <-]).
    destruct (insert x r) as [r'|]; [|discriminate].
    intros [= <-]. rewrite perm_swap. now constructor; apply IH.
Qed.

Lemma sort_perm l s : sort l = Some s -> Permutation l s.
Proof.
  revert s. induction l as [|x r IH]; simpl; intros s.
  - now intros [= <-].
  - destruct (sort r) as [s'|]; [|discriminate]. intros H.
    apply insert_perm in H. rewrite <- H. now constructor; apply IH.
Qed.

Lemma insert_defined x l :
  (forall y, In y l -> cmp x y <> None) -> exists l', insert x l = Some l'.
Proof.
  induction l as [|y r IH]; simpl; intros H; [eauto|].
  destruct (cmp x y) as [[| |]|] eqn:E; eauto.
  - destruct IH as [r' ->]; eauto.
  - exfalso. apply (H y); auto.
Qed.

Lemma sort_defined l :
  (forall x y, In x l -> In y l -> cmp x y <> None) ->
  exists s, sort l = Some s.
Proof.
  induction l as [|x r IH]; simpl; intros H; [eauto|].
  destruct IH as [s Hs]; [intros; apply H; auto|]. rewrite Hs.
  apply insert_defined. intros y Hy. apply H; auto.
  right. eapply Permutation_in; [symmetry; apply sort_perm|]; eauto.
Qed.

Section Order.
Variable le : A -> A -> Prop.
Hypothesis cmp_le : forall x y c, cmp x y = Some c -> c <> Gt -> le x y.
Hypothesis cmp_ge : forall x y, cmp x y = Some Gt -> le y x.

Lemma insert_hdrel x y l l' :
  insert x l = Some l' -> le y x -> HdRel le y l -> HdRel le y l'.
Proof.
  destruct l as [|z r]; simpl.
  - intros [= <-] H _. now constructor.
  - destruct (cmp x z) as [[| |]|]; try discriminate;
      try (intros [= <-] H _; now constructor).
    destruct (insert x r); [|discriminate].
    intros [= <-] _ H. inversion H; subst. now constructor.
Qed.

Lemma insert_sorted x l l' :
  insert x l = Some l' -> Sorted le l -> Sorted le l'.
Proof.
  revert l'. induction l as [|y r IH]; simpl; intros l'.
  - intros [= <-] _. repeat constructor.
  - destruct (cmp x y) as [[| |]|] eqn:E; try discriminate.
    + intros [= <-] H. constructor; auto. constructor.
      eapply cmp_le; eauto; discriminate.
    + intros [= <-] H. constructor; auto. constructor.
      eapply cmp_le; eauto; discriminate.
    + destruct (insert x r) as [r'|] eqn:Er; [|discriminate].
      intros [= <-] H. inversion H; subst. constructor; auto.
      eapply insert_hdrel; eauto.
Qed.

Lemma sort_sorted l s : sort l = Some s -> Sorted le s.
Proof.
  revert s. induction l as [|x r IH]; simpl; intros s.
  - intros [= <-]. constructor.
  - destruct (sort r) as [s'|]; [|discriminate]. intros H.
    eapply insert_sorted; eauto.
Qed.

End Order.

Section Stable.
Variable p : A -> bool.
Hypothesis p_class : forall x y, p x = true -> cmp x y = Some Gt -> p y = false.

Lemma insert_filter x l l' :
  insert x l = Some l' -> filter p l' = filter p (x :: l).
Proof.
  revert l'. induction l as [|y r IH]; simpl; intros l'.
  - now intros [= <-].
  - destruct (cmp x y) as [[| |]|] eqn:E; try discriminate;
      try (now intros [= <-]).
    destruct (insert x r) as [r'|]; [|discriminate].
    intros [= <-]. simpl. rewrite (IH r' eq_refl). simpl.
    destruct (p x) eqn:Px; auto.
    now rewrite (@p_class x y Px E).
Qed.

Lemma sort_filter l s : sort l = Some s -> filter p s = filter p l.
Proof.
  revert s. induction l as [|x r IH]; simpl; intros s.
  - now intros [= <-].
  - destruct (sort r) as [s'|]; [|discriminate]. intros H.
    rewrite (insert_filter _ _ H). simpl. now rewrite (IH s' eq_refl).
Qed.

End Stable.
End StableSort.

Lemma codeunit_compare_eq a b : codeunit_compare a b = Eq <-> a = b.
Proof.
  revert b. induction a as [|x a IH]; destruct b as [|y b]; simpl;
    try (split; [discriminate|congruence]); try tauto.
  destruct (Nat.compare_spec (Char.code x) (Char.code y)) as [E|E|E].
  - unfold Char.code in E.
    assert (x = y).
    { rewrite <- (ascii_nat_embedding x), <- (ascii_nat_embedding y).
      now rewrite E. }
    subst. rewrite IH. split; congruence.
  - split; [discriminate|]. intros [= -> _]. exfalso; lia.
  - split; [discriminate|]. intros [= -> _]. exfalso; lia.
Qed.

Lemma codeunit_compare_antisym a b :
  codeunit_compare b a = CompOpp (codeunit_compare a b).
Proof.
  revert b. induction a as [|x a IH]; destruct b as [|y b]; simpl; auto.
  rewrite (Nat.compare_antisym (Char.code x) (Char.code y)).
  destruct (Nat.compare (Char.code x) (Char.code y)); simpl; auto.
Qed.

Lemma codeunit_compare_trans a b c :
  codeunit_compare a b = Lt -> codeunit_compare b c = Lt ->
  codeunit_compare a c = Lt.
Proof.
  revert b c. induction a as [|x a IH]; intros [|y b] [|z c]; simpl; auto;
    try discriminate.
  destruct (Nat.compare_spec (Char.code x) (Char.code y)) as [E1|E1|E1];
    destruct (Nat.compare_spec (Char.code y) (Char.code z)) as [E2|E2|E2];
    try discriminate; intros H1 H2.
  - rewrite E1, E2, Nat.compare_refl. eauto.
  - rewrite E1. apply Nat.compare_lt_iff in E2. now rewrite E2.
  - rewrite <- E2. apply Nat.compare_lt_iff in E1. now rewrite E1.
  - assert (E : Char.code x < Char.code z) by lia.
    apply Nat.compare_lt_iff in E. now rewrite E.
Qed.

Lemma codeunit_digit_letter c s d t :
  Char.is_digit c = true -> Char.is_az d = true ->
  codeunit_compare (c :: s) (d :: t) = Lt.
Proof.
  unfold Char.is_digit, Char.is_az, Char.between.
  rewrite !andb_true_iff, !Nat.leb_le. intros [? ?] [? ?].
  cbn [codeunit_compare].
  assert (E : Char.code c < Char.code d) by lia.
  apply Nat.compare_lt_iff in E. now rewrite E.
Qed.

Section SortItems.
Import Normalize Types.

Variable localeCompare : str -> str -> comparison.
Hypothesis lc_eq : forall a b, localeCompare a b = Eq <-> a = b.
Hypothesis lc_antisym :
  forall a b, localeCompare b a = CompOpp (localeCompare a b).
Hypothesis lc_trans :
  forall a b c,
    localeCompare a b = Lt -> localeCompare b c = Lt -> localeCompare a c = Lt.

Local Abbreviation key_le := (key_le localeCompare).
Local Abbreviation item_le := (item_le localeCompare).
Local Abbreviation compare_keys := (compare_keys localeCompare).

Lemma compareItems_keys a b ka kb :
  sort_key a = Some ka -> sort_key b = Some kb ->
  compareItems localeCompare a b = Some (compare_keys ka kb).
Proof.
  unfold sort_key, compareItems.
  destruct (getFirstAuthorFamily a) as [a1|]; [|discriminate].
  destruct (extractYear a) as [y1|]; [|discriminate].
  destruct (as_str (or_empty (Obj.get a "title"))) as [t1|]; [|discriminate].
  destruct (getFirstAuthorFamily b) as [a2|]; [|discriminate].
  destruct (extractYear b) as [y2|]; [|discriminate].
  destruct (as_str (or_empty (Obj.get b "title"))) as [t2|]; [|discriminate].
  intros [= <-] [= <-]. simpl.
  destruct (str_eqb a1 a2); simpl; auto.
  destruct (str_eqb y1 y2); simpl; auto.
Qed.

Lemma lc_refl a : localeCompare a a = Eq.
Proof. now apply lc_eq. Qed.

Lemma lc_gt a b : localeCompare a b = Gt -> localeCompare b a = Lt.
Proof. intros H. now rewrite lc_antisym, H. Qed.

Lemma lc_cases a b :
  localeCompare a b = Lt \/ a = b \/ localeCompare b a = Lt.
Proof.
  destruct (localeCompare a b) eqn:E; auto.
  - right; left. now apply lc_eq.
  - right; right. now apply lc_gt.
Qed.

Lemma compare_keys_refl k : compare_keys k k = Eq.
Proof.
  destruct k as [[a y] t]. simpl. rewrite !str_eqb_refl. simpl.
  apply lc_refl.
Qed.

Lemma compare_keys_le k1 k2 : compare_keys k1 k2 <> Gt -> key_le k1 k2.
Proof.
  destruct k1 as [[a1 y1] t1], k2 as [[a2 y2] t2]. simpl.
  destruct (str_eqb a1 a2) eqn:Ea; simpl.
  - apply str_eqb_eq in Ea. subst a2.
    destruct (str_eqb y1 y2) eqn:Ey; simpl.
    + apply str_eqb_eq in Ey. subst y2. intros H. right. split; auto.
      right. split; auto.
      unfold before. destruct (localeCompare t1 t2) eqn:E; auto;
        try congruence.
      right. now apply lc_eq.
    + apply str_eqb_neq in Ey. intros H. right. split; auto. left.
      unfold before.
      destruct (localeCompare y1 y2) eqn:E; auto; try congruence.
      apply lc_eq in E. congruence.
  - apply str_eqb_neq in Ea. intros H. left. unfold before.
    destruct (localeCompare a1 a2) eqn:E; auto; try congruence.
    apply lc_eq in E. congruence.
Qed.

Lemma compare_keys_ge k1 k2 : compare_keys k1 k2 = Gt -> key_le k2 k1.
Proof.
  destruct k1 as [[a1 y1] t1], k2 as [[a2 y2] t2]. simpl.
  destruct (str_eqb a1 a2) eqn:Ea; simpl.
  - apply str_eqb_eq in Ea. subst a2.
    destruct (str_eqb y1 y2) eqn:Ey; simpl.
    + apply str_eqb_eq in Ey. subst y2. intros H%lc_gt.
      right. split; auto.
    + intros H%lc_gt. right. split; auto.
  - intros H%lc_gt. now left.
Qed.

Lemma before_irrefl a : ~ before localeCompare a a.
Proof. unfold before. rewrite lc_refl. discriminate. Qed.

Lemma key_le_trans k1 k2 k3 : key_le k1 k2 -> key_le k2 k3 -> key_le k1 k3.
Proof.
  destruct k1 as [[a1 y1] t1], k2 as [[a2 y2] t2], k3 as [[a3 y3] t3].
  unfold Normalize.key_le, before.
  intros [H1|[-> H1]] [H2|[-> H2]]; eauto.
  right. split; auto.
  destruct H1 as [H1|[-> H1]], H2 as [H2|[-> H2]]; eauto.
  right. split; auto.
  destruct H1 as [H1| ->], H2 as [H2| ->]; eauto.
Qed.

Lemma item_le_trans a b c : item_le a b -> item_le b c -> item_le a c.
Proof.
  intros (ka & kb & Ha & Hb & H1) (kb' & kc & Hb' & Hc & H2).
  rewrite Hb in Hb'. injection Hb' as <-.
  exists ka, kc. repeat split; auto. eapply key_le_trans; eauto.
Qed.

Lemma sort_key_typed it :
  CslItem_ok it = true -> exists k, sort_key it = Some k.
Proof.
  intros Hok. apply CslItem_ok_fields in Hok.
  destruct Hok as (Ht & Ha & Hy & _).
  destruct (getFirstAuthorFamily_total it Ha) as [a Ea].
  destruct (extractYear_total it Hy) as [y Ey].
  destruct (title_total _ Ht) as [t Et].
  unfold sort_key. rewrite Ea, Ey, Et. eauto.
Qed.

Lemma sorted_keyed (s : list obj) :
  Forall (fun it => exists k, sort_key it = Some k) s ->
  Sorted (fun a b => forall ka kb,
            sort_key a = Some ka -> sort_key b = Some kb -> key_le ka kb) s ->
  Sorted item_le s.
Proof.
  induction 1 as [|x l [kx Hx] Hl IH]; intros Hs; [constructor|].
  inversion Hs as [|? ? Hs' Hhd]; subst. constructor; auto.
  destruct Hhd as [|y l' Hxy]; constructor.
  inversion Hl as [|? ? [ky Hy] _]; subst.
  exists kx, ky. auto.
Qed.

(** The result of [sortItems] on records that have sort keys. *)
Lemma sortItems_keyed (items : list obj) :
  Forall (fun it => exists k, sort_key it = Some k) items ->
  exists sorted,
    sortItems localeCompare items = Some sorted /\
    Permutation items sorted /\
    StronglySorted item_le sorted /\
    (forall k, with_key k sorted = with_key k items).
Proof.
  intros Hk. unfold sortItems.
  destruct (sort_defined (compareItems localeCompare) items) as [s Hs].
  { intros x y Hx Hy. rewrite Forall_forall in Hk.
    destruct (Hk x Hx) as [kx Ex], (Hk y Hy) as [ky Ey].
    rewrite (compareItems_keys _ _ Ex Ey). discriminate. }
  exists s. split; [assumption|].
  pose proof (sort_perm _ _ Hs) as Hperm.
  split; [assumption|]. split.
  - apply Sorted_StronglySorted; [exact item_le_trans|].
    apply sorted_keyed.
    + rewrite Forall_forall in *. intros x Hx. apply Hk.
      eapply Permutation_in; [symmetry|]; eauto.
    + eapply sort_sorted; [| |exact Hs].
      * intros x y c Hc Hgt ka kb Ea Eb.
        rewrite (compareItems_keys _ _ Ea Eb) in Hc. injection Hc as <-.
        now apply compare_keys_le.
      * intros x y Hc ka kb Ea Eb.
        rewrite (compareItems_keys _ _ Eb Ea) in Hc. injection Hc as Hc.
        now apply compare_keys_ge.
  - intros k. unfold with_key. eapply sort_filter; [|exact Hs].
    intros x y Hx Hc.
    destruct (sort_key x) as [kx|] eqn:Ex; [|discriminate].
    destruct (key_eq_dec kx k) as [->|]; [|discriminate].
    destruct (sort_key y) as [ky|] eqn:Ey; auto.
    destruct (key_eq_dec ky k) as [->|]; auto.
    rewrite (compareItems_keys _ _ Ex Ey), compare_keys_refl in Hc.
    discriminate.
Qed.

End SortItems.

Example sortItems_unsorted :
  Normalize.sortItems codeunit_compare Examples.unsorted =
    Some [Examples.article "Alpha Earlier" "Alpha" "A" 2020;
          Examples.article "Alpha Study" "Alpha" "A" 2021;
          Examples.article "Zebra Research" "Zebra" "Z" 2020].
Proof. reflexivity. Qed.

(** ** Citation payloads in instruction text *)

Section Scanner.
Import Docx.

Lemma scan_string_body b :
  string_body b ->
  forall rest i d,
    scan (b ++ Json.dquote :: rest) i d true false =
    scan rest (i + S (length b)) d false false.
Proof.
  induction 1 as [|c r Hq Hb _ IH|e r _ IH]; intros rest i d.
  - simpl. now rewrite Nat.add_1_r.
  - cbn [app scan length].
    apply Ascii.eqb_neq in Hq, Hb. rewrite Hq, Hb. cbn [andb].
    rewrite IH. f_equal. lia.
  - cbn [app scan length]. rewrite Ascii.eqb_refl. cbn [andb].
    rewrite IH. f_equal. lia.
Qed.

Lemma scan_balanced b :
  balanced b ->
  forall rest i d,
    (0 < d)%Z ->
    scan (b ++ rest) i d false false =
    scan rest (i + length b) d false false.
Proof.
  induction 1 as [|c r Hq Ho Hc _ IH|b r Hb _ IH|b r _ IHb _ IHr];
    intros rest i d Hd.
  - simpl. now rewrite Nat.add_0_r.
  - cbn [app scan length].
    apply Ascii.eqb_neq in Hq, Ho, Hc. rewrite Hq, Ho, Hc.
    rewrite andb_false_r. rewrite IH by assumption. f_equal. lia.
  - cbn [app scan length]. rewrite andb_false_r, Ascii.eqb_refl.
    rewrite <- app_assoc. cbn [app negb].
    rewrite scan_string_body by assumption.
    rewrite IH by assumption. f_equal. rewrite length_app. simpl. lia.
  - cbn [app scan length]. rewrite andb_false_r.
    change (Ascii.eqb "{" Json.dquote) with false. rewrite Ascii.eqb_refl.
    rewrite <- app_assoc. cbn [app].
    rewrite IHb by lia. cbn [scan]. rewrite andb_false_r.
    change (Ascii.eqb "}" Json.dquote) with false.
    change (Ascii.eqb "}" "{") with false. rewrite Ascii.eqb_refl.
    replace (d + 1 - 1)%Z with d by lia.
    destruct (Z.eqb_spec d 0); [lia|].
    rewrite IHr by assumption. f_equal. rewrite length_app. simpl. lia.
Qed.

Lemma skipn_app_length (pre s : str) : skipn (length pre) (pre ++ s) = s.
Proof. induction pre; simpl; auto. Qed.

(** The scanner started on the opening brace of a balanced span stops on
    its closing brace. *)
Lemma findBalancedBrace_balanced pre b post :
  balanced b ->
  findBalancedBrace (pre ++ "{"%char :: b ++ "}"%char :: post) (length pre) =
    Some (length pre + S (length b)).
Proof.
  intros Hb. unfold findBalancedBrace. rewrite skipn_app_length.
  cbn [scan]. cbn [andb].
  change (Ascii.eqb "{" Json.dquote) with false. rewrite Ascii.eqb_refl.
  rewrite scan_balanced by (assumption || lia).
  cbn [scan]. rewrite andb_false_r.
  change (Ascii.eqb "}" Json.dquote) with false.
  change (Ascii.eqb "}" "{") with false. rewrite Ascii.eqb_refl.
  cbn. f_equal. lia.
Qed.

Lemma index_from_notin c s pos :
  ~ In c s -> index_from c s pos = None.
Proof.
  revert pos. induction s as [|x r IH]; simpl; intros pos H; auto.
  destruct (Ascii.eqb x c) eqn:E.
  - apply Ascii.eqb_eq in E. tauto.
  - apply IH. tauto.
Qed.

Lemma index_from_skip c mid s pos :
  ~ In c mid ->
  index_from c (mid ++ c :: s) pos = Some (pos + length mid).
Proof.
  revert pos. induction mid as [|x r IH]; simpl; intros pos H.
  - rewrite Ascii.eqb_refl. f_equal. lia.
  - destruct (Ascii.eqb x c) eqn:E.
    + apply Ascii.eqb_eq in E. tauto.
    + rewrite IH by tauto. f_equal. lia.
Qed.

Lemma firstn_app_length (a b : str) : firstn (length a) (a ++ b) = a.
Proof. induction a; simpl; auto. now f_equal. Qed.

(** A balanced span after a marker is recovered in full. *)
Lemma block_after_balanced pre mid b post :
  ~ In "{"%char mid -> balanced b ->
  block_after (pre ++ mid ++ "{"%char :: b ++ "}"%char :: post) (length pre) =
    ["{"%char :: b ++ ["}"%char]].
Proof.
  intros Hmid Hb. unfold block_after, indexOf.
  rewrite skipn_app_length, index_from_skip by assumption.
  rewrite <- length_app.
  rewrite app_assoc, findBalancedBrace_balanced by assumption.
  unfold slice. rewrite skipn_app_length. f_equal.
  replace (length (pre ++ mid) + S (length b) + 1 - length (pre ++ mid))
    with (length ("{"%char :: b ++ ["}"%char]))
    by (simpl; rewrite length_app; simpl; lia).
  replace ("{"%char :: b ++ "}"%char :: post)
    with (("{"%char :: b ++ ["}"%char]) ++ post)
    by (simpl; now rewrite <- app_assoc).
  apply firstn_app_length.
Qed.

End Scanner.

Section JsonBalanced.
Import Docx.

Lemma ser_obj gap ind kvs :
  Json.ser gap ind (JObj kvs) =
    Json.wrap gap ind "{" "}" (Json.members gap ind kvs).
Proof.
  cbn [Json.ser]. f_equal.
  induction kvs as [|[k x] r IH]; [reflexivity|].
  cbn [Json.members]. destruct x; rewrite <- IH; reflexivity.
Qed.

Lemma balanced_app a b : balanced a -> balanced b -> balanced (a ++ b).
Proof.
  induction 1 as [|c r Hq Ho Hc _ IH|s r Hs _ IH|s r Hs _ _ IH]; intros Hb.
  - assumption.
  - simpl. apply bal_char; auto.
  - simpl. rewrite <- app_assoc. simpl. apply bal_string; auto.
  - simpl. rewrite <- app_assoc. simpl. apply bal_braces; auto.
Qed.

Lemma plain_balanced s : plain s -> balanced s.
Proof.
  induction 1 as [|c r (Hq & Ho & Hc) _ IH]; [constructor|].
  apply bal_char; auto.
Qed.

Lemma plain_app a b : plain a -> plain b -> plain (a ++ b).
Proof. unfold plain. intros. apply Forall_app. auto. Qed.

Lemma string_body_app a b :
  string_body a -> string_body b -> string_body (a ++ b).
Proof.
  induction 1; intros Hb; simpl; auto.
  - apply body_char; auto.
  - apply body_escape; auto.
Qed.

Lemma escape_char_body c : string_body (Json.escape_char c).
Proof.
  destruct c as [[] [] [] [] [] [] [] []]; vm_compute;
    repeat first
      [ apply body_nil
      | apply body_escape
      | apply body_char;
        [ let H := fresh in intro H; vm_compute in H; discriminate H
        | let H := fresh in intro H; vm_compute in H; discriminate H
        | ] ].
Qed.

Lemma escape_body s : string_body (flat_map Json.escape_char s).
Proof.
  induction s; simpl; [constructor|].
  apply string_body_app; auto. apply escape_char_body.
Qed.

Lemma quote_balanced s : balanced (Json.quote s).
Proof.
  unfold Json.quote. apply (bal_string (escape_body s) bal_nil).
Qed.

Lemma digits_of_uint d :
  Forall Json.digit_or_minus
    (String.list_ascii_of_string (NilEmpty.string_of_uint d)).
Proof.
  induction d; simpl; constructor; auto; now left.
Qed.

Lemma digits_of_nzuint d :
  Forall Json.digit_or_minus
    (String.list_ascii_of_string (NilZero.string_of_uint d)).
Proof.
  unfold NilZero.string_of_uint. destruct d; try apply digits_of_uint.
  constructor; [now left | constructor].
Qed.

Lemma digits_of_Z n : Forall Json.digit_or_minus (Str.of_Z n).
Proof.
  unfold Str.of_Z, NilZero.string_of_int.
  destruct (Z.to_int n) as [d|d].
  - apply digits_of_nzuint.
  - cbn [String.list_ascii_of_string]. constructor; [now right|].
    apply digits_of_nzuint.
Qed.

Lemma digit_or_minus_plain s : Forall Json.digit_or_minus s -> plain s.
Proof.
  unfold plain. apply Forall_impl. intros c [H| ->].
  - repeat split; intros ->; discriminate.
  - repeat split; discriminate.
Qed.

Lemma join_balanced sep parts :
  plain sep -> Forall balanced parts -> balanced (Str.join sep parts).
Proof.
  intros Hsep. induction 1 as [|p ps Hp Hps IH]; [constructor|].
  destruct ps as [|q ps]; [exact Hp|].
  change (balanced (p ++ sep ++ Str.join sep (q :: ps))).
  apply balanced_app; auto. apply balanced_app; auto.
  now apply plain_balanced.
Qed.

Lemma plain_literal s :
  forallb (fun c => negb (Ascii.eqb c Json.dquote || Ascii.eqb c "{"
                          || Ascii.eqb c "}")) s = true ->
  plain s.
Proof.
  unfold plain. rewrite forallb_forall, Forall_forall.
  intros H c Hc. specialize (H c Hc).
  rewrite negb_true_iff, !orb_false_iff, !Ascii.eqb_neq in H. tauto.
Qed.

Lemma inner_balanced gap ind parts :
  plain gap -> plain ind -> Forall balanced parts ->
  balanced (Json.inner gap ind parts).
Proof.
  intros Hg Hi Hp. unfold Json.inner.
  destruct parts as [|p ps]; [constructor|].
  destruct gap as [|g gs].
  - apply join_balanced; auto. now apply plain_literal.
  - assert (Hnl : plain Json.newline) by now apply plain_literal.
    assert (Hig : plain (ind ++ g :: gs)) by now apply plain_app.
    apply balanced_app; [now apply plain_balanced|].
    apply balanced_app; [now apply plain_balanced|].
    apply balanced_app;
      [|apply plain_balanced; now apply plain_app].
    apply join_balanced; auto.
    apply (@plain_app ","); [now apply plain_literal|].
    now apply plain_app.
Qed.

Lemma members_balanced gap ind kvs :
  plain gap ->
  Forall (fun kv => balanced (Json.ser gap (ind ++ gap) (snd kv))) kvs ->
  Forall balanced (Json.members gap ind kvs).
Proof.
  intros Hg. induction 1 as [|[k x] r Hx _ IH]; [constructor|].
  cbn [Json.members].
  assert (Hm : balanced (Json.quote k ++ Json.colon gap
                         ++ Json.ser gap (ind ++ gap) x)).
  { apply balanced_app; [apply quote_balanced|].
    apply balanced_app; [|exact Hx].
    apply plain_balanced. destruct gap; now apply plain_literal. }
  destruct x; auto.
Qed.

(** The text of every value is balanced, whatever its strings hold. *)
Lemma ser_balanced gap v :
  plain gap -> forall ind, plain ind -> balanced (Json.ser gap ind v).
Proof.
  intros Hg. induction v using JsVal_induction; intros ind Hi.
  1-2: now apply plain_balanced, plain_literal.
  - destruct b; now apply plain_balanced, plain_literal.
  - apply plain_balanced, digit_or_minus_plain, digits_of_Z.
  - apply quote_balanced.
  - cbn [Json.ser]. unfold Json.wrap.
    apply bal_char; try discriminate.
    apply balanced_app; [|now apply plain_balanced, plain_literal].
    apply inner_balanced; auto.
    rewrite Forall_forall in *. intros p Hp.
    apply in_map_iff in Hp. destruct Hp as (x & <- & Hx).
    apply H; auto. now apply plain_app.
  - rewrite ser_obj. unfold Json.wrap.
    apply (@bal_braces _ []); [|constructor].
    apply inner_balanced; auto. apply members_balanced; auto.
    rewrite Forall_forall in *. intros kv Hkv.
    apply H; auto. now apply plain_app.
Qed.

Lemma ser_obj_balanced gap ind o :
  plain gap -> plain ind ->
  exists b, Json.ser gap ind (JObj o) = "{"%char :: b ++ ["}"%char] /\
            balanced b.
Proof.
  intros Hg Hi. rewrite ser_obj. unfold Json.wrap.
  eexists. split; [reflexivity|].
  apply inner_balanced; auto. apply members_balanced; auto.
  rewrite Forall_forall. intros kv _.
  apply ser_balanced; auto. now apply plain_app.
Qed.

End JsonBalanced.

Section Markers.
Import Docx.

Lemma startsWith_app m s :
  Str.startsWith m s = true -> exists rest, s = m ++ rest.
Proof.
  unfold Str.startsWith. destruct (Str.strip_prefix m s) as [r|] eqn:E;
    [|discriminate].
  intros _. exists r. now apply strip_prefix_inv.
Qed.

Lemma marker_at_some s len :
  marker_at s = Some len ->
  exists m rest, In m markers /\ s = m ++ rest /\ len = length m.
Proof.
  unfold marker_at.
  destruct (filter (fun m => Str.startsWith m s) markers) as [|m l] eqn:E;
    [discriminate|].
  intros [= <-].
  assert (Hin : In m (filter (fun m => Str.startsWith m s) markers))
    by (rewrite E; now left).
  apply filter_In in Hin. destruct Hin as [Hin Hs].
  apply startsWith_app in Hs. destruct Hs as [rest ->]. eauto.
Qed.

Lemma marker_at_iff s :
  marker_at s <> None <->
  exists m, In m markers /\ Str.startsWith m s = true.
Proof.
  unfold marker_at.
  destruct (filter (fun m => Str.startsWith m s) markers) as [|m l] eqn:E.
  - split; [congruence|]. intros [m [Hin Hs]].
    assert (H : In m (filter (fun m => Str.startsWith m s) markers))
      by (apply filter_In; auto).
    rewrite E in H. destruct H.
  - split; [|discriminate]. intros _.
    assert (Hin : In m (filter (fun m => Str.startsWith m s) markers))
      by (rewrite E; now left).
    apply filter_In in Hin. eauto.
Qed.

(** No marker starts inside a marker. *)
Lemma marker_no_overlap s len j :
  marker_at s = Some len -> 0 < j < len -> marker_at (skipn j s) = None.
Proof.
  intros H Hj. apply marker_at_some in H.
  destruct H as (m & rest & Hm & -> & ->).
  unfold markers in Hm. cbn [In] in Hm.
  destruct Hm as [<-|[<-|[<-|[]]]]; cbn [length] in Hj;
    do 19 (destruct j as [|j]; [try lia; reflexivity|]); lia.
Qed.

Lemma skipn_tail (s : str) pos c r :
  skipn pos s = c :: r -> skipn (S pos) s = r.
Proof.
  revert pos. induction s as [|x s IH]; intros [|pos]; simpl;
    try discriminate.
  - now intros [= _ ->].
  - intros H. destruct s; [destruct pos; discriminate|]. now apply IH.
Qed.

Lemma exec_from_positions text s :
  forall pos skip,
    s = skipn pos text ->
    (forall j, j < skip -> marker_at (skipn j s) = None) ->
    exec_from text s pos skip =
      flat_map (block_at text) (marker_positions_from s pos).
Proof.
  induction s as [|c r IH]; intros pos skip Hs Hskip; [reflexivity|].
  assert (Hr : r = skipn (S pos) text)
    by (symmetry; eapply skipn_tail; eauto).
  cbn [exec_from marker_positions_from]. destruct skip as [|k].
  - destruct (marker_at (c :: r)) as [len|] eqn:E.
    + cbn [flat_map]. unfold block_at at 1. rewrite <- Hs, E. f_equal.
      apply IH; auto. intros j Hj.
      apply (@marker_no_overlap _ _ (S j) E). lia.
    + apply IH; auto. intros j Hj. lia.
  - assert (E0 : marker_at (c :: r) = None) by (apply (Hskip 0); lia).
    rewrite E0. apply IH; auto.
    intros j Hj. apply (Hskip (S j)). lia.
Qed.

Lemma extractJsonBlocks_positions text :
  extractJsonBlocks text = flat_map (block_at text) (marker_positions text).
Proof.
  apply exec_from_positions; [reflexivity|]. intros j Hj. lia.
Qed.

Lemma skipn_skipn (s : str) a b : skipn a (skipn b s) = skipn (b + a) s.
Proof.
  revert s. induction b as [|b IH]; intros s; [reflexivity|].
  destruct s; simpl; [now destruct a|]. apply IH.
Qed.

Lemma marker_positions_from_In s pos i :
  In i (marker_positions_from s pos) <->
  pos <= i /\ marker_at (skipn (i - pos) s) <> None.
Proof.
  revert pos. induction s as [|c r IH]; intros pos.
  - simpl. split; [tauto|]. intros [_ H].
    apply H. destruct (i - pos); reflexivity.
  - cbn [marker_positions_from].
    assert (Hrest :
      In i (marker_positions_from r (S pos)) <->
      S pos <= i /\ marker_at (skipn (i - pos) (c :: r)) <> None).
    { rewrite IH. split; intros [H1 H2]; split; auto.
      - replace (i - pos) with (S (i - S pos)) by lia. exact H2.
      - replace (i - pos) with (S (i - S pos)) in H2 by lia. exact H2. }
    destruct (Nat.eq_dec i pos) as [->|Hne].
    + rewrite Nat.sub_diag. cbn [skipn].
      destruct (marker_at (c :: r)) eqn:E.
      * split; [intros _; split; [lia|discriminate] | intros _; now left].
      * rewrite Hrest. split; [intros [? _]; lia | intros [_ H]; congruence].
    + assert (Hi : In i (marker_positions_from r (S pos)) <->
                   pos <= i /\ marker_at (skipn (i - pos) (c :: r)) <> None).
      { rewrite Hrest. split; intros [? ?]; split; auto; lia. }
      destruct (marker_at (c :: r)); [|exact Hi].
      rewrite <- Hi. split; [intros [?|?]; [congruence|auto] | now right].
Qed.

Lemma marker_positions_In text i :
  In i (marker_positions text) <->
  exists m, In m markers /\ Str.startsWith m (skipn i text) = true.
Proof.
  unfold marker_positions. rewrite marker_positions_from_In, Nat.sub_0_r.
  rewrite marker_at_iff. split; [tauto | intros H; split; [lia|auto]].
Qed.

Lemma block_after_no_brace text start :
  ~ In "{"%char (skipn start text) -> block_after text start = [].
Proof.
  intros H. unfold block_after, indexOf.
  now rewrite index_from_notin.
Qed.

End Markers.

(** C5: [extractJsonBlocks] returns, in order, what each marker occurrence
    contributes, every occurrence handled on its own; a marker with no
    following opening brace contributes no block, and so does one whose
    span never returns to depth zero; a span balanced outside its strings
    that follows a marker, with no other opening brace in between, is
    recovered in full, whatever its double-quoted strings hold; and the
    text [JSON.stringify] gives for an object is such a span, also when
    string values contain braces, quotes or backslashes. *)
Theorem extractJsonBlocks_balanced :
  (forall text,
     Docx.extractJsonBlocks text =
       flat_map (Docx.block_at text) (Docx.marker_positions text)) /\
  (forall text i,
     In i (Docx.marker_positions text) <->
     exists m, In m Docx.markers /\
               Str.startsWith m (skipn i text) = true) /\
  (forall text start,
     ~ In "{"%char (skipn start text) -> Docx.block_after text start = []) /\
  (forall text start jsonStart,
     Docx.indexOf text "{" start = Some jsonStart ->
     Docx.findBalancedBrace text jsonStart = None ->
     Docx.block_after text start = []) /\
  (forall pre mid b post,
     ~ In "{"%char mid -> Docx.balanced b ->
     Docx.block_after (pre ++ mid ++ "{"%char :: b ++ "}"%char :: post)
       (length pre) = ["{"%char :: b ++ ["}"%char]]) /\
  (forall pretty o,
     exists b,
       Json.stringify pretty (JObj o) = "{"%char :: b ++ ["}"%char] /\
       Docx.balanced b).
Proof.
  split; [exact extractJsonBlocks_positions|].
  split; [exact marker_positions_In|].
  split; [exact block_after_no_brace|].
  split.
  { intros text start jsonStart H1 H2. unfold Docx.block_after.
    now rewrite H1, H2. }
  split; [exact block_after_balanced|].
  intros pretty o. unfold Json.stringify.
  apply ser_obj_balanced; [|constructor].
  destruct pretty; [now apply plain_literal | constructor].
Qed.

Lemma extractJsonBlocks_balanced_witness :
  let payload := Json.stringify false
                   (JObj [("title", JStr "a } b { c"); ("id", JNum 7)]) in
  Docx.extractJsonBlocks
    (" ADDIN ZOTERO_ITEM CSL_CITATION " ++ payload ++ " tail")
    = [payload].
Proof.
  intros payload.
  rewrite (proj1 extractJsonBlocks_balanced). reflexivity.
Defined.

(** ** [JSON.parse] after [JSON.stringify] *)

Section JsonLexer.
Import Json.

Lemma tokens_arr vs :
  tokens (JArr vs) = TLBracket :: elem_tokens true vs ++ [TRBracket].
Proof.
  reflexivity.
Qed.

Lemma tokens_obj kvs :
  tokens (JObj kvs) = TLBrace :: prop_tokens true kvs ++ [TRBrace].
Proof.
  reflexivity.
Qed.

Lemma lex_ws w s :
  forallb is_json_ws w = true -> lex MNormal (w ++ s) = lex MNormal s.
Proof.
  induction w as [|c w IH]; [reflexivity|]. cbn [forallb app].
  rewrite andb_true_iff. intros [Hc Hw]. cbn [lex]. rewrite Hc. auto.
Qed.

(** One escaped code unit read back inside a string. *)
Lemma lex_escape_char c acc tail :
  lex (MStr acc) (escape_char c ++ tail) = lex (MStr (c :: acc)) tail.
Proof.
  destruct c as [[] [] [] [] [] [] [] []]; reflexivity.
Qed.

Lemma lex_string_body s acc rest :
  lex (MStr acc) (flat_map escape_char s ++ dquote :: rest) =
    emit (TStr (rev acc ++ s)) (lex MNormal rest).
Proof.
  revert acc. induction s as [|c s IH]; intros acc.
  - cbn [flat_map app]. rewrite app_nil_r. reflexivity.
  - cbn [flat_map]. rewrite <- app_assoc, lex_escape_char, IH.
    cbn [rev]. now rewrite <- app_assoc.
Qed.

Lemma lex_quote s rest :
  lex MNormal (quote s ++ rest) = emit (TStr s) (lex MNormal rest).
Proof.
  unfold quote. cbn [app]. rewrite <- app_assoc. cbn [app].
  change (lex MNormal (dquote :: ?x)) with (lex (MStr []) x).
  apply lex_string_body.
Qed.

End JsonLexer.

Section JsonNumbers.
Import Json.

Local Abbreviation chars := String.list_ascii_of_string.

Lemma uint_all_digits d :
  forallb Char.is_digit (chars (NilEmpty.string_of_uint d)) = true.
Proof. induction d; simpl; auto. Qed.

(** The decimal form of a positive number has no leading zero. *)
Lemma to_uint_head p :
  match Pos.to_uint p with
  | Decimal.Nil | Decimal.D0 _ => False
  | _ => True
  end.
Proof.
  pose proof (DecimalPos.Unsigned.to_of (Pos.to_uint p)) as H.
  rewrite DecimalPos.Unsigned.of_to in H. cbn [N.to_uint] in H.
  pose proof (DecimalPos.Unsigned.to_uint_nonnil p) as Hnil.
  pose proof (DecimalPos.Unsigned.to_uint_nonzero p) as Hzero.
  destruct (Pos.to_uint p) as [|u| | | | | | | | |]; auto.
  unfold Decimal.unorm in H. cbn [Decimal.nzhead] in H.
  pose proof (DecimalFacts.nb_digits_nzhead u) as Hn.
  destruct (Decimal.nzhead u) as [|x| | | | | | | | |];
    try discriminate H.
  - apply Hzero. exact H.
  - injection H as H. subst x. cbn [Decimal.nb_digits] in Hn. lia.
Qed.

Lemma valid_nat_to_uint p :
  valid_nat (chars (NilEmpty.string_of_uint (Pos.to_uint p))) = true.
Proof.
  pose proof (to_uint_head p) as H.
  destruct (Pos.to_uint p) as [|u|u|u|u|u|u|u|u|u|u]; try contradiction;
    cbn [NilEmpty.string_of_uint chars valid_nat];
    pose proof (uint_all_digits u) as Hu;
    destruct (chars (NilEmpty.string_of_uint u)); auto.
Qed.

Lemma nz_to_uint p :
  NilZero.string_of_uint (Pos.to_uint p) =
  NilEmpty.string_of_uint (Pos.to_uint p).
Proof.
  pose proof (to_uint_head p). now destruct (Pos.to_uint p).
Qed.

Lemma of_Z_valid n : valid_int (Str.of_Z n) = true.
Proof.
  unfold Str.of_Z, NilZero.string_of_int.
  destruct n as [|p|p]; cbn [Z.to_int].
  - reflexivity.
  - rewrite nz_to_uint.
    pose proof (valid_nat_to_uint p) as H.
    pose proof (to_uint_head p) as Hh.
    destruct (Pos.to_uint p); try contradiction;
      cbn [NilEmpty.string_of_uint chars valid_int] in *; exact H.
  - rewrite nz_to_uint. cbn [chars valid_int]. apply valid_nat_to_uint.
Qed.

Lemma of_Z_value n :
  NilZero.int_of_string (String.string_of_list_ascii (Str.of_Z n)) =
    Some (Z.to_int n).
Proof.
  unfold Str.of_Z. rewrite String.string_of_list_ascii_of_string.
  destruct n as [|p|p]; [reflexivity| |]; apply NilZero.isi;
    cbn [Z.to_int]; intros [= H];
    now apply (DecimalPos.Unsigned.to_uint_nonnil p).
Qed.

Lemma number_token_of_Z acc n :
  rev acc = Str.of_Z n -> number_token acc = Some (TNum n).
Proof.
  intros H. unfold number_token.
  rewrite H, of_Z_valid, of_Z_value, DecimalZ.of_to. reflexivity.
Qed.

Lemma lex_digits ds acc rest :
  forallb Char.is_digit ds = true -> ends_number rest = true ->
  lex (MNum acc) (ds ++ rest) =
    match number_token (rev ds ++ acc) with
    | Some t => emit t (lex MNormal rest)
    | None => None
    end.
Proof.
  revert acc. induction ds as [|d ds IH]; intros acc Hd Hr.
  - cbn [app rev]. destruct rest as [|c r].
    + cbn [lex emit]. now destruct (number_token acc).
    + cbn [ends_number] in Hr.
      rewrite negb_true_iff, !orb_false_iff in Hr.
      destruct Hr as [[[H1 H2] H3] H4].
      cbn [lex]. rewrite H1, H2, H3, H4. reflexivity.
  - cbn [forallb] in Hd. rewrite andb_true_iff in Hd. destruct Hd as [H1 H2].
    cbn [app lex]. rewrite H1, IH by assumption.
    cbn [rev]. now rewrite <- app_assoc.
Qed.

Lemma lex_number_start c s :
  Char.is_digit c = true \/ c = "-"%char ->
  lex MNormal (c :: s) = lex (MNum [c]) s.
Proof.
  intros [H| ->]; [|reflexivity].
  destruct c as [[] [] [] [] [] [] [] []]; try discriminate H; reflexivity.
Qed.

Lemma of_Z_head n :
  exists c ds,
    Str.of_Z n = c :: ds /\
    (Char.is_digit c = true \/ c = "-"%char) /\
    forallb Char.is_digit ds = true.
Proof.
  unfold Str.of_Z, NilZero.string_of_int.
  destruct n as [|p|p]; cbn [Z.to_int].
  - exists "0"%char, []. repeat split. now left.
  - rewrite nz_to_uint.
    pose proof (to_uint_head p) as Hh.
    pose proof (uint_all_digits (Pos.to_uint p)) as Hd.
    destruct (Pos.to_uint p); try contradiction;
      cbn [NilEmpty.string_of_uint chars forallb] in *;
      rewrite andb_true_iff in Hd; destruct Hd as [Hc Hd];
      eexists _, _; (split; [reflexivity|]); split; auto.
  - rewrite nz_to_uint. cbn [chars].
    eexists _, _. split; [reflexivity|]. split; [now right|].
    apply uint_all_digits.
Qed.

Lemma lex_number n rest :
  ends_number rest = true ->
  lex MNormal (Str.of_Z n ++ rest) = emit (TNum n) (lex MNormal rest).
Proof.
  intros Hr. destruct (of_Z_head n) as (c & ds & E & Hc & Hd).
  rewrite E. cbn [app]. rewrite lex_number_start by assumption.
  rewrite lex_digits by assumption.
  rewrite (@number_token_of_Z _ n); [reflexivity|].
  rewrite rev_app_distr, rev_involutive. now rewrite E.
Qed.

End JsonNumbers.

Section JsonText.
Import Json.

Lemma emits_nil r : emits [] r = r.
Proof. now destruct r. Qed.

Lemma emits_cons t ts r : emits (t :: ts) r = emit t (emits ts r).
Proof. now destruct r. Qed.

Lemma emits_app a b r : emits (a ++ b) r = emits a (emits b r).
Proof. destruct r; simpl; auto. now rewrite app_assoc. Qed.

Lemma join_cons sep p ps :
  Str.join sep (p :: ps) = p ++ flat_map (fun q => sep ++ q) ps.
Proof.
  revert p. induction ps as [|q ps IH]; intros p.
  - simpl. now rewrite app_nil_r.
  - change (Str.join sep (p :: q :: ps)) with (p ++ sep ++ Str.join sep (q :: ps)).
    rewrite IH. cbn [flat_map]. now rewrite <- app_assoc.
Qed.

Lemma elem_tokens_false vs :
  elem_tokens false vs = flat_map (fun x => TComma :: x) (map tokens vs).
Proof.
  induction vs as [|x r IH]; [reflexivity|].
  cbn [elem_tokens map flat_map app]. now rewrite IH.
Qed.

Lemma elem_tokens_true vs : elem_tokens true vs = sep_tokens (map tokens vs).
Proof.
  destruct vs as [|x r]; [reflexivity|].
  cbn [elem_tokens map sep_tokens app]. now rewrite elem_tokens_false.
Qed.

Lemma members_filter gap ind kvs :
  members gap ind kvs = map (prop_text gap ind) (filter defined kvs).
Proof.
  induction kvs as [|[k x] r IH]; [reflexivity|].
  cbn [members filter]. unfold defined at 1. cbn [snd].
  destruct x; cbn [map]; rewrite IH; reflexivity.
Qed.

Lemma prop_tokens_false kvs :
  prop_tokens false kvs =
    flat_map (fun x => TComma :: x) (map prop_toks (filter defined kvs)).
Proof.
  induction kvs as [|[k x] r IH]; [reflexivity|].
  cbn [prop_tokens filter]. unfold defined at 1. cbn [snd].
  destruct x; cbn [map flat_map app]; rewrite IH; reflexivity.
Qed.

Lemma prop_tokens_true kvs :
  prop_tokens true kvs = sep_tokens (map prop_toks (filter defined kvs)).
Proof.
  induction kvs as [|[k x] r IH]; [reflexivity|].
  cbn [prop_tokens filter]. unfold defined at 1. cbn [snd].
  destruct x; cbn [map sep_tokens app]; rewrite ?prop_tokens_false; auto.
Qed.

Lemma ends_number_lit c rest :
  negb (Char.is_digit c || Ascii.eqb c "." || Ascii.eqb c "e"
        || Ascii.eqb c "E") = true ->
  ends_number (c :: rest) = true.
Proof. auto. Qed.

Lemma ends_number_ws w rest :
  forallb is_json_ws w = true -> ends_number rest = true ->
  ends_number (w ++ rest) = true.
Proof.
  destruct w as [|c w]; auto. cbn [forallb app ends_number].
  rewrite andb_true_iff. intros [Hc _] _.
  destruct c as [[] [] [] [] [] [] [] []]; try discriminate Hc; reflexivity.
Qed.

(** Parts after the first, each behind a comma and white space. *)
Lemma lexes_rest w (pts : list (str * list token)) :
  forallb is_json_ws w = true ->
  Forall (fun pt => lexes (fst pt) (snd pt)) pts ->
  forall tail,
    ends_number tail = true ->
    lex MNormal (flat_map (fun q => ("," ++ w) ++ q) (map fst pts) ++ tail) =
      emits (flat_map (fun x => TComma :: x) (map snd pts))
        (lex MNormal tail).
Proof.
  intros Hw. induction 1 as [|[p ts] r Hp _ IH]; intros tail Ht.
  - cbn. now rewrite emits_nil.
  - cbn [map flat_map fst snd]. rewrite <- !app_assoc. cbn [app].
    change (lex MNormal (","%char :: ?x)) with (emit TComma (lex MNormal x)).
    rewrite lex_ws by assumption.
    cbn [fst snd] in Hp. rewrite Hp.
    + rewrite IH by assumption. now rewrite emits_cons, emits_app.
    + destruct r as [|[q us] r]; [exact Ht|reflexivity].
Qed.

Lemma lexes_join w (pts : list (str * list token)) :
  forallb is_json_ws w = true ->
  Forall (fun pt => lexes (fst pt) (snd pt)) pts ->
  forall tail,
    ends_number tail = true ->
    lex MNormal (Str.join ("," ++ w) (map fst pts) ++ tail) =
      emits (sep_tokens (map snd pts)) (lex MNormal tail).
Proof.
  intros Hw Hall tail Ht. destruct pts as [|[p ts] r].
  - cbn. now rewrite emits_nil.
  - cbn [map fst snd sep_tokens]. rewrite join_cons, <- app_assoc.
    inversion Hall as [|? ? Hp Hr]; subst. cbn [fst snd] in Hp.
    rewrite Hp.
    + rewrite (@lexes_rest w r Hw Hr) by assumption. now rewrite emits_app.
    + destruct r as [|[q us] r]; [exact Ht|reflexivity].
Qed.

Lemma lexes_inner gap ind (pts : list (str * list token)) :
  forallb is_json_ws gap = true -> forallb is_json_ws ind = true ->
  Forall (fun pt => lexes (fst pt) (snd pt)) pts ->
  forall tail,
    ends_number tail = true ->
    lex MNormal (inner gap ind (map fst pts) ++ tail) =
      emits (sep_tokens (map snd pts)) (lex MNormal tail).
Proof.
  intros Hg Hi Hall tail Ht. unfold inner.
  destruct pts as [|pt r]; [cbn; now rewrite emits_nil|].
  cbn [map]. change (fst pt :: map fst r) with (map fst (pt :: r)).
  change (snd pt :: map snd r) with (map snd (pt :: r)).
  destruct gap as [|g gs].
  - change (Str.join "," (map fst (pt :: r)))
      with (Str.join ("," ++ []) (map fst (pt :: r))).
    now apply lexes_join.
  - assert (Hig : forallb is_json_ws (ind ++ g :: gs) = true)
      by (rewrite forallb_app, Hi, Hg; reflexivity).
    remember (ind ++ g :: gs) as ig eqn:Eig.
    assert (Hw : forallb is_json_ws (newline ++ ig) = true)
      by (cbn [forallb app newline]; now rewrite Hig).
    change ("," ++ newline ++ ig) with ("," ++ (newline ++ ig)).
    remember (Str.join ("," ++ (newline ++ ig)) (map fst (pt :: r))) as J
      eqn:EJ.
    replace ((newline ++ ig ++ J ++ newline ++ ind) ++ tail)
      with ((newline ++ ig) ++ J ++ (newline ++ ind) ++ tail)
      by (now rewrite <- !app_assoc).
    rewrite lex_ws by assumption. subst J.
    assert (Hw2 : forallb is_json_ws (newline ++ ind) = true)
      by (cbn [forallb app newline]; now rewrite Hi).
    rewrite lexes_join; auto using ends_number_ws.
    now rewrite lex_ws by assumption.
Qed.

End JsonText.

Section JsonRoundTrip.
Import Json.

Lemma lexes_prop gap ind kv :
  lexes (ser gap (ind ++ gap) (snd kv)) (tokens (snd kv)) ->
  lexes (prop_text gap ind kv) (prop_toks kv).
Proof.
  intros Hx rest Hr. unfold prop_text, prop_toks.
  rewrite <- !app_assoc, lex_quote. rewrite !emits_cons. f_equal.
  destruct gap as [|g gs]; cbn [colon app].
  - change (lex MNormal (":"%char :: ?x)) with (emit TColon (lex MNormal x)).
    f_equal. now apply Hx.
  - change (lex MNormal (":"%char :: " "%char :: ?x))
      with (emit TColon (lex MNormal x)).
    f_equal. now apply Hx.
Qed.

(** The lexer reads the text of a value as the tokens of the value. *)
Lemma lexes_ser gap v :
  forallb is_json_ws gap = true ->
  forall ind, forallb is_json_ws ind = true ->
  lexes (ser gap ind v) (tokens v).
Proof.
  intros Hg. induction v using JsVal_induction; intros ind Hi.
  - intros rest Hr. cbn [ser tokens]. now rewrite emits_cons, emits_nil.
  - intros rest Hr. cbn [ser tokens]. now rewrite emits_cons, emits_nil.
  - intros rest Hr. destruct b; cbn [ser tokens];
      now rewrite emits_cons, emits_nil.
  - intros rest Hr. cbn [ser tokens].
    rewrite lex_number by assumption. now rewrite emits_cons, emits_nil.
  - intros rest Hr. cbn [ser tokens].
    rewrite lex_quote. now rewrite emits_cons, emits_nil.
  - intros rest Hr. rewrite tokens_arr, elem_tokens_true.
    cbn [ser]. unfold wrap. cbn [app]. rewrite <- app_assoc. cbn [app].
    change (lex MNormal ("["%char :: ?x))
      with (emit TLBracket (lex MNormal x)).
    rewrite emits_cons, emits_app. f_equal.
    assert (Hig : forallb is_json_ws (ind ++ gap) = true)
      by (rewrite forallb_app, Hi, Hg; reflexivity).
    pose (pts := map (fun x => (ser gap (ind ++ gap) x, tokens x)) vs).
    replace (map (ser gap (ind ++ gap)) vs) with (map fst pts)
      by (unfold pts; rewrite map_map; reflexivity).
    replace (map tokens vs) with (map snd pts)
      by (unfold pts; rewrite map_map; reflexivity).
    rewrite lexes_inner; auto.
    + unfold pts. rewrite Forall_map. cbn [fst snd].
      revert H. apply Forall_impl. intros x Hx. now apply Hx.
  - intros rest Hr. rewrite ser_obj, tokens_obj, prop_tokens_true.
    rewrite members_filter.
    unfold wrap. cbn [app]. rewrite <- app_assoc. cbn [app].
    change (lex MNormal ("{"%char :: ?x))
      with (emit TLBrace (lex MNormal x)).
    rewrite emits_cons, emits_app. f_equal.
    assert (Hig : forallb is_json_ws (ind ++ gap) = true)
      by (rewrite forallb_app, Hi, Hg; reflexivity).
    pose (pts := map (fun kv => (prop_text gap ind kv, prop_toks kv))
                   (filter defined kvs)).
    replace (map (prop_text gap ind) (filter defined kvs)) with (map fst pts)
      by (unfold pts; rewrite map_map; reflexivity).
    replace (map prop_toks (filter defined kvs)) with (map snd pts)
      by (unfold pts; rewrite map_map; reflexivity).
    rewrite lexes_inner; auto.
    + unfold pts. rewrite Forall_map. cbn [fst snd].
      rewrite Forall_forall in *. intros kv Hkv.
      apply filter_In in Hkv. destruct Hkv as [Hkv _].
      apply lexes_prop. now apply H.
Qed.

End JsonRoundTrip.

Section JsonParser.
Import Json.

Lemma run_step p st t ts : run p st (t :: ts) = continue (step p st t) ts.
Proof. reflexivity. Qed.

Lemma set_append (o : obj) k v :
  ~ In k (map fst o) -> Obj.set o k v = o ++ [(k, v)].
Proof.
  induction o as [|[k0 v0] r IH]; simpl; intros H; [reflexivity|].
  destruct (str_eqb k k0) eqn:E.
  - apply str_eqb_eq in E. subst. tauto.
  - f_equal. apply IH. tauto.
Qed.

Lemma run_elems vs :
  Forall parses vs ->
  forall acc st rest,
    run PAfter (FArr acc :: st) (elem_tokens false vs ++ TRBracket :: rest) =
      continue (deliver (JArr (rev acc ++ vs)) st) rest.
Proof.
  induction 1 as [|x r Hx _ IH]; intros acc st rest.
  - cbn [elem_tokens app]. rewrite run_step. cbn [step].
    now rewrite app_nil_r.
  - cbn [elem_tokens app]. rewrite run_step. cbn [step continue].
    rewrite <- app_assoc, Hx. cbn [deliver continue].
    rewrite IH. cbn [rev]. now rewrite <- app_assoc.
Qed.

Lemma json_value_defined x : json_value x -> x <> JUndef.
Proof. intros H ->. inversion H. Qed.

Lemma prop_tokens_cons first k x r :
  x <> JUndef ->
  prop_tokens first ((k, x) :: r) =
    (if first then [] else [TComma]) ++
    TStr k :: TColon :: tokens x ++ prop_tokens false r.
Proof. intros H. cbn [prop_tokens]. now destruct x. Qed.

Lemma run_props kvs :
  Forall (fun kv => parses (snd kv) /\ snd kv <> JUndef) kvs ->
  forall acc st rest,
    NoDup (map fst acc ++ map fst kvs) ->
    run PAfter (FObj acc :: st) (prop_tokens false kvs ++ TRBrace :: rest) =
      continue (deliver (JObj (acc ++ kvs)) st) rest.
Proof.
  induction 1 as [|[k x] r [Hx Hd] _ IH]; intros acc st rest Hnd.
  - cbn [prop_tokens app]. rewrite run_step. cbn [step].
    now rewrite app_nil_r.
  - rewrite prop_tokens_cons by assumption. cbn [app].
    rewrite run_step. cbn [step continue].
    rewrite run_step. cbn [step continue].
    rewrite run_step. cbn [step continue].
    cbn [snd] in Hx. rewrite <- app_assoc, Hx. cbn [deliver continue].
    cbn [map fst] in Hnd.
    rewrite set_append.
    + rewrite IH.
      * now rewrite <- app_assoc.
      * rewrite map_app, <- app_assoc. exact Hnd.
    + apply NoDup_remove_2 in Hnd. intros Hin. apply Hnd.
      apply in_or_app. now left.
Qed.

(** The parser builds a value from its tokens. *)
Lemma run_tokens v : json_value v -> parses v.
Proof.
  induction v using JsVal_induction; intros Hv; inversion Hv; subst;
    try (intros b0 st rest; reflexivity).
  - intros b0 st rest. destruct b; reflexivity.
  - intros b st rest. rewrite tokens_arr. cbn [app].
    rewrite run_step. cbn [step continue].
    assert (Hall : Forall parses vs).
    { rewrite Forall_forall in *. auto. }
    destruct vs as [|x r].
    + cbn [elem_tokens app]. rewrite run_step. reflexivity.
    + inversion Hall as [|? ? Hx Hr]; subst.
      cbn [elem_tokens app]. rewrite <- !app_assoc, Hx.
      cbn [deliver continue]. cbn [app]. now rewrite run_elems.
  - intros b st rest. rewrite tokens_obj. cbn [app].
    rewrite run_step. cbn [step continue].
    assert (Hall : Forall (fun kv => parses (snd kv) /\ snd kv <> JUndef) kvs).
    { rewrite Forall_forall in *. intros kv Hkv. split.
      - apply H; auto.
      - apply json_value_defined; auto. }
    destruct kvs as [|[k x] r].
    + cbn [prop_tokens app]. rewrite run_step. reflexivity.
    + inversion Hall as [|? ? [Hx Hd] Hr]; subst. cbn [snd] in Hx, Hd.
      rewrite prop_tokens_cons by assumption. cbn [app].
      rewrite run_step. cbn [step continue].
      rewrite run_step. cbn [step continue].
      rewrite <- !app_assoc, Hx. cbn [deliver continue Obj.set app].
      rewrite (@run_props r Hr [(k, x)]); [reflexivity|].
      exact H1.
Qed.

(** [JSON.parse(JSON.stringify(v))] is [v], with or without
    indentation. *)
Lemma parse_stringify pretty v :
  json_value v -> parse (stringify pretty v) = Some v.
Proof.
  intros Hv. unfold parse, stringify.
  assert (Hl : lexes (ser (if pretty then "  " else []) [] v) (tokens v)).
  { apply lexes_ser; [now destruct pretty | reflexivity]. }
  specialize (Hl [] eq_refl). rewrite app_nil_r in Hl. rewrite Hl.
  cbn [lex emits]. rewrite (run_tokens Hv). reflexivity.
Qed.

End JsonParser.

(** ** Conversion *)

Section ConvertIds.
Import Normalize Types Convert.

Lemma set_same (o : obj) k v :
  Obj.lookup k o = Some v -> Obj.set o k v = o.
Proof.
  induction o as [|[k0 v0] r IH]; simpl; [discriminate|].
  destruct (str_eqb k k0) eqn:E.
  - now intros [= ->].
  - intros H. f_equal. auto.
Qed.

Lemma get_lookup (o : obj) k :
  Obj.get o k <> JUndef -> Obj.lookup k o = Some (Obj.get o k).
Proof.
  unfold Obj.get. destruct (Obj.lookup k o); [reflexivity|congruence].
Qed.

Lemma with_id_typed item index :
  CslItem_ok item = true ->
  exists item',
    with_id item index = Some item' /\ identified item item'.
Proof.
  intros Hok. unfold with_id, item_id, identified.
  destruct (Js.nullish (Obj.get item "id")) eqn:En.
  - apply CslItem_ok_fields in Hok. destruct Hok as (Ht & Ha & Hy & _).
    destruct (getFirstAuthorFamily_total item Ha) as [a Ea].
    destruct (extractYear_total item Hy) as [year Ey].
    destruct (title_total _ Ht) as [t Et].
    rewrite (generateCiteKey_eq item Ea Ey Et). cbn [coalesce Js.nullish].
    eexists. split; [reflexivity|]. split; [discriminate|].
    intros _. eexists. split; reflexivity.
  - eexists. split; [reflexivity|]. split; [|discriminate].
    intros _. apply set_same, get_lookup.
    intros H. rewrite H in En. discriminate.
Qed.

Lemma with_ids_typed items :
  Forall (fun it => CslItem_ok it = true) items ->
  forall index,
  exists withIds,
    with_ids_from index items = Some withIds /\
    Forall2 identified items withIds.
Proof.
  induction 1 as [|it r Hit _ IH]; intros index.
  - exists []. split; [reflexivity|constructor].
  - destruct (@with_id_typed it index Hit) as (it' & E & Hid).
    destruct (IH (S index)) as (r' & Er & Hr).
    exists (it' :: r'). cbn [with_ids_from]. rewrite E, Er.
    split; [reflexivity|]. now constructor.
Qed.

Lemma json_value_set (o : obj) k v :
  Json.json_value (JObj o) -> Json.json_value v ->
  Json.json_value (JObj (Obj.set o k v)).
Proof.
  intros Ho Hv. inversion Ho as [| | | | |? Hnd Hall]; subst.
  destruct (in_dec (list_eq_dec ascii_dec) k (map fst o)) as [Hin|Hnin].
  - constructor.
    + change (map fst (Obj.set o k v)) with (Obj.keys (Obj.set o k v)).
      now rewrite keys_set_in.
    + clear Hnd Hin Ho. induction Hall as [|[k0 v0] r H0 Hr IH]; simpl.
      * repeat constructor. exact Hv.
      * destruct (str_eqb k k0); constructor; auto.
  - rewrite set_append by assumption. constructor.
    + rewrite map_app. simpl. apply NoDup_app; auto.
      * repeat constructor. simpl. tauto.
      * intros x Hx [<-|[]]. contradiction.
    + apply Forall_app. split; [assumption|]. repeat constructor. exact Hv.
Qed.

Lemma identified_json it it' :
  identified it it' -> Json.json_value (JObj it) ->
  Json.json_value (JObj it').
Proof.
  intros [H1 H2] Hv. destruct (Js.nullish (Obj.get it "id")) eqn:E.
  - destruct (H2 eq_refl) as (key & _ & ->).
    apply json_value_set; [assumption|constructor].
  - now rewrite (H1 eq_refl).
Qed.

End ConvertIds.

(** C4 (amended): for records of the declared type that are JSON values,
    conversion to CSL-JSON, minified or not, returns a text that parses
    back to the list of the records handed to the formatter: a record that
    has an [id] is reproduced as it is, and a record without one is
    reproduced with one more field, [id], holding its cite key.  When every
    record has an [id], the text parses back to exactly the input list. *)
Theorem convertToFormat_csl_round_trip
  (cite_format : CiteTarget -> list obj -> option str)
  (items : list obj) (minify : bool) :
  Forall (fun it => Types.CslItem_ok it = true /\
                    Json.json_value (JObj it)) items ->
  exists text withIds,
    Convert.convertToFormat cite_format items CSL minify = Some text /\
    Json.parse text = Some (JArr (map JObj withIds)) /\
    Forall2 Convert.identified items withIds /\
    (Forall (fun it => Js.nullish (Obj.get it "id") = false) items ->
     Json.parse text = Some (JArr (map JObj items))).
Proof.
  intros H.
  assert (Hok : Forall (fun it => Types.CslItem_ok it = true) items).
  { revert H. apply Forall_impl. tauto. }
  destruct (@with_ids_typed items Hok 0) as (withIds & E & Hid).
  unfold Convert.convertToFormat, Convert.itemsWithIds. rewrite E.
  exists (Convert.formatCslJson withIds minify), withIds.
  assert (Hp : Json.parse (Convert.formatCslJson withIds minify) =
               Some (JArr (map JObj withIds))).
  { apply parse_stringify. constructor. rewrite Forall_map.
    clear E. induction Hid as [|it it' r r' Hi _ IH]; constructor.
    - inversion H; subst. eapply identified_json; eauto. tauto.
    - inversion H; inversion Hok; subst. auto. }
  split; [reflexivity|]. split; [exact Hp|]. split; [exact Hid|].
  intros Hids. rewrite Hp. do 3 f_equal.
  clear E Hp H Hok. induction Hid as [|it it' r r' [Hi _] _ IH].
  - reflexivity.
  - inversion Hids; subst. f_equal; auto.
Qed.

Lemma convertToFormat_csl_round_trip_witness :
  exists text withIds,
    Convert.convertToFormat Convert.engine_raises
      [Examples.sampleItem] CSL true = Some text /\
    Json.parse text = Some (JArr (map JObj withIds)) /\
    Forall2 Convert.identified [Examples.sampleItem] withIds /\
    (Forall (fun it => Js.nullish (Obj.get it "id") = false)
       [Examples.sampleItem] ->
     Json.parse text = Some (JArr (map JObj [Examples.sampleItem]))).
Proof.
  apply convertToFormat_csl_round_trip.
  repeat constructor; simpl; intuition discriminate.
Defined.

(** C4, as stated, fails: a record without [id] comes back with an [id]
    field added. *)
Lemma convertToFormat_csl_counterexample :
  let record := [("type", JStr "book"); ("title", JStr "Title")] in
  exists text,
    Convert.convertToFormat Convert.engine_raises [record] CSL true =
      Some text /\
    Json.parse text =
      Some (JArr [JObj (record ++ [("id", JStr "UnknownunknownTitle")])]) /\
    Json.parse text <> Some (JArr [JObj record]).
Proof.
  intros record. eexists. split; [reflexivity|].
  split; [vm_compute; reflexivity|]. vm_compute. discriminate.
Qed.

Section EntryKeys.
Import Normalize Types Convert.












End EntryKeys.

Section PostProcess.
Import Normalize Types Convert.

Lemma dropWhile_word w x :
  forallb Char.is_word w = true ->
  Str.dropWhile Char.is_word (w ++ "{"%char :: x) = "{"%char :: x.
Proof.
  induction w as [|c w IH]; [reflexivity|]. cbn [forallb app Str.dropWhile].
  rewrite andb_true_iff. intros [-> Hw]. auto.
Qed.

Lemma match_key_entry id w rest :
  w <> [] -> forallb Char.is_word w = true ->
  match_key id ("@"%char :: w ++ "{"%char :: id ++ ","%char :: rest) =
    Some (1 + length w + 1, 1 + length w + 1 + length id + 1).
Proof.
  intros Hne Hw. unfold match_key. rewrite Ascii.eqb_refl. cbv zeta.
  rewrite dropWhile_word by assumption.
  replace (length (w ++ "{"%char :: id ++ ","%char :: rest)
           - length ("{"%char :: id ++ ","%char :: rest))
    with (length w) by (rewrite length_app; lia).
  pose proof (skipn_app_length w ("{"%char :: id ++ ","%char :: rest)) as Hs.
  destruct (length w) as [|n] eqn:El.
  - destruct w; [congruence|discriminate].
  - rewrite Hs.
    replace ("{"%char :: id ++ ","%char :: rest)
      with (("{" ++ id ++ ",") ++ rest)
      by (cbn [app]; now rewrite <- app_assoc).
    now rewrite strip_prefix_app.
Qed.

Lemma expand_plain key m b a g1 g2 tail :
  existsb (Ascii.eqb "$") key = false ->
  expand (key ++ tail) m b a g1 g2 = key ++ expand tail m b a g1 g2.
Proof.
  induction key as [|c key IH]; [reflexivity|]. cbn [existsb app expand].
  rewrite orb_false_iff. intros [Hc Hk].
  rewrite Ascii.eqb_sym, Hc. f_equal. auto.
Qed.

Lemma expand_key key m b a g1 g2 :
  existsb (Ascii.eqb "$") key = false ->
  expand ("$1" ++ key ++ "$2") m b a g1 g2 = g1 ++ key ++ g2.
Proof.
  intros H. cbn [app expand]. cbn. rewrite expand_plain by assumption.
  cbn. now rewrite app_nil_r.
Qed.

(** An entry key equal to the [id] of a record is replaced by the cite
    key of the record. *)
Lemma postProcessBibTeX_entry item key w rest :
  generateCiteKey item = Some key ->
  existsb (Ascii.eqb "$") key = false ->
  w <> [] -> forallb Char.is_word w = true ->
  exists rest',
    postProcessBibTeX
      ("@" ++ w ++ "{" ++ Js.toString (Obj.get item "id") ++ "," ++ rest)
      [item] =
    Some ("@" ++ w ++ "{" ++ key ++ "," ++ rest').
Proof.
  intros Hk Hd Hne Hw. cbn [postProcessBibTeX]. rewrite Hk.
  remember (Js.toString (Obj.get item "id")) as id eqn:Eid.
  change ("@" ++ w ++ "{" ++ id ++ "," ++ rest)
    with ("@"%char :: w ++ "{"%char :: id ++ ","%char :: rest).
  cbn [replace_keys].
  rewrite match_key_entry by assumption.
  rewrite expand_key by assumption.
  eexists. f_equal.
  replace ("@"%char :: w ++ "{"%char :: id ++ ","%char :: rest)
    with (("@" ++ w ++ "{") ++ id ++ ","%char :: rest)
    by (cbn [app]; now rewrite <- app_assoc).
  replace (1 + length w + 1) with (length ("@" ++ w ++ "{"))
    by (cbn [app length]; rewrite length_app; simpl; lia).
  rewrite firstn_app_length. rewrite <- !app_assoc. cbn [app].
  repeat f_equal.
Qed.

Lemma free_of_cons bad c s :
  Str.free_of bad (c :: s) =
    negb (existsb (Ascii.eqb c) bad) && Str.free_of bad s.
Proof. reflexivity. Qed.

Lemma free_of_app bad a b :
  Str.free_of bad (a ++ b) = Str.free_of bad a && Str.free_of bad b.
Proof. apply forallb_app. Qed.



















End PostProcess.

Section ManualRis.
Import Normalize Types Convert.


End ManualRis.




(** Two records: the second has the cite key of the first as its [id], so
    the entry of the first is rewritten twice and both entries end under
    the cite key of the second. *)
Example postProcessBibTeX_cascade :
  let first := [("type", JStr "book"); ("id", JStr "a");
                ("title", JStr "Title")] in
  let second := [("type", JStr "book"); ("id", JStr "UnknownunknownTitle");
                 ("title", JStr "Other")] in
  Convert.convertToFormat Convert.engine_keyed_by_id [first; second]
    BibTeX false =
    Some ("@misc{UnknownunknownOther," ++ Convert.newline ++ "}"
          ++ Convert.newline
          ++ "@misc{UnknownunknownOther," ++ Convert.newline ++ "}").
Proof. vm_compute. reflexivity. Qed.

(** * The run over a batch of files: which records reach the output *)

Lemma trimStart_fixed t :
  (forall c, hd_error t = Some c -> Char.is_ws c = false) ->
  Str.trimStart t = t.
Proof.
  destruct t as [|c r]; simpl; auto.
  intros H. now rewrite (H c eq_refl).
Qed.

Lemma trim_idempotent s : Str.trim (Str.trim s) = Str.trim s.
Proof.
  destruct (trim_spec s) as (l & r & _ & _ & _ & Hhd & Hlast).
  unfold Str.trim at 1. unfold Str.trimEnd.
  rewrite (trimStart_fixed _ Hhd), (trimStart_fixed _ Hlast).
  apply rev_involutive.
Qed.

(** The results of [extractText]: [undefined] or a trimmed string. *)
Lemma extractText_result e : Pdf.text_result (Pdf.extractText e).
Proof.
  unfold Pdf.text_result. revert e. apply JsVal_induction; simpl; auto.
  - intros s. destruct s; eauto.
  - intros vs IH. induction IH as [|el r Hel _ IHr]; auto.
    destruct (Js.truthy (Pdf.extractText el)); auto.
  - intros kvs IH. destruct (Obj.lookup "#text" kvs); eauto.
    induction IH as [|[key v] r Hv _ IHr]; auto.
    destruct (negb (Str.startsWith "@_" key)); auto.
    simpl in Hv. destruct (Js.truthy (Pdf.extractText v)); auto.
Qed.

Lemma text_titled v :
  Pdf.text_result v -> Js.truthy v = true ->
  exists t, v = JStr t /\ t <> [] /\ Str.trim t = t.
Proof.
  intros [-> | [s ->]]; [discriminate|]. simpl. intros H.
  exists (Str.trim s). split; [reflexivity|]. split.
  - destruct (Str.trim s); congruence.
  - apply trim_idempotent.
Qed.

(** The steps of [biblStructToCsl] that leave the title alone. *)
Lemma set_if_other item k v k' :
  k <> k' -> Obj.get (Pdf.set_if item k v) k' = Obj.get item k'.
Proof.
  intros Hk. unfold Pdf.set_if. destruct (Js.truthy v); auto.
  now apply get_set_other.
Qed.

Lemma set_authors_title item authors :
  Obj.get (Pdf.set_authors item authors) "title" = Obj.get item "title".
Proof.
  destruct authors; simpl; auto. now apply get_set_other.
Qed.

Lemma identifier_field_not_title t f :
  Pdf.identifier_field t = Some f -> f <> "title".
Proof.
  unfold Pdf.identifier_field.
  repeat (match goal with
          | |- context [if ?b then _ else _] => destruct b
          end; [intros [= <-]; discriminate|]).
  discriminate.
Qed.

Lemma add_identifier_title item id item' :
  Pdf.add_identifier item id = Some item' ->
  Obj.get item' "title" = Obj.get item "title".
Proof.
  unfold Pdf.add_identifier.
  destruct (Normalize.is_object id); [|now intros [= <-]].
  destruct (_ || _); [now intros [= <-]|].
  destruct (Js.oprop id "@_type"); try discriminate.
  destruct (Pdf.identifier_field s) as [f|] eqn:Hf; intros [= <-]; auto.
  apply get_set_other. now apply identifier_field_not_title in Hf.
Qed.

Lemma add_identifiers_title ids item item' :
  Pdf.add_identifiers item ids = Some item' ->
  Obj.get item' "title" = Obj.get item "title".
Proof.
  revert item. induction ids as [|id r IH]; simpl; intros item.
  - now intros [= <-].
  - destruct (Pdf.add_identifier item id) as [item1|] eqn:H1; [|discriminate].
    intros H. rewrite (IH _ H). now apply add_identifier_title in H1.
Qed.

Lemma extractIdentifiers_title o item item' :
  Pdf.extractIdentifiers o item = Some item' ->
  Obj.get item' "title" = Obj.get item "title".
Proof.
  unfold Pdf.extractIdentifiers.
  destruct (negb _); [now intros [= <-]|]. apply add_identifiers_title.
Qed.

Lemma set_date_title item date item' :
  Pdf.set_date item date = Some item' ->
  Obj.get item' "title" = Obj.get item "title".
Proof.
  unfold Pdf.set_date.
  destruct (Js.truthy date); [|now intros [= <-]].
  cbv zeta. destruct (Js.truthy _); [|now intros [= <-]].
  destruct (Pdf.year_of date); try discriminate.
  destruct (Str.parseInt10 _); intros [= <-]; auto.
  now apply get_set_other.
Qed.

Lemma from_imprint_title item imprint item' :
  Pdf.from_imprint item imprint = Some item' ->
  Obj.get item' "title" = Obj.get item "title".
Proof.
  unfold Pdf.from_imprint.
  destruct (Js.truthy imprint); [|now intros [= <-]].
  destruct (Pdf.extractTextOf _ "volume"); [|discriminate].
  destruct (Pdf.extractTextOf _ "issue"); [|discriminate].
  destruct (Pdf.extractTextOf _ "page"); [|discriminate].
  destruct (Pdf.set_date _ _) as [item4|] eqn:Hd; [|discriminate].
  intros [= <-]. apply set_date_title in Hd.
  rewrite set_if_other by discriminate. rewrite Hd.
  now rewrite !set_if_other by discriminate.
Qed.

Lemma from_analytic_title item analytic item' :
  Pdf.from_analytic item analytic = Some item' ->
  Pdf.text_result (Obj.get item "title") ->
  Pdf.text_result (Obj.get item' "title").
Proof.
  unfold Pdf.from_analytic.
  destruct (Js.truthy analytic); [|now intros [= <-]].
  intros H Ht. apply extractIdentifiers_title in H. rewrite H.
  rewrite set_authors_title. unfold Pdf.set_if.
  destruct (Js.truthy _); auto.
  rewrite get_set_same. apply extractText_result.
Qed.

Lemma from_monogr_title item monogr item' :
  Pdf.from_monogr item monogr = Some item' ->
  Pdf.text_result (Obj.get item "title") ->
  Pdf.text_result (Obj.get item' "title").
Proof.
  unfold Pdf.from_monogr.
  destruct (Js.truthy monogr); [|now intros [= <-]].
  cbv zeta. intros H Ht.
  destruct (Pdf.from_imprint _ _) as [item3|] eqn:Hi; [|discriminate].
  apply extractIdentifiers_title in H. apply from_imprint_title in Hi.
  rewrite H.
  assert (H4 : Obj.get item3 "title" =
               Obj.get
                 (if negb (Js.truthy (Obj.get item3 "author"))
                  then Pdf.set_authors item3
                         (Pdf.extractAuthors (Js.oprop monogr "author"))
                  else item3) "title").
  { destruct (negb (Js.truthy (Obj.get item3 "author"))); auto.
    now rewrite set_authors_title. }
  rewrite <- H4, Hi.
  destruct (negb (Js.truthy (Obj.get _ "title"))).
  - rewrite get_set_other by discriminate. rewrite get_set_same.
    apply extractText_result.
  - now rewrite set_if_other by discriminate.
Qed.

(** A record of [biblStructToCsl] has a non-empty title without white
    space around it. *)
Lemma biblStructToCsl_titled bibl it :
  Pdf.biblStructToCsl bibl = Some (Some it) -> Cli.titled it.
Proof.
  unfold Pdf.biblStructToCsl.
  destruct (Normalize.is_object bibl); [|discriminate].
  destruct (Pdf.from_analytic _ _) as [item1|] eqn:H1; [|discriminate].
  destruct (Pdf.from_monogr _ _) as [item2|] eqn:H2; [|discriminate].
  destruct (Pdf.extractIdentifiers _ _) as [item3|] eqn:H3; [|discriminate].
  destruct (negb _) eqn:Ht; [discriminate|]. intros [= <-].
  apply negb_false_iff in Ht. apply text_titled; auto.
  rewrite (extractIdentifiers_title _ _ H3).
  apply (from_monogr_title _ _ H2), (from_analytic_title _ _ H1).
  now left.
Qed.

Lemma refs_of_titled biblStructs f refs :
  Pdf.refs_of biblStructs f = Some refs ->
  Forall (fun r => source r = PdfGrobid /\ Cli.titled (item r)) refs.
Proof.
  revert refs. induction biblStructs as [|bibl r IH]; simpl; intros refs.
  - intros [= <-]. constructor.
  - destruct (Pdf.biblStructToCsl bibl) as [[it|]|] eqn:Hb; try discriminate;
      destruct (Pdf.refs_of r f) as [rest|]; try discriminate;
      intros [= <-]; auto.
    constructor; auto. simpl. split; auto.
    now apply (@biblStructToCsl_titled bibl).
Qed.

Lemma extractFromPdf_titled tei f refs :
  Pdf.extractFromPdf tei f = Some refs ->
  Forall (fun r => source r = PdfGrobid /\ Cli.titled (item r)) refs.
Proof.
  destruct tei as [doc|]; simpl.
  - apply refs_of_titled.
  - intros [= <-]. constructor.
Qed.

(** A title survives deduplication, trimming and sorting. *)
Lemma merge_field_keep target kv k :
  Js.is_empty (Obj.get target k) = false ->
  Obj.get (Normalize.merge_field target kv) k = Obj.get target k.
Proof.
  destruct kv as [key value]. simpl. intros H.
  destruct (negb (Js.is_empty value)); auto.
  destruct (Normalize.target_empty target key) eqn:E; auto.
  apply target_empty_get in E.
  apply get_set_other. intros ->. congruence.
Qed.

Lemma mergeItems_keep source target k :
  Js.is_empty (Obj.get target k) = false ->
  Obj.get (Normalize.mergeItems target source) k = Obj.get target k.
Proof.
  unfold Normalize.mergeItems. revert target.
  induction source as [|kv r IH]; simpl; intros target H; auto.
  rewrite IH; rewrite merge_field_keep; auto.
Qed.

Lemma has_title_merge target source :
  Cli.has_title target ->
  Cli.has_title (Normalize.mergeItems target source).
Proof.
  intros (t & Ht & Hne). exists t. split; auto.
  rewrite mergeItems_keep; auto. rewrite Ht.
  destruct t; [exfalso; apply Hne; reflexivity | reflexivity].
Qed.

Lemma seen_merge_titled key source seen :
  Forall (fun kv => Cli.has_title (snd kv)) seen ->
  Forall (fun kv => Cli.has_title (snd kv))
    (Normalize.seen_merge key source seen).
Proof.
  induction 1 as [|[k v] r Hv Hr IH]; simpl; [constructor|].
  destruct (str_eqb key k); constructor; auto.
  now apply has_title_merge.
Qed.

Lemma dedupe_loop_titled refs seen n seen' n' :
  Normalize.dedupe_loop refs seen n = Some (seen', n') ->
  Forall (fun r => Cli.has_title (item r)) refs ->
  Forall (fun kv => Cli.has_title (snd kv)) seen ->
  Forall (fun kv => Cli.has_title (snd kv)) seen'.
Proof.
  revert seen n. induction refs as [|ref rest IH]; simpl; intros seen n.
  - now intros [= <- <-].
  - destruct (Normalize.generateDedupeKey (item ref)) as [key|];
      [|discriminate].
    intros H Hrefs Hseen. inversion Hrefs as [|? ? Href Hrest]; subst.
    destruct (Normalize.seen_get key seen).
    + apply (IH _ _ H Hrest). now apply seen_merge_titled.
    + apply (IH _ _ H Hrest). apply Forall_app. split; auto.
Qed.

Lemma titled_viable it : Cli.titled it -> Cli.viable it = true.
Proof.
  intros (t & Ht & Hne & _). unfold Cli.viable. rewrite Ht.
  destruct t; [congruence | reflexivity].
Qed.

Lemma trimItem_titled it :
  Cli.has_title it -> Cli.titled (Normalize.trimItem it).
Proof.
  intros (t & Ht & Hne). exists (Str.trim t).
  rewrite trimItem_get, Ht by reflexivity.
  simpl. split; [reflexivity|]. split; auto.
  apply trim_idempotent.
Qed.

Lemma normalizeRefs_titled lc refs items n :
  Normalize.normalizeRefs lc refs = Some (items, n) ->
  Forall (fun r => Cli.has_title (item r)) refs ->
  Forall Cli.titled items.
Proof.
  unfold Normalize.normalizeRefs, Normalize.deduplicateItems.
  destruct (Normalize.dedupe_loop refs [] 0) as [[seen m]|] eqn:Hd;
    [|discriminate].
  destruct (Normalize.sortItems lc _) as [sorted|] eqn:Hs; [|discriminate].
  intros [= <- <-] Hrefs.
  assert (Hseen : Forall (fun kv => Cli.has_title (snd kv)) seen).
  { apply (dedupe_loop_titled _ Hd Hrefs). constructor. }
  apply sort_perm in Hs.
  apply Forall_forall. intros it Hin.
  apply (Permutation_in _ (Permutation_sym Hs)) in Hin.
  rewrite map_map in Hin. apply in_map_iff in Hin as ([k v] & <- & Hkv).
  apply trimItem_titled.
  rewrite Forall_forall in Hseen. now apply (Hseen (k, v)).
Qed.

(** The records of the DOCX path. *)
Section DocxPath.

Variable ZoteroCitationSchema : JsVal -> option JsVal.
Variable CslItemSchema : JsVal -> option obj.

Local Abbreviation docx_ref :=
  (fun r => source r = DocxCitation /\ Cli.accepted CslItemSchema r).

Lemma extractItemData_accepted it f r :
  Docx.extractItemData it f = Some r -> docx_ref r.
Proof.
  unfold Docx.extractItemData, Cli.accepted.
  destruct it as [| | | | | |o]; try discriminate.
  destruct (Obj.get o "itemData") as [| | | | | |itemData] eqn:Ho;
    try discriminate.
  destruct (negb _) eqn:Ht; [discriminate|]. intros [= <-].
  apply negb_false_iff in Ht. cbn [source rawData item].
  change (Js.oprop (JObj o) "itemData") with (Obj.get o "itemData").
  rewrite Ho. auto.
Qed.

Lemma relaxed_items_accepted parsed f :
  Forall docx_ref (Docx.relaxed_items parsed f).
Proof.
  unfold Docx.relaxed_items.
  destruct parsed as [| | | | | |o]; try constructor.
  destruct (Obj.lookup "citationItems" o) as [[| | | | |citationItems|]|];
    try constructor.
  apply Forall_forall. intros r Hr.
  apply in_flat_map in Hr as (it & _ & Hr).
  destruct (Docx.extractItemData it f) as [r'|] eqn:He; [|contradiction].
  destruct Hr as [<-|[]]. now apply (@extractItemData_accepted it f).
Qed.

Lemma validated_item_accepted citationItem f refs :
  Docx.validated_item CslItemSchema citationItem f = Some refs ->
  Forall docx_ref refs.
Proof.
  unfold Docx.validated_item, Cli.accepted.
  destruct (Js.prop citationItem "itemData") as [itemData|] eqn:Hp;
    [|discriminate].
  assert (Ho : Js.oprop citationItem "itemData" = itemData)
    by (unfold Js.oprop; now rewrite Hp).
  destruct (Js.truthy itemData) eqn:Ht; [|intros [= <-]; constructor].
  destruct (CslItemSchema itemData) as [data|] eqn:Hz.
  - intros [= <-]. constructor; [|constructor].
    cbn [source rawData item]. rewrite Ho. auto.
  - destruct itemData as [| | | | | |payload];
      try (intros [= <-]; constructor).
    destruct (Js.truthy (Obj.get payload "type")) eqn:Hty;
      intros [= <-]; [constructor; [|constructor] | constructor].
    cbn [source rawData item]. rewrite Ho. auto.
Qed.

Lemma validated_items_accepted citationItems f refs :
  Docx.validated_items CslItemSchema citationItems f = Some refs ->
  Forall docx_ref refs.
Proof.
  revert refs. induction citationItems as [|ci r IH]; simpl; intros refs.
  - intros [= <-]. constructor.
  - destruct (Docx.validated_item CslItemSchema ci f) as [here|] eqn:Hh;
      [|discriminate].
    destruct (Docx.validated_items CslItemSchema r f) as [rest|];
      [|discriminate].
    intros [= <-]. apply Forall_app. split; auto.
    now apply (@validated_item_accepted ci f).
Qed.

Lemma parseCitationJson_accepted json f refs :
  Docx.parseCitationJson ZoteroCitationSchema CslItemSchema json f =
    Some refs ->
  Forall docx_ref refs.
Proof.
  unfold Docx.parseCitationJson.
  destruct (Json.parse json) as [parsed|]; [|discriminate].
  destruct (ZoteroCitationSchema parsed) as [citation|].
  - destruct (Js.prop citation "citationItems") as [cis|]; [|discriminate].
    destruct (Js.truthy cis); [|intros [= <-]; constructor].
    destruct cis; try discriminate.
    + intros [= <-]. constructor.
    + apply validated_items_accepted.
  - intros [= <-]. apply relaxed_items_accepted.
Qed.

Lemma extractFromDocx_accepted xmlEntries f refs :
  Docx.extractFromDocx ZoteroCitationSchema CslItemSchema xmlEntries f =
    Some refs ->
  Forall docx_ref refs.
Proof.
  unfold Docx.extractFromDocx.
  intros H.
  assert (Hrefs : refs =
            flat_map (fun doc =>
                        Docx.extractCitationsFromXml ZoteroCitationSchema
                          CslItemSchema doc f) xmlEntries)
    by (destruct xmlEntries; [discriminate | now injection H]).
  rewrite Hrefs. clear H Hrefs.
  apply Forall_forall. intros r Hr.
  apply in_flat_map in Hr as (doc & _ & Hr).
  unfold Docx.extractCitationsFromXml in Hr.
  destruct doc as [d|]; [|contradiction].
  apply in_flat_map in Hr as (json & _ & Hr).
  destruct (Docx.parseCitationJson _ _ json f) as [items|] eqn:Hj;
    [|contradiction].
  apply parseCitationJson_accepted in Hj.
  rewrite Forall_forall in Hj. now apply Hj.
Qed.

(** Every extracted record comes from one of the two paths. *)
Lemma allRefs_paths files :
  Forall (fun r =>
            (source r = PdfGrobid /\ Cli.titled (item r)) \/
            (source r = DocxCitation /\ Cli.accepted CslItemSchema r))
    (Cli.allRefs ZoteroCitationSchema CslItemSchema files).
Proof.
  apply Forall_forall. intros r Hr.
  apply in_flat_map in Hr as ([path content] & _ & Hr).
  unfold Cli.extract in Hr. simpl in Hr.
  destruct content as [xmlEntries|tei|]; [| |contradiction].
  - destruct (Docx.extractFromDocx _ _ _ _) as [refs|] eqn:He;
      [|contradiction].
    apply extractFromDocx_accepted in He.
    rewrite Forall_forall in He. right. now apply He.
  - destruct (Pdf.extractFromPdf tei path) as [refs|] eqn:He;
      [|contradiction].
    apply extractFromPdf_titled in He.
    rewrite Forall_forall in He. left. now apply He.
Qed.

Lemma allRefs_pdf files :
  Forall (fun f => Cli.is_docx f = false) files ->
  Forall (fun r => Cli.titled (item r))
    (Cli.allRefs ZoteroCitationSchema CslItemSchema files).
Proof.
  intros Hf. apply Forall_forall. intros r Hr.
  apply in_flat_map in Hr as ([path content] & Hin & Hr).
  rewrite Forall_forall in Hf. specialize (Hf _ Hin).
  unfold Cli.extract in Hr. simpl in Hr.
  destruct content as [xmlEntries|tei|]; [discriminate| |contradiction].
  destruct (Pdf.extractFromPdf tei path) as [refs|] eqn:He; [|contradiction].
  apply extractFromPdf_titled in He.
  rewrite Forall_forall in He. now apply He.
Qed.

End DocxPath.

(** C1, amended: in a run over a batch of files, every record of the
    external-parser path has a non-empty title, while a record of the DOCX
    citation-field path is one whose payload passed the item schema or has
    a non-empty [type]; when every extracted record has a title that is not
    blank, and so whenever no file of the batch is a Word file, every record
    of the final output list has a non-empty title. *)
Theorem output_minimum_viability
        (ZoteroCitationSchema : JsVal -> option JsVal)
        (CslItemSchema : JsVal -> option obj)
        (localeCompare : str -> str -> comparison)
        (files : list Cli.File) (items : list obj) :
  Cli.items ZoteroCitationSchema CslItemSchema localeCompare files =
    Some items ->
  let refs := Cli.allRefs ZoteroCitationSchema CslItemSchema files in
  Forall (fun r =>
            (source r = PdfGrobid /\ Cli.titled (item r)) \/
            (source r = DocxCitation /\ Cli.accepted CslItemSchema r)) refs /\
  (Forall (fun r => Cli.has_title (item r)) refs ->
   Forall (fun it => Cli.titled it /\ Cli.viable it = true) items) /\
  (Forall (fun f => Cli.is_docx f = false) files ->
   Forall (fun it => Cli.titled it /\ Cli.viable it = true) items).
Proof.
  intros Hrun refs. unfold Cli.items in Hrun.
  destruct (Normalize.normalizeRefs _ _) as [[sorted n]|] eqn:Hn;
    [|discriminate].
  injection Hrun as ->.
  assert (Hkeep : Forall (fun r => Cli.has_title (item r)) refs ->
                  Forall (fun it => Cli.titled it /\ Cli.viable it = true)
                    items).
  { intros Hrefs. apply (@normalizeRefs_titled _ _ _ _ Hn) in Hrefs.
    apply Forall_impl with (2 := Hrefs).
    intros it Hit. split; [exact Hit | now apply titled_viable]. }
  split; [apply allRefs_paths|]. split; [exact Hkeep|].
  intros Hfiles. apply Hkeep.
  apply Forall_impl
    with (2 := @allRefs_pdf ZoteroCitationSchema CslItemSchema files Hfiles).
  intros r (t & Ht & Hne & Htrim). exists t. split; auto. now rewrite Htrim.
Qed.

Lemma output_minimum_viability_witness :
  let files := [Cli.paper_docx; Cli.paper_pdf] in
  let refs := Cli.allRefs Types.ZoteroCitationSchema Types.CslItemSchema
                files in
  exists items,
    Cli.items Types.ZoteroCitationSchema Types.CslItemSchema
      codeunit_compare files = Some items /\
    length items = 2 /\
    Forall (fun r =>
              (source r = PdfGrobid /\ Cli.titled (item r)) \/
              (source r = DocxCitation /\
               Cli.accepted Types.CslItemSchema r)) refs /\
    (Forall (fun r => Cli.has_title (item r)) refs ->
     Forall (fun it => Cli.titled it /\ Cli.viable it = true) items) /\
    (Forall (fun f => Cli.is_docx f = false) files ->
     Forall (fun it => Cli.titled it /\ Cli.viable it = true) items).
Proof.
  intros files refs. eexists.
  split; [vm_compute; reflexivity|].
  split; [reflexivity|].
  apply (@output_minimum_viability Types.ZoteroCitationSchema
           Types.CslItemSchema codeunit_compare files).
  vm_compute. reflexivity.
Defined.

(** C1, as stated, fails: a Word file whose one citation has a payload
    with a [type] and nothing else puts that record in the final output
    list, through the schemas as well as through the relaxed fallback; it
    has no title and no identifier. *)
Lemma title_less_record_counterexample :
  let record := [("type", JStr "book")] in
  Types.ZoteroCitationSchema Cli.bare_citation = Some Cli.bare_citation /\
  Types.ZoteroCitationSchema Cli.draft_citation = None /\
  Cli.items Types.ZoteroCitationSchema Types.CslItemSchema codeunit_compare
    [Cli.bare_docx] = Some [record] /\
  Cli.items Types.ZoteroCitationSchema Types.CslItemSchema codeunit_compare
    [Cli.draft_docx] = Some [record] /\
  Cli.viable record = false /\
  map (Obj.get record) ("title" :: Cli.identifiers) =
    [JUndef; JUndef; JUndef; JUndef; JUndef; JUndef; JUndef].
Proof.
  intros record. repeat split; vm_compute; reflexivity.
Qed.

(** * Further properties of core/normalize.ts *)

Section Dedupe.
Import Normalize.

Lemma seen_merge_length key source seen :
  length (seen_merge key source seen) = length seen.
Proof.
  induction seen as [|[k v] r IH]; simpl; auto.
  destruct (str_eqb key k); simpl; auto.
Qed.

Lemma seen_merge_keys key source seen :
  map fst (seen_merge key source seen) = map fst seen.
Proof.
  induction seen as [|[k v] r IH]; simpl; auto.
  destruct (str_eqb key k); simpl; congruence.
Qed.

Lemma seen_get_keys key seen :
  seen_get key seen <> None <-> In key (map fst seen).
Proof.
  induction seen as [|[k v] r IH]; simpl; [tauto|].
  destruct (str_eqb key k) eqn:E.
  - apply str_eqb_eq in E. subst. split; [auto | discriminate].
  - apply str_eqb_neq in E. rewrite IH. split; [auto|].
    intros [H|H]; [congruence | exact H].
Qed.

Lemma dedupe_loop_count refs seen n seen' n' :
  dedupe_loop refs seen n = Some (seen', n') ->
  length seen' + n' = length seen + n + length refs.
Proof.
  revert seen n. induction refs as [|ref rest IH]; simpl; intros seen n.
  - intros [= <- <-]. lia.
  - destruct (generateDedupeKey (item ref)) as [key|]; [|discriminate].
    destruct (seen_get key seen); intros H; apply IH in H; rewrite H.
    + rewrite seen_merge_length. lia.
    + rewrite length_app. simpl. lia.
Qed.

(** The keys of the map after the loop: those it had, then the new keys
    in the order of their first occurrence. *)
Lemma dedupe_loop_keys refs keys :
  Forall2 (fun r k => generateDedupeKey (item r) = Some k) refs keys ->
  forall seen n,
    NoDup (map fst seen) ->
    exists seen' n',
      dedupe_loop refs seen n = Some (seen', n') /\
      NoDup (map fst seen') /\
      (forall k, In k (map fst seen') <-> In k (map fst seen) \/ In k keys).
Proof.
  induction 1 as [|ref key rest keys Hk _ IH]; intros seen n Hnd.
  - exists seen, n. simpl. repeat split; auto; tauto.
  - simpl. rewrite Hk.
    destruct (seen_get key seen) eqn:Hs.
    + destruct (IH (seen_merge key (item ref) seen) (S n))
        as (seen' & n' & Hl & Hnd' & Hin).
      { now rewrite seen_merge_keys. }
      exists seen', n'. repeat split; auto.
      * rewrite Hin, seen_merge_keys. tauto.
      * rewrite Hin, seen_merge_keys. intros [H|[<-|H]]; auto.
        left. apply seen_get_keys. congruence.
    + destruct (IH (seen ++ [(key, item ref)]) n)
        as (seen' & n' & Hl & Hnd' & Hin).
      { rewrite map_app. simpl.
        apply NoDup_app; auto.
        - repeat constructor. simpl. tauto.
        - intros k Hk1 [<-|[]]. apply seen_get_keys in Hk1. congruence. }
      exists seen', n'. repeat split; auto.
      * rewrite Hin, map_app, in_app_iff. simpl. tauto.
      * rewrite Hin, map_app, in_app_iff. simpl. tauto.
Qed.

End Dedupe.

(** X1: the statistics of a run add up: the records that [normalizeRefs]
    returns and the duplicates it counts are together as many as the
    references it was given. *)
Theorem normalizeRefs_counts lc refs items n :
  Normalize.normalizeRefs lc refs = Some (items, n) ->
  length items + n = length refs.
Proof.
  unfold Normalize.normalizeRefs, Normalize.deduplicateItems.
  destruct (Normalize.dedupe_loop refs [] 0) as [[seen m]|] eqn:Hd;
    [|discriminate].
  destruct (Normalize.sortItems lc _) as [sorted|] eqn:Hs; [|discriminate].
  intros [= <- <-].
  apply sort_perm, Permutation_length in Hs.
  apply dedupe_loop_count in Hd.
  rewrite <- Hs, !length_map. simpl in Hd. lia.
Qed.

Lemma normalizeRefs_counts_witness :
  exists items n,
    Normalize.normalizeRefs codeunit_compare Samples.cited = Some (items, n) /\
    n = 1 /\ length items + n = length Samples.cited.
Proof.
  eexists. eexists. split; [vm_compute; reflexivity|].
  split; [reflexivity|].
  apply (@normalizeRefs_counts codeunit_compare). vm_compute. reflexivity.
Defined.

(** X2: [deduplicateItems] keeps one record for each distinct key: when
    every reference has a key, the result is defined, it has as many
    records as there are distinct keys, and the rest is counted as
    duplicates. *)
Theorem deduplicateItems_distinct_keys refs keys :
  Forall2 (fun r k => Normalize.generateDedupeKey (item r) = Some k)
    refs keys ->
  exists unique n,
    Normalize.deduplicateItems refs = Some (unique, n) /\
    length unique = length (nodup (list_eq_dec ascii_dec) keys) /\
    length unique + n = length refs.
Proof.
  intros Hk. unfold Normalize.deduplicateItems.
  destruct (dedupe_loop_keys Hk [] 0) as (seen & n & Hl & Hnd & Hin);
    [constructor|].
  rewrite Hl. exists (map snd seen), n. split; [reflexivity|].
  apply dedupe_loop_count in Hl. rewrite length_map. split; [|simpl in Hl; lia].
  rewrite <- (length_map fst seen). apply Permutation_length.
  apply NoDup_Permutation; auto using NoDup_nodup.
  intros k. rewrite nodup_In, Hin. simpl. tauto.
Qed.

Lemma deduplicateItems_distinct_keys_witness :
  exists unique n,
    Normalize.deduplicateItems Samples.cited = Some (unique, n) /\
    length unique =
      length (nodup (list_eq_dec ascii_dec)
                ["doi:10.1234/test.2023.001"; "key:smith|2023|thegreatbook";
                 "doi:10.1234/test.2023.001"]) /\
    length unique + n = length Samples.cited.
Proof.
  apply deduplicateItems_distinct_keys.
  repeat constructor.
Defined.

Lemma dedupe_loop_fresh refs keys :
  Forall2 (fun r k => Normalize.generateDedupeKey (item r) = Some k)
    refs keys ->
  NoDup keys ->
  forall seen n,
    (forall k, In k keys -> ~ In k (map fst seen)) ->
    Normalize.dedupe_loop refs seen n =
      Some (seen ++ combine keys (map item refs), n).
Proof.
  induction 1 as [|ref key rest keys Hk _ IH]; intros Hnd seen n Hfresh.
  - simpl. now rewrite app_nil_r.
  - inversion Hnd as [|? ? Hnotin Hnd']; subst. simpl. rewrite Hk.
    destruct (Normalize.seen_get key seen) eqn:Hs.
    + exfalso. apply (Hfresh key); [now left|].
      apply seen_get_keys. congruence.
    + rewrite IH; auto.
      * now rewrite <- app_assoc.
      * intros k Hin. rewrite map_app, in_app_iff. simpl.
        intros [H|[<-|[]]]; [|contradiction].
        apply (Hfresh k); auto. now right.
Qed.

(** X3: references with pairwise distinct keys pass [deduplicateItems]
    unchanged and in their order, and no duplicate is counted. *)
Theorem deduplicateItems_no_duplicates refs keys :
  Forall2 (fun r k => Normalize.generateDedupeKey (item r) = Some k)
    refs keys ->
  NoDup keys ->
  Normalize.deduplicateItems refs = Some (map item refs, 0).
Proof.
  intros Hk Hnd. unfold Normalize.deduplicateItems.
  rewrite (dedupe_loop_fresh Hk Hnd) by (intros k _ []).
  simpl. f_equal. f_equal.
  clear Hnd. induction Hk; simpl; congruence.
Qed.

Lemma deduplicateItems_no_duplicates_witness :
  Normalize.deduplicateItems
    [Samples.ref_of Examples.greatBook; Samples.ref_of Examples.sampleItem] =
    Some ([Examples.greatBook; Examples.sampleItem], 0).
Proof.
  apply (@deduplicateItems_no_duplicates
           [Samples.ref_of Examples.greatBook;
            Samples.ref_of Examples.sampleItem]
           ["key:smith|2023|thegreatbook"; "doi:10.1234/test.2023.001"]).
  - repeat constructor.
  - repeat constructor; simpl; intuition discriminate.
Defined.

Lemma dropWhile_repeat (f : ascii -> bool) c n s :
  f c = true -> Str.dropWhile f (repeat c n ++ s) = Str.dropWhile f s.
Proof. intros H. induction n; simpl; auto. now rewrite H. Qed.

Lemma rev_repeat (c : ascii) n : rev (repeat c n) = repeat c n.
Proof.
  induction n; simpl; auto. rewrite IHn.
  clear IHn. induction n; simpl; auto. now f_equal.
Qed.

Lemma normalizeUrl_slashes u u' n :
  Str.toLowerCase u' = Str.toLowerCase u ->
  Normalize.normalizeUrl (u' ++ repeat "/"%char n) = Normalize.normalizeUrl u.
Proof.
  intros H. unfold Normalize.normalizeUrl, Str.dropWhileEnd. f_equal. f_equal.
  rewrite toLowerCase_app, H, rev_app_distr.
  replace (Str.toLowerCase (repeat "/"%char n)) with (repeat "/"%char n)
    by (unfold Str.toLowerCase; now rewrite map_repeat).
  rewrite rev_repeat. now apply dropWhile_repeat.
Qed.

(** X4: a record without DOI is keyed by its URL, whatever its title,
    author and year: the key is [url:] followed by the URL in lower case
    without its trailing slashes, so that URLs that differ in case or in
    trailing slashes give the same key. *)
Theorem generateDedupeKey_url (item item' : obj) (u u' : str) (n : nat) :
  Js.truthy (Obj.get item "DOI") = false ->
  Js.truthy (Obj.get item' "DOI") = false ->
  u <> [] ->
  Obj.get item "URL" = JStr u ->
  Obj.get item' "URL" = JStr (u' ++ repeat "/"%char n) ->
  Str.toLowerCase u' = Str.toLowerCase u ->
  Normalize.generateDedupeKey item = Some ("url:" ++ Normalize.normalizeUrl u) /\
  Normalize.generateDedupeKey item' = Normalize.generateDedupeKey item.
Proof.
  intros Hd Hd' Hu Hurl Hurl' Hlow.
  assert (Hu' : u' ++ repeat "/"%char n <> []).
  { destruct u' as [|c r]; [|discriminate].
    destruct u; [congruence | discriminate]. }
  unfold Normalize.generateDedupeKey. rewrite Hd, Hd', Hurl, Hurl'.
  destruct u as [|c r]; [congruence|].
  destruct (u' ++ repeat "/"%char n) as [|c' r'] eqn:E; [congruence|].
  cbn [Js.truthy Normalize.as_str]. rewrite <- E.
  now rewrite (@normalizeUrl_slashes _ _ n Hlow).
Qed.

Lemma generateDedupeKey_url_witness :
  Normalize.generateDedupeKey
    [("title", JStr "Home"); ("URL", JStr "https://Example.org/Page")] =
    Some ("url:" ++ Normalize.normalizeUrl "https://Example.org/Page") /\
  Normalize.generateDedupeKey
    [("URL", JStr ("HTTPS://example.org/page" ++ repeat "/"%char 2))] =
  Normalize.generateDedupeKey
    [("title", JStr "Home"); ("URL", JStr "https://Example.org/Page")].
Proof.
  apply (@generateDedupeKey_url _ _ "https://Example.org/Page"
           "HTTPS://example.org/page" 2); try reflexivity.
  discriminate.
Defined.

Lemma lower_alnum c : Char.is_alnum_lower c = true -> Char.lower c = c.
Proof.
  unfold Char.is_alnum_lower, Char.lower, Char.has_lower, Char.is_az,
    Char.is_AZ, Char.is_digit, Char.between.
  intros H.
  assert (Hr : 48 <= Char.code c <= 57 \/ 97 <= Char.code c <= 122)
    by (rewrite orb_true_iff, !andb_true_iff, !Nat.leb_le in H; lia).
  destruct (Nat.leb_spec 65 (Char.code c)), (Nat.leb_spec (Char.code c) 90),
    (Nat.leb_spec 192 (Char.code c)); simpl; auto; exfalso; lia.
Qed.

Lemma filter_fixed (A : Type) (f : A -> bool) l :
  forallb f l = true -> filter f l = l.
Proof.
  induction l as [|x r IH]; simpl; auto.
  rewrite andb_true_iff. intros [-> H]. now rewrite IH.
Qed.

Lemma forallb_filter (A : Type) (f : A -> bool) l :
  forallb f (filter f l) = true.
Proof.
  induction l as [|x r IH]; simpl; auto.
  destruct (f x) eqn:E; simpl; auto. now rewrite E.
Qed.

Lemma forallb_firstn (A : Type) (f : A -> bool) n l :
  forallb f l = true -> forallb f (firstn n l) = true.
Proof.
  revert n. induction l as [|x r IH]; intros [|n]; simpl; auto.
  rewrite !andb_true_iff. intros [-> H]. auto.
Qed.

(** X5: the normal form of a title, used in the composite key and in the
    sort order, has at most 100 characters, all of them lower-case letters
    or digits; normalizing it again changes nothing, and a character that
    is neither a letter nor a digit makes no difference wherever it
    stands. *)
Theorem normalizeTitle_normal_form (t : str) :
  length (Normalize.normalizeTitle t) <= 100 /\
  forallb Char.is_alnum_lower (Normalize.normalizeTitle t) = true /\
  Normalize.normalizeTitle (Normalize.normalizeTitle t) =
    Normalize.normalizeTitle t /\
  (forall a c b,
     t = a ++ c :: b -> Char.is_alnum_lower (Char.lower c) = false ->
     Normalize.normalizeTitle t = Normalize.normalizeTitle (a ++ b)).
Proof.
  unfold Normalize.normalizeTitle.
  assert (Hall : forallb Char.is_alnum_lower
                   (firstn 100
                      (filter Char.is_alnum_lower (Str.toLowerCase t))) = true)
    by apply forallb_firstn, forallb_filter.
  split; [apply firstn_le_length|]. split; [exact Hall|]. split.
  - set (x := firstn 100 _) in *.
    assert (Hlow : Str.toLowerCase x = x).
    { unfold Str.toLowerCase. clearbody x.
      induction x as [|c r IH]; simpl in *; auto.
      apply andb_true_iff in Hall as [Hc Hr].
      now rewrite (lower_alnum _ Hc), IH. }
    rewrite Hlow, (filter_fixed _ _ Hall).
    apply firstn_all2. apply firstn_le_length.
  - intros a c b -> Hc. f_equal.
    rewrite !toLowerCase_app, !filter_app.
    change (Str.toLowerCase (c :: b)) with (Char.lower c :: Str.toLowerCase b).
    simpl. now rewrite Hc.
Qed.

Lemma normalizeTitle_normal_form_witness :
  Normalize.normalizeTitle "The Great Book!" =
    Normalize.normalizeTitle ("The Great Book" ++ []).
Proof.
  apply (proj2 (proj2 (proj2 (normalizeTitle_normal_form "The Great Book!")))
           "The Great Book" "!"%char []); reflexivity.
Defined.

Lemma lookup_set_same (o : obj) k v : Obj.lookup k (Obj.set o k v) = Some v.
Proof.
  induction o as [|[k' v'] r IH]; simpl.
  - now rewrite str_eqb_refl.
  - destruct (str_eqb k k') eqn:E; simpl; rewrite E; auto.
Qed.

Lemma merge_field_nonempty target k v :
  Js.is_empty v = false ->
  Normalize.target_empty (Normalize.merge_field target (k, v)) k = false.
Proof.
  intros Hv. simpl. rewrite Hv. simpl.
  destruct (Normalize.target_empty target k) eqn:E; auto.
  unfold Normalize.target_empty. now rewrite lookup_set_same.
Qed.

Lemma merge_field_filled target kv k :
  Normalize.target_empty target k = false ->
  Normalize.target_empty (Normalize.merge_field target kv) k = false.
Proof.
  destruct kv as [key value]. simpl. intros H.
  destruct (negb (Js.is_empty value)); auto.
  destruct (Normalize.target_empty target key) eqn:E; auto.
  unfold Normalize.target_empty. rewrite lookup_set_other; auto.
  intros ->. congruence.
Qed.

Lemma mergeItems_filled source target k :
  Normalize.target_empty target k = false ->
  Normalize.target_empty (Normalize.mergeItems target source) k = false.
Proof.
  unfold Normalize.mergeItems. revert target.
  induction source as [|kv r IH]; simpl; intros target H; auto.
  apply IH. now apply merge_field_filled.
Qed.

Lemma mergeItems_nonempty source target k v :
  In (k, v) source -> Js.is_empty v = false ->
  Normalize.target_empty (Normalize.mergeItems target source) k = false.
Proof.
  unfold Normalize.mergeItems. revert target.
  induction source as [|kv r IH]; simpl; intros target Hin Hv;
    [contradiction|]. destruct Hin as [H|H].
  - subst kv.
    change (fold_left Normalize.merge_field r
              (Normalize.merge_field target (k, v)))
      with (Normalize.mergeItems (Normalize.merge_field target (k, v)) r).
    apply mergeItems_filled. now apply merge_field_nonempty.
  - now apply IH.
Qed.

Lemma mergeItems_fixed source target :
  (forall k v, In (k, v) source -> Js.is_empty v = false ->
               Normalize.target_empty target k = false) ->
  Normalize.mergeItems target source = target.
Proof.
  unfold Normalize.mergeItems.
  induction source as [|[k v] r IH]; simpl; intros H; auto.
  destruct (Js.is_empty v) eqn:Hv; simpl.
  - apply IH. intros k' v' Hin. apply H. now right.
  - rewrite (H k v) by auto. apply IH. intros k' v' Hin. apply H. now right.
Qed.

(** X6: merging the same duplicate a second time changes nothing: after
    [mergeItems(target, source)] the read [target[key]] is not empty for
    every non-empty field [key] of [source] (the field was there, has been
    copied, or is a member that [target] inherits), and a further
    [mergeItems] with [source] leaves [target] as it is. *)
Theorem mergeItems_absorbs (target source : obj) :
  (forall k v, In (k, v) source -> Js.is_empty v = false ->
     Normalize.target_empty (Normalize.mergeItems target source) k = false) /\
  Normalize.mergeItems (Normalize.mergeItems target source) source =
    Normalize.mergeItems target source.
Proof.
  split.
  - intros k v. apply mergeItems_nonempty.
  - apply mergeItems_fixed. intros k v. apply mergeItems_nonempty.
Qed.

Lemma mergeItems_absorbs_witness :
  Normalize.target_empty
    (Normalize.mergeItems Examples.greatBook Samples.sampleAgain)
    "page" = false.
Proof.
  apply (proj1 (mergeItems_absorbs Examples.greatBook Samples.sampleAgain)
           "page" (JStr "1-10")).
  - simpl. tauto.
  - reflexivity.
Defined.

Lemma trim_value_idempotent v :
  Normalize.trim_value (Normalize.trim_value v) = Normalize.trim_value v.
Proof. destruct v; simpl; auto. now rewrite trim_idempotent. Qed.

Lemma assigned_map (f : JsVal -> JsVal) (o : obj) :
  Normalize.assigned (map (fun kv => (fst kv, f (snd kv))) o) =
    map (fun kv => (fst kv, f (snd kv))) (Normalize.assigned o).
Proof.
  unfold Normalize.assigned. induction o as [|[k v] r IH]; simpl; auto.
  destruct (Obj.assignable k); simpl; now rewrite IH.
Qed.

Lemma assigned_idempotent (o : obj) :
  Normalize.assigned (Normalize.assigned o) = Normalize.assigned o.
Proof.
  unfold Normalize.assigned. induction o as [|[k v] r IH]; simpl; auto.
  destruct (Obj.assignable k) eqn:E; simpl; [rewrite E, IH|]; auto.
Qed.

Lemma trimName_idempotent v :
  Normalize.trimName (Normalize.trimName v) = Normalize.trimName v.
Proof.
  unfold Normalize.trimName. f_equal. cbn [Normalize.entries].
  rewrite assigned_map, assigned_idempotent.
  rewrite map_map. apply map_ext. intros [k x]. simpl.
  now rewrite trim_value_idempotent.
Qed.

Lemma trim_field_idempotent v :
  Normalize.trim_field (Normalize.trim_field v) = Normalize.trim_field v.
Proof.
  destruct v as [| | | |s|vs|o]; simpl; auto.
  - now rewrite trim_idempotent.
  - f_equal. rewrite map_map. apply map_ext. intros x.
    destruct (Normalize.is_object x) eqn:E; [|now rewrite E].
    change (Normalize.is_object (Normalize.trimName x)) with true.
    cbv iota. apply trimName_idempotent.
Qed.

(** X7: [trimItem] is idempotent: a record that has been trimmed, with
    the names in its arrays, is not changed by trimming it again. *)
Theorem trimItem_idempotent (it : obj) :
  Normalize.trimItem (Normalize.trimItem it) = Normalize.trimItem it.
Proof.
  unfold Normalize.trimItem. rewrite assigned_map, assigned_idempotent.
  rewrite map_map. apply map_ext.
  intros [k v]. simpl. now rewrite trim_field_idempotent.
Qed.

Section SortAgain.
Variable A : Type.
Variable cmp : A -> A -> option comparison.

Lemma sort_fixed l :
  Sorted (fun x y => exists c, cmp x y = Some c /\ c <> Gt) l ->
  ArraySort.sort cmp l = Some l.
Proof.
  induction 1 as [|x r Hr IH Hhd]; simpl; auto.
  rewrite IH. destruct Hhd as [|y r' (c & Hc & Hgt)]; simpl; auto.
  rewrite Hc. destruct c; congruence.
Qed.

End SortAgain.

Lemma str_eqb_sym a b : str_eqb a b = str_eqb b a.
Proof.
  destruct (str_eqb a b) eqn:E.
  - apply str_eqb_eq in E. subst. now rewrite str_eqb_refl.
  - apply str_eqb_neq in E. symmetry. apply str_eqb_neq. congruence.
Qed.

Lemma compareItems_antisym lc a b c :
  (forall x y, lc y x = CompOpp (lc x y)) ->
  Normalize.compareItems lc a b = Some c ->
  Normalize.compareItems lc b a = Some (CompOpp c).
Proof.
  intros Hanti. unfold Normalize.compareItems.
  destruct (Normalize.getFirstAuthorFamily a) as [authorA|]; [|discriminate].
  destruct (Normalize.getFirstAuthorFamily b) as [authorB|]; [|discriminate].
  rewrite (str_eqb_sym authorB authorA).
  destruct (negb (str_eqb authorA authorB)).
  { intros [= <-]. now rewrite Hanti. }
  destruct (Normalize.extractYear a) as [yearA|]; [|discriminate].
  destruct (Normalize.extractYear b) as [yearB|]; [|discriminate].
  rewrite (str_eqb_sym yearB yearA).
  destruct (negb (str_eqb yearA yearB)).
  { intros [= <-]. now rewrite Hanti. }
  destruct (Normalize.as_str (Normalize.or_empty (Obj.get a "title")));
    [|discriminate].
  destruct (Normalize.as_str (Normalize.or_empty (Obj.get b "title")));
    [|discriminate].
  intros [= <-]. now rewrite Hanti.
Qed.

(** X8: for a collation that is a strict total order, sorting is
    idempotent: the list that [sortItems] returns is returned unchanged
    when it is sorted again. *)
Theorem sortItems_idempotent
  (localeCompare : str -> str -> comparison)
  (lc_eq : forall a b, localeCompare a b = Eq <-> a = b)
  (lc_antisym : forall a b, localeCompare b a = CompOpp (localeCompare a b))
  (lc_trans : forall a b c,
     localeCompare a b = Lt -> localeCompare b c = Lt ->
     localeCompare a c = Lt)
  (items sorted : list obj) :
  Normalize.sortItems localeCompare items = Some sorted ->
  Normalize.sortItems localeCompare sorted = Some sorted.
Proof.
  intros Hs. unfold Normalize.sortItems in *. apply sort_fixed.
  apply (@sort_sorted _ (Normalize.compareItems localeCompare)
           (fun x y => exists c,
              Normalize.compareItems localeCompare x y = Some c /\ c <> Gt))
    with (l := items); auto.
  - intros x y c Hc Hgt. eauto.
  - intros x y Hc. exists Lt. split; [|discriminate].
    now apply (@compareItems_antisym _ _ _ _ lc_antisym) in Hc.
Qed.

Lemma sortItems_idempotent_witness :
  exists sorted,
    Normalize.sortItems codeunit_compare Examples.unsorted = Some sorted /\
    sorted <> Examples.unsorted /\
    Normalize.sortItems codeunit_compare sorted = Some sorted.
Proof.
  eexists. split; [vm_compute; reflexivity|].
  split; [discriminate|].
  apply (@sortItems_idempotent codeunit_compare codeunit_compare_eq
           codeunit_compare_antisym codeunit_compare_trans Examples.unsorted).
  vm_compute. reflexivity.
Defined.

Lemma upper_az c : Char.is_az c = true -> Char.is_AZ (Char.upper c) = true.
Proof.
  destruct c as [[] [] [] [] [] [] [] []]; intros H;
    try discriminate H; reflexivity.
Qed.

Lemma az_not_sharp_s c : Char.is_az c = true -> (Char.code c =? 223) = false.
Proof.
  unfold Char.is_az, Char.between. rewrite andb_true_iff, !Nat.leb_le.
  intros [_ H]. apply Nat.eqb_neq. lia.
Qed.

Lemma capitalize_word s :
  s <> [] -> forallb Char.is_az s = true ->
  capitalized_word (Str.capitalize s).
Proof.
  destruct s as [|c r]; [congruence|]. intros _. simpl.
  rewrite andb_true_iff. intros [Hc Hr].
  exists (Char.upper c), r. unfold Str.capitalize, Str.toUpperCase. simpl.
  unfold Char.upper_units. rewrite (az_not_sharp_s _ Hc).
  auto using upper_az.
Qed.

Lemma first_family_letters first a :
  Normalize.first_family first = Some a -> forallb Char.is_az a = true.
Proof.
  unfold Normalize.first_family.
  destruct (Js.prop first "family") as [fam|]; [|discriminate].
  destruct (Js.truthy fam).
  - destruct (Normalize.as_str fam); [|discriminate].
    intros [= <-]. apply forallb_filter.
  - cbv zeta. destruct (Js.truthy _).
    + destruct (Normalize.as_str _); [|discriminate].
      intros [= <-]. apply forallb_filter.
    + now intros [= <-].
Qed.

Lemma getFirstAuthorFamily_letters it a :
  Normalize.getFirstAuthorFamily it = Some a -> forallb Char.is_az a = true.
Proof.
  unfold Normalize.getFirstAuthorFamily.
  destruct (Obj.get it "author") as [| | | |[|c s]|[|first vs]|author];
    try discriminate; try (now intros [= <-]);
    try apply first_family_letters.
  destruct (Js.positive _) as [[|]|]; try discriminate;
    [apply first_family_letters | now intros [= <-]].
Qed.

Lemma first_title_word_capitalized words :
  capitalized_word (Normalize.first_title_word words).
Proof.
  induction words as [|w r IH]; simpl.
  - exists "U"%char, "ntitled". auto.
  - destruct (_ && _) eqn:E; auto.
    apply andb_true_iff in E as [E _].
    apply capitalize_word; [|apply forallb_filter].
    destruct (filter Char.is_az w); [discriminate | discriminate].
Qed.

(** X9: whenever [generateCiteKey] returns, the key is an author part,
    then the year as [extractYear] gives it, then a title word, and the
    author part and the title word are each one upper-case letter followed
    by lower-case letters: apart from the year the key holds letters
    only. *)
Theorem generateCiteKey_letters (it : obj) (key : str) :
  Normalize.generateCiteKey it = Some key ->
  exists author year word,
    key = author ++ year ++ word /\
    Normalize.extractYear it = Some year /\
    capitalized_word author /\ capitalized_word word.
Proof.
  unfold Normalize.generateCiteKey.
  destruct (Normalize.getFirstAuthorFamily it) as [a|] eqn:Ha; [|discriminate].
  destruct (Normalize.extractYear it) as [year|]; [|discriminate].
  destruct (Normalize.as_str _) as [t|]; [|discriminate].
  intros [= <-]. eexists _, year, _. split; [reflexivity|].
  split; [reflexivity|]. split.
  - apply getFirstAuthorFamily_letters in Ha.
    destruct a as [|c r]; apply capitalize_word; auto; discriminate.
  - apply first_title_word_capitalized.
Qed.

Lemma generateCiteKey_letters_witness :
  exists author year word,
    "Smith2023Great" = author ++ year ++ word /\
    Normalize.extractYear Examples.greatBook = Some year /\
    capitalized_word author /\ capitalized_word word.
Proof.
  apply (@generateCiteKey_letters Examples.greatBook). reflexivity.
Defined.

(** * Further properties of extractors/docx.ts *)

Section Scanner.
Import Docx.

(** Inside a string the scanner runs to the closing quote. *)
Lemma scan_string_sound d s :
  forall i esc j,
    scan s i d true esc = Some j ->
    exists body r,
      (if esc then exists e b, body = e :: b /\ string_body b
       else string_body body) /\
      s = body ++ Json.dquote :: r /\
      scan r (i + S (length body)) d false false = Some j.
Proof.
  induction s as [|c s IH]; intros i esc j; [discriminate|].
  cbn [scan]. destruct esc.
  - intros H. apply IH in H as (body & r & Hb & -> & Hr).
    exists (c :: body), r. split; [eauto|]. split; [reflexivity|].
    now replace (i + S (length (c :: body))) with (S i + S (length body))
      by (simpl; lia).
  - rewrite andb_true_r.
    destruct (Ascii.eqb c Json.backslash) eqn:Eb.
    { apply Ascii.eqb_eq in Eb. subst c.
      intros H. apply IH in H as (body & r & (e & b & -> & Hb) & -> & Hr).
      exists (Json.backslash :: e :: b), r.
      split; [now apply body_escape|]. split; [reflexivity|].
      now replace (i + S (length (Json.backslash :: e :: b)))
        with (S i + S (length (e :: b))) by (simpl; lia). }
    destruct (Ascii.eqb c Json.dquote) eqn:Eq.
    { apply Ascii.eqb_eq in Eq. subst c. simpl. intros H.
      exists [], s. split; [constructor|]. split; [reflexivity|].
      simpl. now rewrite Nat.add_1_r. }
    intros H. apply IH in H as (body & r & Hb & -> & Hr).
    apply Ascii.eqb_neq in Eb, Eq.
    exists (c :: body), r. split; [now apply body_char|].
    split; [reflexivity|].
    now replace (i + S (length (c :: body))) with (S i + S (length body))
      by (simpl; lia).
Qed.

(** Outside a string, at depth [d + 1], the scanner stops on the brace
    that closes the last of the [d + 1] open ones. *)
Lemma scan_sound n :
  forall s, length s <= n ->
  forall i d j,
    scan s i (Z.of_nat (S d)) false false = Some j ->
    exists pre rest,
      s = pre ++ rest /\ closing (S d) pre /\ j + 1 = i + length pre.
Proof.
  induction n as [|n IH]; intros s Hlen i d j.
  { destruct s; [discriminate | simpl in Hlen; lia]. }
  destruct s as [|c s]; [discriminate|]. simpl in Hlen.
  cbn [scan]. rewrite andb_false_r.
  destruct (Ascii.eqb c Json.dquote) eqn:Eq.
  { apply Ascii.eqb_eq in Eq. subst c. simpl. intros H.
    apply scan_string_sound in H as (body & r & Hb & -> & Hr).
    apply IH in Hr as (pre & rest & -> & (b & s' & Hbal & -> & Hs') & Hj).
    2:{ rewrite length_app in Hlen. simpl in Hlen. lia. }
    exists (Json.dquote :: body ++ Json.dquote :: b ++ "}"%char :: s'), rest.
    split; [simpl; repeat (rewrite <- app_assoc; simpl); reflexivity|]. split.
    - exists (Json.dquote :: body ++ Json.dquote :: b), s'.
      split; [now apply bal_string|]. split; auto.
      simpl. now rewrite <- app_assoc.
    - simpl. rewrite !length_app in *. simpl in *.
      rewrite !length_app in *. simpl in *. lia. }
  destruct (Ascii.eqb c "{") eqn:Eo.
  { apply Ascii.eqb_eq in Eo. subst c.
    replace (Z.of_nat (S d) + 1)%Z with (Z.of_nat (S (S d))) by lia.
    intros H.
    apply IH in H
      as (pre & rest & -> & (b0 & s1 & Hb0 & -> & b1 & s2 & Hb1 & -> & Hs2)
          & Hj); [|lia].
    exists ("{"%char :: b0 ++ "}"%char :: b1 ++ "}"%char :: s2), rest.
    split; [reflexivity|]. split.
    - exists ("{"%char :: b0 ++ "}"%char :: b1), s2.
      split; [now apply bal_braces|]. split; auto.
      simpl. now rewrite <- app_assoc.
    - simpl. lia. }
  destruct (Ascii.eqb c "}") eqn:Ec.
  { apply Ascii.eqb_eq in Ec. subst c.
    destruct d as [|d].
    - simpl. intros [= <-]. exists ["}"%char], s.
      split; [reflexivity|]. split; [|simpl; lia].
      exists [], []. split; [constructor|]. split; reflexivity.
    - replace (Z.of_nat (S (S d)) - 1)%Z with (Z.of_nat (S d)) by lia.
      destruct (Z.of_nat (S d) =? 0)%Z eqn:Ez; [apply Z.eqb_eq in Ez; lia|].
      intros H. apply IH in H as (pre & rest & -> & Hpre & Hj); [|lia].
      exists ("}"%char :: pre), rest. split; [reflexivity|]. split.
      + exists [], pre. split; [constructor|]. split; auto.
      + simpl. lia. }
  intros H.
  apply IH in H as (pre & rest & -> & (b & s' & Hb & -> & Hs') & Hj); [|lia].
  apply Ascii.eqb_neq in Eq, Eo, Ec.
  exists (c :: b ++ "}"%char :: s'), rest. split; [reflexivity|]. split.
  - exists (c :: b), s'. split; [now apply bal_char|]. split; auto.
  - simpl. lia.
Qed.

Lemma index_from_some c s pos j :
  index_from c s pos = Some j ->
  exists mid r, s = mid ++ c :: r /\ j = pos + length mid /\ ~ In c mid.
Proof.
  revert pos. induction s as [|x s IH]; simpl; intros pos; [discriminate|].
  destruct (Ascii.eqb x c) eqn:E.
  - apply Ascii.eqb_eq in E. subst x. intros [= <-].
    exists [], s. simpl. split; [reflexivity|]. split; [lia | tauto].
  - intros H. apply IH in H as (mid & r & -> & -> & Hnot).
    apply Ascii.eqb_neq in E.
    exists (x :: mid), r. simpl. split; [reflexivity|]. split; [lia|].
    intros [H|H]; [congruence | contradiction].
Qed.

Lemma findBalancedBrace_sound text start r j :
  skipn start text = "{"%char :: r ->
  findBalancedBrace text start = Some j ->
  exists b post,
    r = b ++ "}"%char :: post /\ balanced b /\ j = start + S (length b).
Proof.
  intros Hs. unfold findBalancedBrace. rewrite Hs. cbn [scan].
  rewrite andb_false_r.
  change (Ascii.eqb "{" Json.dquote) with false. cbv iota.
  rewrite Ascii.eqb_refl. cbn [negb].
  change (0 + 1)%Z with (Z.of_nat 1). intros H.
  apply (@scan_sound (length r) r (le_n _)) in H
    as (pre & rest & Hr & (b & s' & Hb & Hpre & Hs') & Hj).
  simpl in Hs'. subst pre s' r.
  exists b, rest. split; [now rewrite <- app_assoc|]. split; auto.
  rewrite length_app in Hj. simpl in Hj. lia.
Qed.

Lemma block_after_sound text startSearch blk :
  In blk (block_after text startSearch) ->
  exists pre b post,
    text = pre ++ blk ++ post /\ startSearch <= length pre /\
    blk = "{"%char :: b ++ ["}"%char] /\ balanced b.
Proof.
  unfold block_after, indexOf.
  destruct (index_from _ _ _) as [jsonStart|] eqn:Hi; [|contradiction].
  apply index_from_some in Hi as (mid & r & Hsk & -> & _).
  assert (Hs : skipn (startSearch + length mid) text = "{"%char :: r).
  { rewrite <- skipn_skipn, Hsk. apply skipn_app_length. }
  destruct (findBalancedBrace _ _) as [jsonEnd|] eqn:Hf; [|contradiction].
  destruct (findBalancedBrace_sound _ _ Hs Hf) as (b & post & -> & Hb & ->).
  intros [<-|[]]. unfold slice. rewrite Hs.
  replace (startSearch + length mid + S (length b) + 1
           - (startSearch + length mid)) with (S (S (length b))) by lia.
  assert (Hblk : firstn (S (S (length b))) ("{"%char :: b ++ "}"%char :: post)
                 = "{"%char :: b ++ ["}"%char]).
  { rewrite firstn_cons. f_equal.
    change ("}"%char :: post) with (["}"%char] ++ post).
    rewrite app_assoc.
    replace (S (length b)) with (length (b ++ ["}"%char]))
      by (rewrite length_app; simpl; lia).
    apply firstn_app_length. }
  rewrite Hblk.
  exists (firstn (startSearch + length mid) text), b, post.
  split; [|split; [|split; auto]].
  - rewrite <- (firstn_skipn (startSearch + length mid) text) at 1.
    rewrite Hs. f_equal. simpl. now rewrite <- app_assoc.
  - rewrite length_firstn.
    assert (startSearch + length mid < length text); [|lia].
    destruct (Nat.lt_ge_cases (startSearch + length mid) (length text));
      auto.
    rewrite skipn_all2 in Hs by assumption. discriminate.
Qed.

End Scanner.

(** X10: every block that [extractJsonBlocks] returns is a piece of the
    text that starts with an opening brace, ends with the closing brace
    that matches it, and is balanced in between (braces inside strings
    not counted); and there are no more blocks than markers in the
    text. *)
Theorem extractJsonBlocks_sound (text : str) :
  Forall (fun blk =>
            exists pre b post,
              text = pre ++ blk ++ post /\
              blk = "{"%char :: b ++ ["}"%char] /\ Docx.balanced b)
    (Docx.extractJsonBlocks text) /\
  length (Docx.extractJsonBlocks text) <= length (Docx.marker_positions text).
Proof.
  rewrite extractJsonBlocks_positions. split.
  - apply Forall_forall. intros blk Hin.
    apply in_flat_map in Hin as (i & _ & Hin). unfold Docx.block_at in Hin.
    destruct (Docx.marker_at _); [|contradiction].
    apply block_after_sound in Hin as (pre & b & post & H1 & _ & H2 & H3).
    eauto 7.
  - induction (Docx.marker_positions text) as [|i l IH]; simpl; auto.
    rewrite length_app.
    assert (length (Docx.block_at text i) <= 1); [|lia].
    unfold Docx.block_at, Docx.block_after.
    destruct (Docx.marker_at _); simpl; auto.
    destruct (Docx.indexOf _ _ _); simpl; auto.
    destruct (Docx.findBalancedBrace _ _); simpl; auto.
Qed.

(** X11: [findBalancedBrace], called on an opening brace, returns either
    [-1] or the index of a closing brace further on in the text, and the
    text between the two braces is balanced. *)
Theorem findBalancedBrace_closing (text : str) (start j : nat) :
  nth_error text start = Some "{"%char ->
  Docx.findBalancedBrace text start = Some j ->
  start < j < length text /\
  nth_error text j = Some "}"%char /\
  Docx.balanced (Docx.slice text (start + 1) j).
Proof.
  intros Hn Hf.
  assert (Hs : exists r, skipn start text = "{"%char :: r).
  { clear Hf. revert start Hn.
    induction text as [|c t IH]; intros [|start]; simpl; try discriminate.
    - intros [= ->]. eauto.
    - apply IH. }
  destruct Hs as [r Hs].
  destruct (findBalancedBrace_sound _ _ Hs Hf) as (b & post & -> & Hb & ->).
  assert (Ht : text = firstn start text ++ "{"%char :: b ++ "}"%char :: post)
    by (rewrite <- Hs; symmetry; apply firstn_skipn).
  assert (Hl : length (firstn start text) = start).
  { apply firstn_length_le.
    apply Nat.lt_le_incl, nth_error_Some. congruence. }
  assert (Hsl : Docx.slice text (start + 1) (start + S (length b)) = b).
  { unfold Docx.slice. rewrite <- (skipn_skipn text 1 start), Hs.
    replace (start + S (length b) - (start + 1)) with (length b) by lia.
    cbn [skipn]. apply firstn_app_length. }
  rewrite Hsl. clear Hsl Hs Hn Hf.
  set (pre0 := firstn start text) in *. clearbody pre0. subst text.
  split; [|split; [|exact Hb]].
  - split; [lia|]. rewrite length_app. simpl. rewrite length_app. simpl. lia.
  - rewrite nth_error_app2 by lia. rewrite Hl.
    replace (start + S (length b) - start) with (S (length b)) by lia.
    cbn [nth_error]. rewrite nth_error_app2 by lia.
    now replace (length b - length b) with 0 by lia.
Qed.

Lemma findBalancedBrace_closing_witness :
  let text := "x {a{b}c} y" in
  2 < 8 < length text /\
  nth_error text 8 = Some "}"%char /\
  Docx.balanced (Docx.slice text (2 + 1) 8).
Proof.
  apply findBalancedBrace_closing; reflexivity.
Defined.

(** * Further properties of extractors/pdf.ts *)

Section Tei.
Import Pdf.

Lemma identifier_field_In t f :
  identifier_field t = Some f -> In f identifier_fields.
Proof.
  unfold identifier_field, identifier_fields.
  repeat (match goal with
          | |- context [if ?b then _ else _] => destruct b
          end; [intros [= <-]; simpl; tauto|]).
  discriminate.
Qed.

(** What one turn of [extractIdentifiers] does to a field. *)
Lemma add_identifier_field item id item' k :
  add_identifier item id = Some item' ->
  Obj.get item' k = Obj.get item k \/
  (In k identifier_fields /\ Obj.get item' k = extractText id /\
   Js.truthy (extractText id) = true).
Proof.
  unfold add_identifier.
  destruct (Normalize.is_object id); [|intros [= <-]; auto].
  destruct (negb (Js.truthy (Js.oprop id "@_type"))); simpl;
    [intros [= <-]; auto|].
  destruct (negb (Js.truthy (extractText id))) eqn:Hv; simpl;
    [intros [= <-]; auto|].
  apply negb_false_iff in Hv.
  destruct (Js.oprop id "@_type"); try discriminate.
  destruct (identifier_field s) as [f|] eqn:Hf; intros [= <-]; auto.
  destruct (list_eq_dec ascii_dec f k) as [<-|Hne].
  - right. rewrite get_set_same. apply identifier_field_In in Hf. auto.
  - left. now apply get_set_other.
Qed.

Lemma add_identifiers_field ids item item' k :
  add_identifiers item ids = Some item' ->
  Obj.get item' k = Obj.get item k \/
  (In k identifier_fields /\
   exists t, Obj.get item' k = JStr t /\ t <> [] /\ Str.trim t = t).
Proof.
  revert item. induction ids as [|id r IH]; simpl; intros item.
  - intros [= <-]. auto.
  - destruct (add_identifier item id) as [item1|] eqn:H1; [|discriminate].
    intros H. destruct (IH _ H) as [Heq|Hset]; auto.
    rewrite Heq.
    destruct (add_identifier_field _ _ k H1) as [|(Hin & Hv & Ht)]; auto.
    right. split; auto. rewrite Hv.
    apply text_titled; auto. apply extractText_result.
Qed.

Lemma extractIdentifiers_other o item item' k :
  extractIdentifiers o item = Some item' ->
  ~ In k late_fields ->
  Obj.get item' k = Obj.get item k.
Proof.
  unfold extractIdentifiers. intros H Hk. revert H.
  destruct (negb _); [now intros [= <-]|]. intros H.
  destruct (add_identifiers_field _ _ k H) as [|[Hin _]]; auto.
  exfalso. apply Hk. unfold late_fields. apply in_app_iff. now right.
Qed.

Lemma set_if_late item f v k :
  In f late_fields -> ~ In k late_fields ->
  Obj.get (set_if item f v) k = Obj.get item k.
Proof.
  intros Hf Hk. apply set_if_other. intros ->. contradiction.
Qed.

Lemma set_authors_other item authors k :
  ~ In k late_fields ->
  Obj.get (set_authors item authors) k = Obj.get item k.
Proof.
  intros Hk. destruct authors; simpl; auto.
  apply get_set_other. intros <-. apply Hk. simpl. tauto.
Qed.

Lemma set_date_other item date item' k :
  set_date item date = Some item' -> ~ In k late_fields ->
  Obj.get item' k = Obj.get item k.
Proof.
  unfold set_date. intros H Hk. revert H.
  destruct (Js.truthy date); [|now intros [= <-]].
  cbv zeta. destruct (Js.truthy _); [|now intros [= <-]].
  destruct (year_of date); try discriminate.
  destruct (Str.parseInt10 _); intros [= <-]; auto.
  apply get_set_other. intros <-. apply Hk. simpl. tauto.
Qed.

Lemma from_imprint_other item imprint item' k :
  from_imprint item imprint = Some item' -> ~ In k late_fields ->
  Obj.get item' k = Obj.get item k.
Proof.
  unfold from_imprint. intros H Hk. revert H.
  destruct (Js.truthy imprint); [|now intros [= <-]].
  destruct (extractTextOf _ "volume"); [|discriminate].
  destruct (extractTextOf _ "issue"); [|discriminate].
  destruct (extractTextOf _ "page"); [|discriminate].
  destruct (set_date _ _) as [item4|] eqn:Hd; [|discriminate].
  intros [= <-]. apply (set_date_other _ _ Hd) in Hk as Hd'.
  rewrite set_if_late, Hd', !set_if_late; auto; simpl; tauto.
Qed.

End Tei.

(** X12: [extractIdentifiers] writes identifier fields only: in the record
    it returns, every field either has the value it had, or it is one of
    [DOI], [PMID], [PMCID], [ISSN], [ISBN] and holds a non-empty text
    without white space around it. *)
Theorem extractIdentifiers_writes_identifiers
        (o : JsVal) (item item' : obj) (k : str) :
  Pdf.extractIdentifiers o item = Some item' ->
  Obj.get item' k = Obj.get item k \/
  (In k identifier_fields /\
   exists t, Obj.get item' k = JStr t /\ t <> [] /\ Str.trim t = t).
Proof.
  unfold Pdf.extractIdentifiers.
  destruct (negb (Js.truthy (Js.oprop o "idno"))).
  - intros [= <-]. now left.
  - apply add_identifiers_field.
Qed.

Lemma extractIdentifiers_writes_identifiers_witness :
  let item' := [("type", JStr "article-journal");
                ("DOI", JStr "10.1038/nature14539")] in
  Obj.get item' "DOI" = Obj.get [("type", JStr "article-journal")] "DOI" \/
  (In "DOI" identifier_fields /\
   exists t, Obj.get item' "DOI" = JStr t /\ t <> [] /\ Str.trim t = t).
Proof.
  apply (@extractIdentifiers_writes_identifiers
           (Js.oprop tei_article "analytic")
           [("type", JStr "article-journal")]).
  reflexivity.
Defined.

Section TeiEntry.
Import Pdf.

Lemma early_field k :
  In k ["type"; "title"; "container-title"] -> ~ In k late_fields.
Proof.
  intros [<-|[<-|[<-|[]]]]; unfold late_fields, identifier_fields; simpl;
    intuition discriminate.
Qed.

Lemma from_analytic_early item analytic item' k :
  from_analytic item analytic = Some item' -> ~ In k late_fields ->
  Obj.get item' k =
    Obj.get (if Js.truthy analytic
             then set_if item "title" (extractText (Js.oprop analytic "title"))
             else item) k.
Proof.
  unfold from_analytic. intros H Hk. revert H.
  destruct (Js.truthy analytic); [|now intros [= <-]].
  intros H. rewrite (extractIdentifiers_other _ _ H Hk).
  now apply set_authors_other.
Qed.

Lemma from_monogr_early item monogr item' k :
  from_monogr item monogr = Some item' -> ~ In k late_fields ->
  Obj.get item' k =
    Obj.get
      (if Js.truthy monogr then
         let containerTitle := extractText (Js.oprop monogr "title") in
         let item1 := set_if item "container-title" containerTitle in
         if negb (Js.truthy (Obj.get item1 "title"))
         then Obj.set (Obj.set item1 "title" containerTitle) "type"
                (JStr "book")
         else item1
       else item) k.
Proof.
  unfold from_monogr. intros H Hk. revert H.
  destruct (Js.truthy monogr); [|now intros [= <-]].
  cbv zeta.
  destruct (from_imprint _ _) as [item3|] eqn:Hi; [|discriminate].
  intros H. rewrite (extractIdentifiers_other _ _ H Hk).
  rewrite <- (from_imprint_other _ _ Hi Hk).
  destruct (negb (Js.truthy (Obj.get item3 "author"))); auto.
  now apply set_authors_other.
Qed.

End TeiEntry.

(** X13: a record of [biblStructToCsl] is an article or a book.  When the
    analytic part gives a title, the record keeps the type
    [article-journal] with that title, and the monograph title, if any, is
    its container title; otherwise the record has the type [book], and the
    monograph title is both its title and its container title. *)
Theorem biblStructToCsl_article_or_book (bibl : JsVal) (it : obj) :
  Pdf.biblStructToCsl bibl = Some (Some it) ->
  let analytic := Js.oprop bibl "analytic" in
  let monogr := Js.oprop bibl "monogr" in
  let articleTitle :=
    if Js.truthy analytic
    then Pdf.extractText (Js.oprop analytic "title") else JUndef in
  let containerTitle :=
    if Js.truthy monogr
    then Pdf.extractText (Js.oprop monogr "title") else JUndef in
  (Js.truthy articleTitle = true /\
   Obj.get it "type" = JStr "article-journal" /\
   Obj.get it "title" = articleTitle /\
   Obj.get it "container-title" =
     if Js.truthy containerTitle then containerTitle else JUndef) \/
  (Js.truthy articleTitle = false /\
   Obj.get it "type" = JStr "book" /\
   Obj.get it "title" = containerTitle /\
   Obj.get it "container-title" = containerTitle).
Proof.
  unfold Pdf.biblStructToCsl.
  destruct (Normalize.is_object bibl); [|discriminate].
  destruct (Pdf.from_analytic _ _) as [item1|] eqn:H1; [|discriminate].
  destruct (Pdf.from_monogr _ _) as [item2|] eqn:H2; [|discriminate].
  destruct (Pdf.extractIdentifiers _ _) as [item3|] eqn:H3; [|discriminate].
  destruct (negb _) eqn:Ht; [discriminate|]. intros [= <-].
  apply negb_false_iff in Ht. cbv zeta.
  assert (Hk : forall k, In k ["type"; "title"; "container-title"] ->
                 Obj.get item3 k =
                 Obj.get
                   (if Js.truthy (Js.oprop bibl "monogr") then
                      let containerTitle :=
                        Pdf.extractText
                          (Js.oprop (Js.oprop bibl "monogr") "title") in
                      let item1' :=
                        Pdf.set_if item1 "container-title" containerTitle in
                      if negb (Js.truthy (Obj.get item1' "title"))
                      then Obj.set (Obj.set item1' "title" containerTitle)
                             "type" (JStr "book")
                      else item1'
                    else item1) k).
  { intros k Hin. apply early_field in Hin.
    rewrite (extractIdentifiers_other _ _ H3 Hin).
    apply (from_monogr_early _ _ H2 Hin). }
  assert (H1k : forall k, In k ["type"; "title"; "container-title"] ->
                  Obj.get item1 k =
                  Obj.get
                    (if Js.truthy (Js.oprop bibl "analytic")
                     then Pdf.set_if [("type", JStr "article-journal")] "title"
                            (Pdf.extractText
                               (Js.oprop (Js.oprop bibl "analytic") "title"))
                     else [("type", JStr "article-journal")]) k).
  { intros k Hin. apply early_field in Hin.
    apply (from_analytic_early _ _ H1 Hin). }
  clear H1 H2 H3.
  rewrite (Hk "title") in Ht by (simpl; tauto).
  rewrite (Hk "type"), (Hk "title"), (Hk "container-title") by (simpl; tauto).
  clear Hk.
  set (a := Js.truthy (Js.oprop bibl "analytic")) in *.
  set (m := Js.truthy (Js.oprop bibl "monogr")) in *.
  set (at_ := Pdf.extractText (Js.oprop (Js.oprop bibl "analytic") "title"))
    in *.
  set (ct := Pdf.extractText (Js.oprop (Js.oprop bibl "monogr") "title"))
    in *.
  assert (T1 : Obj.get item1 "title" =
               if a && Js.truthy at_ then at_ else JUndef).
  { rewrite H1k by (simpl; tauto). unfold Pdf.set_if.
    destruct a; [|reflexivity]. destruct (Js.truthy at_); reflexivity. }
  assert (Y1 : Obj.get item1 "type" = JStr "article-journal").
  { rewrite H1k by (simpl; tauto). unfold Pdf.set_if.
    destruct a; [|reflexivity]. destruct (Js.truthy at_); reflexivity. }
  assert (C1 : Obj.get item1 "container-title" = JUndef).
  { rewrite H1k by (simpl; tauto). unfold Pdf.set_if.
    destruct a; [|reflexivity]. destruct (Js.truthy at_); reflexivity. }
  clear H1k. cbv zeta in *.
  assert (T1' : Obj.get (Pdf.set_if item1 "container-title" ct) "title" =
                Obj.get item1 "title")
    by (apply set_if_other; discriminate).
  assert (Y1' : Obj.get (Pdf.set_if item1 "container-title" ct) "type" =
                Obj.get item1 "type")
    by (apply set_if_other; discriminate).
  assert (C1' : Obj.get (Pdf.set_if item1 "container-title" ct)
                  "container-title" =
                if Js.truthy ct then ct else JUndef).
  { unfold Pdf.set_if. destruct (Js.truthy ct); auto. apply get_set_same. }
  rewrite T1' in *.
  destruct a, (Js.truthy at_) eqn:Eat; cbn [andb] in T1;
    rewrite T1 in *; cbn [Js.truthy negb] in *;
    try rewrite Eat in *; cbn [negb] in *;
    destruct m; cbn [Js.truthy] in *;
    try (rewrite T1 in Ht; simpl in Ht; discriminate Ht).
  all: try (left; split; [reflexivity|];
            rewrite ?Y1', ?C1', ?T1', ?Y1, ?C1, ?T1; auto).
  all: right; split; [reflexivity|];
    rewrite get_set_same in *;
    rewrite !(get_set_other _ _ (k' := "title")) in * by discriminate;
    rewrite !(get_set_other _ _ (k' := "container-title")) by discriminate;
    rewrite get_set_same in *; rewrite C1'; rewrite Ht; auto.
Qed.

Lemma biblStructToCsl_article_or_book_witness :
  exists it,
    Pdf.biblStructToCsl tei_book = Some (Some it) /\
    Obj.get it "title" = JStr "The Art of Proof" /\
    let analytic := Js.oprop tei_book "analytic" in
    let monogr := Js.oprop tei_book "monogr" in
    let articleTitle :=
      if Js.truthy analytic
      then Pdf.extractText (Js.oprop analytic "title") else JUndef in
    let containerTitle :=
      if Js.truthy monogr
      then Pdf.extractText (Js.oprop monogr "title") else JUndef in
    (Js.truthy articleTitle = true /\
     Obj.get it "type" = JStr "article-journal" /\
     Obj.get it "title" = articleTitle /\
     Obj.get it "container-title" =
       if Js.truthy containerTitle then containerTitle else JUndef) \/
    (Js.truthy articleTitle = false /\
     Obj.get it "type" = JStr "book" /\
     Obj.get it "title" = containerTitle /\
     Obj.get it "container-title" = containerTitle).
Proof.
  eexists. split; [vm_compute; reflexivity|]. split; [reflexivity|].
  apply (@biblStructToCsl_article_or_book tei_book). vm_compute. reflexivity.
Defined.

(** X23: [extractText] with a [type] reads a list of elements from the
    front: elements whose [@_unit] and [@_type] are both different from
    the type are passed over, so that the first matching element with a
    text decides; and a [null] element that is reached before any such
    match makes the call raise. *)
Theorem extractTextOf_first_match (skip rest : list JsVal) (type : str) :
  Forall (fun el => Pdf.has_type el type = Some false) skip ->
  Pdf.extractTextOf (JArr (skip ++ rest)) type =
    Pdf.extractTextOf (JArr rest) type /\
  Pdf.extractTextOf (JArr (skip ++ JNull :: rest)) type = None /\
  (forall el,
     Pdf.has_type el type = Some true ->
     Js.truthy (Pdf.extractText el) = true ->
     Pdf.extractTextOf (JArr (skip ++ el :: rest)) type =
       Some (Pdf.extractText el)).
Proof.
  intros Hskip. unfold Pdf.extractTextOf. cbn [Js.truthy negb].
  split; [|split].
  - induction Hskip as [|el r Hel _ IH]; [reflexivity|].
    cbn [app]. now rewrite Hel.
  - induction Hskip as [|el r Hel _ IH]; [reflexivity|].
    cbn [app]. now rewrite Hel.
  - intros el Hty Htext.
    induction Hskip as [|x r Hx _ IH].
    + cbn [app]. now rewrite Hty, Htext.
    + cbn [app]. now rewrite Hx.
Qed.

Lemma extractTextOf_first_match_witness :
  let scopes :=
    [JObj [("#text", JNum 521); ("@_unit", JStr "volume")];
     JObj [("#text", JNum 7553); ("@_unit", JStr "issue")]] in
  Pdf.extractTextOf
    (JArr ([JObj [("#text", JNum 521); ("@_unit", JStr "volume")]]
           ++ [JObj [("#text", JNum 7553); ("@_unit", JStr "issue")]]))
    "issue" =
    Pdf.extractTextOf
      (JArr [JObj [("#text", JNum 7553); ("@_unit", JStr "issue")]])
      "issue" /\
  Pdf.extractTextOf (JArr scopes) "page" = Some JUndef.
Proof.
  intros scopes. split; [|reflexivity].
  apply (@extractTextOf_first_match
           [JObj [("#text", JNum 521); ("@_unit", JStr "volume")]]
           [JObj [("#text", JNum 7553); ("@_unit", JStr "issue")]] "issue").
  constructor; [reflexivity | constructor].
Defined.

(** X24: [extractAuthors] never returns a name without content: every
    author is either a given and a family name, at least one of them a
    non-empty text, or a non-empty literal name; there is at most one
    author for each element, and none for an absent element. *)
Theorem extractAuthors_named (authorElement : JsVal) :
  Forall (fun a =>
            (exists family given,
               a = JObj [("family", family); ("given", given)] /\
               Pdf.text_result family /\ Pdf.text_result given /\
               Js.truthy family || Js.truthy given = true) \/
            (exists name,
               a = JObj [("literal", JStr name)] /\ name <> [] /\
               Str.trim name = name))
    (Pdf.extractAuthors authorElement) /\
  length (Pdf.extractAuthors authorElement)
    <= length (Pdf.as_list authorElement) /\
  (Js.truthy authorElement = false -> Pdf.extractAuthors authorElement = []).
Proof.
  unfold Pdf.extractAuthors.
  destruct (Js.truthy authorElement); cbn [negb];
    [|split; [constructor | split; [simpl; lia | reflexivity]]].
  split; [|split; [|discriminate]].
  - apply Forall_forall. intros a Ha.
    apply in_flat_map in Ha as (el & _ & Ha). revert Ha.
    unfold Pdf.author_of.
    destruct (Normalize.is_object el); [|contradiction].
    destruct (Js.truthy (Js.oprop el "persName")).
    + destruct (_ || _) eqn:E; [|contradiction].
      intros [<-|[]]. left. eexists _, _. split; [reflexivity|].
      split; [apply extractText_result|].
      split; [apply extractText_result | exact E].
    + destruct (Js.truthy (Pdf.extractText el)) eqn:E; [|contradiction].
      intros [<-|[]]. right.
      destruct (text_titled (extractText_result el) E)
        as (t & -> & Hne & Htrim).
      eauto.
  - induction (Pdf.as_list authorElement) as [|el r IH]; [simpl; lia|].
    cbn [flat_map]. rewrite length_app. simpl.
    assert (length (Pdf.author_of el) <= 1); [|lia].
    unfold Pdf.author_of.
    repeat match goal with
           | |- context [if ?b then _ else _] => destruct b
           end; simpl; lia.
Qed.

Lemma extractAuthors_named_witness :
  Js.truthy (JStr []) = false /\ Pdf.extractAuthors (JStr []) = [].
Proof.
  split; [reflexivity|].
  apply (proj2 (proj2 (extractAuthors_named (JStr [])))). reflexivity.
Defined.

Section Search.
Import Pdf.

Lemma findElements_entered name v c x :
  entered v c -> In x (findElements name c) ->
  In x (match v with
        | JArr items =>
            (fix all (l' : list JsVal) : list JsVal :=
               match l' with
               | [] => []
               | y :: r' => findElements name y ++ all r'
               end) items
        | JObj _ => findElements name v
        | _ => []
        end).
Proof.
  destruct v as [| | | | |items|o]; simpl; try contradiction.
  - intros Hin Hx. induction items as [|y r IH]; [contradiction|].
    apply in_app_iff. destruct Hin as [->|Hin]; auto.
  - now intros ->.
Qed.

Lemma findElements_child name n c x :
  child n c -> In x (findElements name c) -> In x (findElements name n).
Proof.
  destruct n as [| | | | |vs|o]; simpl; try contradiction.
  - intros (v & Hv & He) Hx.
    induction vs as [|w r IH]; [contradiction|].
    apply in_app_iff. destruct Hv as [->|Hv]; [left | right; auto].
    now apply (@findElements_entered name v c).
  - intros (k & v & Hv & He) Hx. apply in_app_iff. right.
    induction o as [|[k' w] r IH]; [contradiction|].
    apply in_app_iff. destruct Hv as [[= -> ->]|Hv]; [left | right; auto].
    now apply (@findElements_entered name v c).
Qed.

End Search.

(** X25: [findElements] misses nothing on its way: for every object that
    the search visits, at any depth below the starting node and through
    arrays, and that has the property [name], the value of the property,
    or each of its elements when it is an array, is among the results. *)
Theorem findElements_complete (name : str) (doc : JsVal) (o : obj)
        (value x : JsVal) :
  visited doc (JObj o) ->
  Obj.lookup name o = Some value ->
  In x (Pdf.as_list value) ->
  In x (Pdf.findElements name doc).
Proof.
  intros Hv Hl Hx.
  assert (Hown : In x (Pdf.findElements name (JObj o))).
  { cbn [Pdf.findElements]. rewrite Hl. apply in_app_iff. now left. }
  clear Hl Hx. remember (JObj o) as n eqn:En. clear En. revert Hown.
  induction Hv as [|m c _ IH Hc]; intros Hown; [exact Hown|].
  apply IH. now apply (@findElements_child name m c).
Qed.

Lemma findElements_complete_witness :
  In tei_book
    (Pdf.findElements "biblStruct"
       (JObj [("TEI",
               JObj [("text",
                      JArr [JObj [("listBibl",
                                   JObj [("biblStruct",
                                          JArr [tei_article;
                                                tei_book])])]])])])).
Proof.
  apply (@findElements_complete "biblStruct" _
           [("biblStruct", JArr [tei_article; tei_book])]
           (JArr [tei_article; tei_book])).
  - eapply visited_step;
      [eapply visited_step; [eapply visited_step; [apply visited_start|]|]|].
    + simpl. eexists _, _. split; [left; reflexivity | reflexivity].
    + simpl. eexists _, _. split; [left; reflexivity|].
      simpl. left. reflexivity.
    + simpl. eexists _, _. split; [left; reflexivity | reflexivity].
  - reflexivity.
  - simpl. tauto.
Defined.

(** * Further properties of convert/citationJs.ts *)

Section PostProcess.
Import Convert.

Lemma replace_keys_no_entry id newKey s :
  ~ In "@"%char s ->
  forall done, replace_keys id newKey done s 0 = s.
Proof.
  induction s as [|c r IH]; intros Hat done; [reflexivity|].
  cbn [replace_keys].
  assert (Hm : match_key id (c :: r) = None).
  { unfold match_key. destruct (Ascii.eqb c "@") eqn:E; auto.
    apply Ascii.eqb_eq in E. subst. exfalso. apply Hat. now left. }
  rewrite Hm. f_equal. apply IH. intros H. apply Hat. now right.
Qed.

End PostProcess.

(** X14: [postProcessBibTeX] only rewrites entry headers: a text without
    the character [@] comes back unchanged, whatever the records are, as
    long as each of them has a cite key. *)
Theorem postProcessBibTeX_no_entry (bibtex : str) (items : list obj) :
  ~ In "@"%char bibtex ->
  Forall (fun it => exists key, Normalize.generateCiteKey it = Some key)
    items ->
  Convert.postProcessBibTeX bibtex items = Some bibtex.
Proof.
  intros Hat. induction 1 as [|it r [key Hk] _ IH]; [reflexivity|].
  cbn [Convert.postProcessBibTeX]. rewrite Hk.
  now rewrite replace_keys_no_entry.
Qed.

Lemma postProcessBibTeX_no_entry_witness :
  Convert.postProcessBibTeX "% no entries" [Convert.record_with_id] =
    Some "% no entries".
Proof.
  apply postProcessBibTeX_no_entry.
  - simpl. intuition discriminate.
  - repeat constructor. eexists. reflexivity.
Defined.

Lemma join_lines (nl : str) (lines : list str) (last : str) :
  Str.join nl (lines ++ [last; []]) =
    concat (map (fun l => l ++ nl) (lines ++ [last])).
Proof.
  induction lines as [|l r IH].
  - simpl. now rewrite !app_nil_r.
  - change ((l :: r) ++ [last; []]) with (l :: (r ++ [last; []])).
    change ((l :: r) ++ [last]) with (l :: (r ++ [last])).
    cbn [map concat]. rewrite <- IH, <- app_assoc.
    destruct r; reflexivity.
Qed.

Section SingleLine.
Import Convert.

Local Abbreviation clean := (Str.free_of newline).

Lemma free_of_join bad sep parts :
  Str.free_of bad sep = true ->
  Forall (fun p => Str.free_of bad p = true) parts ->
  Str.free_of bad (Str.join sep parts) = true.
Proof.
  intros Hsep. induction 1 as [|p r Hp Hr IH]; [reflexivity|].
  destruct r as [|q r]; [exact Hp|].
  change (Str.join sep (p :: q :: r)) with (p ++ sep ++ Str.join sep (q :: r)).
  now rewrite !free_of_app, Hp, Hsep, IH.
Qed.

Lemma of_Z_clean n : clean (Str.of_Z n) = true.
Proof.
  pose proof (digits_of_Z n) as H. unfold Str.free_of.
  rewrite forallb_forall. rewrite Forall_forall in H.
  intros c Hc. specialize (H c Hc). cbn [newline existsb].
  rewrite orb_false_r. apply negb_true_iff.
  destruct (Ascii.eqb c (ascii_of_nat 10)) eqn:E; [|reflexivity].
  apply Ascii.eqb_eq in E. subst c.
  destruct H as [H|H]; discriminate H.
Qed.

Lemma toString_clean v : Js.single_line v = true -> clean (Js.toString v) = true.
Proof.
  revert v.
  apply (@JsVal_induction
           (fun v => Js.single_line v = true ->
                     clean (Js.toString v) = true)).
  - reflexivity.
  - reflexivity.
  - now intros [|].
  - intros n _. apply of_Z_clean.
  - now intros s.
  - intros vs IH Hvs. cbn [Js.toString]. apply free_of_join; [reflexivity|].
    cbn [Js.single_line] in Hvs. rewrite forallb_forall in Hvs.
    rewrite Forall_forall in *. intros p Hp.
    apply in_map_iff in Hp as (x & <- & Hx).
    destruct (Js.nullish x); [reflexivity|]. apply IH; auto.
  - reflexivity.
Qed.

Lemma get_single_line (o : obj) k :
  Js.single_line (JObj o) = true -> Js.single_line (Obj.get o k) = true.
Proof.
  cbn [Js.single_line]. unfold Obj.get.
  induction o as [|[k0 v0] r IH]; [reflexivity|].
  cbn [forallb snd Obj.lookup]. rewrite andb_true_iff. intros [H0 Hr].
  destruct (str_eqb k k0); auto.
Qed.

Lemma oprop_single_line v k :
  Js.single_line v = true -> Js.single_line (Js.oprop v k) = true.
Proof.
  unfold Js.oprop, Js.prop. destruct v; try reflexivity.
  apply get_single_line.
Qed.

Lemma ofirst_single_line v :
  Js.single_line v = true -> Js.single_line (Js.ofirst v) = true.
Proof.
  unfold Js.ofirst, Js.first. destruct v as [| | | |s|vs|o]; try reflexivity.
  - destruct s as [|c s]; [reflexivity|]. cbn [Js.single_line].
    rewrite free_of_cons, andb_true_iff. intros [H _].
    now rewrite free_of_cons, H.
  - destruct vs as [|x vs]; [reflexivity|]. cbn [Js.single_line forallb].
    now rewrite andb_true_iff.
  - apply get_single_line.
Qed.

Lemma trim_free_of bad s :
  Str.free_of bad s = true -> Str.free_of bad (Str.trim s) = true.
Proof.
  destruct (trim_spec s) as (l & r & Hs & _). intros H.
  rewrite Hs, !free_of_app, !andb_true_iff in H. tauto.
Qed.

Lemma split_hyphen_free_of bad p :
  Str.free_of bad p = true ->
  Forall (fun w => Str.free_of bad w = true) (split_hyphen p).
Proof.
  induction p as [|c p IH]; [repeat constructor|].
  rewrite free_of_cons, andb_true_iff. intros [Hc Hp].
  specialize (IH Hp). cbn [split_hyphen].
  destruct (Ascii.eqb c "-"); [constructor; auto|].
  destruct (split_hyphen p) as [|w ws].
  - repeat constructor. now rewrite free_of_cons, Hc.
  - inversion IH; subst. constructor; auto.
    now rewrite free_of_cons, Hc.
Qed.

Lemma hd_free_of bad (ws : list str) :
  Forall (fun w => Str.free_of bad w = true) ws ->
  Str.free_of bad (hd [] ws) = true.
Proof. now intros [|]. Qed.

Lemma assoc_in k table v :
  assoc k table = Some v -> In v (map snd table).
Proof.
  induction table as [|[k0 v0] r IH]; [discriminate|]. cbn [assoc map snd].
  destruct (str_eqb k k0); [intros [= <-]; now left | right; auto].
Qed.

Lemma map_type_in mapping fallback cslType :
  In (map_type mapping fallback cslType)
    (fallback :: map snd mapping ++ map snd Obj.prototype).
Proof.
  unfold map_type. destruct (assoc cslType mapping) eqn:E.
  - right. apply in_or_app. left. eapply assoc_in; eauto.
  - destruct (assoc cslType Obj.prototype) eqn:E'.
    + right. apply in_or_app. right. eapply assoc_in; eauto.
    + now left.
Qed.

Lemma mapCslTypeToRis_clean v : clean (mapCslTypeToRis v) = true.
Proof.
  unfold mapCslTypeToRis.
  match goal with
  | |- clean (map_type ?m ?f ?t) = true =>
      pose proof (map_type_in m f t) as H;
      assert (Hall : forallb clean (f :: map snd m ++ map snd Obj.prototype)
                     = true) by reflexivity
  end.
  rewrite forallb_forall in Hall. now apply Hall.
Qed.

Lemma clean_tagged tag rest :
  clean (tag ++ "  - ") = true -> clean rest = true ->
  clean (tag ++ "  - " ++ rest) = true.
Proof. intros H1 H2. now rewrite app_assoc, free_of_app, H1, H2. Qed.

End SingleLine.

(** X15: a RIS record of the fallback renderer is a sequence of fields,
    each written as a tag, two spaces, a hyphen, a space, the text of
    the field and a line feed: the first is the [TY] field with the mapped
    type, the last is the [ER] field with no text, and every field between
    them carries one of the tags of the renderer.  The texts are written
    as they are: when no string of the record holds a line feed, none of
    the fields does, and the fields are the lines of the record. *)
Theorem generateRisEntry_lines (it : obj) (e : str) :
  Convert.generateRisEntry it = Some e ->
  exists lines,
    e = concat (map (fun l => l ++ Convert.newline)
                  (("TY  - " ++ Convert.mapCslTypeToRis (Obj.get it "type"))
                   :: lines ++ ["ER  - "])) /\
    Forall (fun l => exists tag rest,
              l = tag ++ "  - " ++ rest /\
              In tag ["AU"; "TI"; "PY"; "JO"; "VL"; "IS"; "SP"; "EP"; "DO";
                      "UR"; "PB"]) lines /\
    (Js.single_line (JObj it) = true ->
     Forall (fun l => Str.free_of Convert.newline l = true)
       (("TY  - " ++ Convert.mapCslTypeToRis (Obj.get it "type"))
        :: lines ++ ["ER  - "])).
Proof.
  unfold Convert.generateRisEntry.
  destruct (Convert.ris_authors it) as [authors|] eqn:Ha; [|discriminate].
  destruct (Convert.ris_pages it) as [pages|] eqn:Hp; [|discriminate].
  intros [= <-].
  set (tags := ["AU"; "TI"; "PY"; "JO"; "VL"; "IS"; "SP"; "EP"; "DO";
                "UR"; "PB"]).
  set (P := fun l : str =>
              (exists tag rest, l = tag ++ "  - " ++ rest /\ In tag tags) /\
              (Js.single_line (JObj it) = true ->
               Str.free_of Convert.newline l = true)).
  assert (Htag : forall tag, In tag tags ->
                   Str.free_of Convert.newline (tag ++ "  - ") = true).
  { intros tag Hin. unfold tags in Hin. cbn [In] in Hin.
    repeat (destruct Hin as [<-|Hin]; [reflexivity|]). contradiction. }
  assert (Hline : forall tag v,
            In tag tags ->
            (Js.single_line (JObj it) = true -> Js.single_line v = true) ->
            Forall P (Convert.ris_line tag v)).
  { intros tag v Hin Hv. unfold Convert.ris_line.
    destruct (Js.truthy v); repeat constructor.
    - exists tag, (Js.toString v). split; [reflexivity | exact Hin].
    - intros Hit. apply clean_tagged; [now apply Htag|].
      apply toString_clean. auto. }
  assert (Hfield : forall tag k,
            In tag tags -> Forall P (Convert.ris_line tag (Obj.get it k))).
  { intros tag k Hin. apply Hline; [exact Hin|]. apply get_single_line. }
  assert (Hau : Forall P authors).
  { revert Ha. unfold Convert.ris_authors.
    destruct (Js.truthy _); [|intros [= <-]; constructor].
    pose proof (@get_single_line it "author") as Hsl.
    destruct (Obj.get it "author") as [| | | |s|vs|]; try discriminate;
      [intros [= <-]; constructor|].
    destruct (Convert.map_opt Convert.ris_author vs) as [ls|] eqn:Hm;
      [|discriminate].
    intros [= <-]. revert ls Hm.
    induction vs as [|a vs IH]; simpl; intros ls.
    - intros [= <-]. constructor.
    - destruct (Convert.ris_author a) as [la|] eqn:Hra; [|discriminate].
      destruct (Convert.map_opt Convert.ris_author vs) as [ls'|];
        [|discriminate].
      intros [= <-]. simpl. apply Forall_app. split.
      2:{ apply IH; [|reflexivity]. intros Hit. specialize (Hsl Hit).
          cbn [Js.single_line forallb] in *.
          now apply andb_true_iff in Hsl. }
      assert (Ha1 : Js.single_line (JObj it) = true ->
                    Js.single_line a = true).
      { intros Hit. specialize (Hsl Hit).
        cbn [Js.single_line forallb] in Hsl.
        now apply andb_true_iff in Hsl. }
      revert Hra. unfold Convert.ris_author.
      destruct (Js.prop a "literal") as [literal|] eqn:El; [|discriminate].
      assert (Hlit : Js.single_line (JObj it) = true ->
                     Js.single_line literal = true).
      { intros Hit. pose proof (@oprop_single_line a "literal" (Ha1 Hit)) as H.
        unfold Js.oprop in H. now rewrite El in H. }
      destruct (Js.truthy literal).
      + intros [= <-]. apply Hline; [simpl; tauto | exact Hlit].
      + cbv zeta. destruct (Js.truthy (Js.oprop a "family"));
          [|intros [= <-]; constructor].
        destruct (Js.truthy (Js.oprop a "given")); intros [= <-].
        * repeat constructor.
          -- exists "AU". eexists. split; [reflexivity | simpl; tauto].
          -- intros Hit.
             apply (@clean_tagged "AU"
                      (Js.toString (Js.oprop a "family") ++ ", "
                       ++ Js.toString (Js.oprop a "given")));
               [reflexivity|].
             rewrite !free_of_app.
             rewrite !toString_clean
               by (apply oprop_single_line; auto).
             reflexivity.
        * apply Hline; [simpl; tauto|]. intros Hit.
          apply oprop_single_line. auto. }
  assert (Hpg : Forall P pages).
  { revert Hp. unfold Convert.ris_pages.
    destruct (Js.truthy _); [|intros [= <-]; constructor].
    pose proof (@get_single_line it "page") as Hsl.
    destruct (Obj.get it "page") as [| | | |p| |]; try discriminate.
    cbv zeta. intros [= <-].
    assert (Hparts : Js.single_line (JObj it) = true ->
                     Forall (fun w => Str.free_of Convert.newline w = true)
                       (Convert.split_hyphen p)).
    { intros Hit. apply split_hyphen_free_of. exact (Hsl Hit). }
    apply Forall_app. split.
    - destruct (hd _ _) eqn:Eh; repeat constructor.
      + exists "SP". eexists. split; [reflexivity | simpl; tauto].
      + intros Hit. apply (@clean_tagged "SP"); [reflexivity|].
        apply trim_free_of. rewrite <- Eh. apply hd_free_of. auto.
    - destruct (hd _ (tl _)) eqn:Eh; repeat constructor.
      + exists "EP". eexists. split; [reflexivity | simpl; tauto].
      + intros Hit. apply (@clean_tagged "EP"); [reflexivity|].
        apply trim_free_of. rewrite <- Eh. apply hd_free_of.
        specialize (Hparts Hit). destruct Hparts; [constructor|assumption]. }
  set (ty := "TY  - " ++ Convert.mapCslTypeToRis (Obj.get it "type")).
  assert (Hall : Forall P
            (authors
             ++ Convert.ris_line "TI" (Obj.get it "title")
             ++ Convert.ris_line "PY" (Convert.first_year it)
             ++ Convert.ris_line "JO" (Obj.get it "container-title")
             ++ Convert.ris_line "VL" (Obj.get it "volume")
             ++ Convert.ris_line "IS" (Obj.get it "issue")
             ++ pages
             ++ Convert.ris_line "DO" (Obj.get it "DOI")
             ++ Convert.ris_line "UR" (Obj.get it "URL")
             ++ Convert.ris_line "PB" (Obj.get it "publisher"))).
  { repeat (apply Forall_app; split); auto;
      try (apply Hfield; simpl; tauto).
    apply Hline; [simpl; tauto|]. intros Hit. unfold Convert.first_year.
    apply ofirst_single_line, ofirst_single_line, oprop_single_line.
    now apply get_single_line. }
  exists (authors
          ++ Convert.ris_line "TI" (Obj.get it "title")
          ++ Convert.ris_line "PY" (Convert.first_year it)
          ++ Convert.ris_line "JO" (Obj.get it "container-title")
          ++ Convert.ris_line "VL" (Obj.get it "volume")
          ++ Convert.ris_line "IS" (Obj.get it "issue")
          ++ pages
          ++ Convert.ris_line "DO" (Obj.get it "DOI")
          ++ Convert.ris_line "UR" (Obj.get it "URL")
          ++ Convert.ris_line "PB" (Obj.get it "publisher")).
  split; [|split].
  - match goal with
    | |- _ = concat (map ?f (ty :: ?L ++ ?e)) =>
        change (ty :: L ++ e) with ((ty :: L) ++ e)
    end.
    rewrite <- join_lines. f_equal.
    change ([ty] ++ ?x) with (ty :: x). rewrite <- app_comm_cons. f_equal.
    now rewrite <- !app_assoc.
  - revert Hall. apply Forall_impl. intros l [H _]. exact H.
  - intros Hit. constructor.
    + unfold ty. apply (@clean_tagged "TY"); [reflexivity|].
      apply mapCslTypeToRis_clean.
    + apply Forall_app. split; [|repeat constructor].
      revert Hall. apply Forall_impl. intros l [_ H]. auto.
Qed.

Lemma generateRisEntry_lines_witness :
  exists e lines,
    Convert.generateRisEntry Examples.sampleItem = Some e /\
    e = concat (map (fun l => l ++ Convert.newline)
                  (("TY  - " ++ Convert.mapCslTypeToRis
                                  (Obj.get Examples.sampleItem "type"))
                   :: lines ++ ["ER  - "])) /\
    Forall (fun l => exists tag rest,
              l = tag ++ "  - " ++ rest /\
              In tag ["AU"; "TI"; "PY"; "JO"; "VL"; "IS"; "SP"; "EP"; "DO";
                      "UR"; "PB"]) lines /\
    Forall (fun l => Str.free_of Convert.newline l = true)
      (("TY  - " ++ Convert.mapCslTypeToRis
                      (Obj.get Examples.sampleItem "type"))
       :: lines ++ ["ER  - "]).
Proof.
  eexists.
  destruct (@generateRisEntry_lines Examples.sampleItem _ eq_refl)
    as (lines & He & Hl & Hc).
  exists lines. split; [reflexivity|]. split; [assumption|].
  split; [assumption|]. apply Hc. reflexivity.
Defined.

Lemma split_hyphen_cons a r :
  ~ In "-"%char a ->
  Convert.split_hyphen (a ++ "-"%char :: r) = a :: Convert.split_hyphen r.
Proof.
  induction a as [|c a IH]; intros H.
  - reflexivity.
  - cbn [app Convert.split_hyphen].
    destruct (Ascii.eqb c "-") eqn:E.
    + apply Ascii.eqb_eq in E. subst. exfalso. apply H. now left.
    + rewrite IH; [reflexivity|]. intros Hin. apply H. now right.
Qed.

Lemma split_hyphen_plain a :
  ~ In "-"%char a -> Convert.split_hyphen a = [a].
Proof.
  induction a as [|c a IH]; intros H; [reflexivity|].
  cbn [Convert.split_hyphen].
  destruct (Ascii.eqb c "-") eqn:E.
  - apply Ascii.eqb_eq in E. subst. exfalso. apply H. now left.
  - rewrite IH; [reflexivity|]. intros Hin. apply H. now right.
Qed.

(** X16: the page lines of a RIS record come from the first two parts of
    [page] split at hyphens: [SP] is the text before the first hyphen,
    [EP] the text between the first and the second, each trimmed and left
    out when empty; what follows a second hyphen is dropped, and a range
    written with a double hyphen gives no [EP] line. *)
Theorem ris_pages_first_two_parts (it : obj) (sp ep tail : str) :
  Obj.get it "page" = JStr (sp ++ "-"%char :: ep ++ tail) ->
  ~ In "-"%char sp -> ~ In "-"%char ep ->
  tail = [] \/ (exists t, tail = "-"%char :: t) ->
  Convert.ris_pages it =
    Some ((match sp with [] => [] | _ => ["SP  - " ++ Str.trim sp] end)
          ++ (match ep with [] => [] | _ => ["EP  - " ++ Str.trim ep] end)).
Proof.
  intros Hp Hsp Hep Htail. unfold Convert.ris_pages. rewrite Hp.
  assert (Ht : Js.truthy (JStr (sp ++ "-"%char :: ep ++ tail)) = true)
    by (destruct sp; reflexivity).
  rewrite Ht. cbv zeta. rewrite (@split_hyphen_cons sp _ Hsp).
  cbn [hd tl].
  destruct Htail as [-> | [t ->]].
  - rewrite app_nil_r, (@split_hyphen_plain ep Hep). reflexivity.
  - rewrite (@split_hyphen_cons ep _ Hep). reflexivity.
Qed.

Lemma ris_pages_first_two_parts_witness :
  Convert.ris_pages [("page", JStr "436--444")] = Some ["SP  - 436"] /\
  Convert.ris_pages [("page", JStr "436 - 444")] =
    Some ["SP  - 436"; "EP  - 444"].
Proof.
  split.
  - apply (@ris_pages_first_two_parts _ "436" [] "-444");
      [reflexivity | simpl; intuition discriminate | simpl; tauto | eauto].
  - apply (@ris_pages_first_two_parts _ "436 " " 444" []);
      [reflexivity | simpl; intuition discriminate
      | simpl; intuition discriminate | auto].
Defined.

(** * Further properties of the extraction paths and of cli.ts *)

Section Provenance.

Variable ZoteroCitationSchema : JsVal -> option JsVal.
Variable CslItemSchema : JsVal -> option obj.

Local Abbreviation from_docx f :=
  (fun r => source r = DocxCitation /\ sourceFile r = f).

Lemma relaxed_items_file parsed f :
  Forall (from_docx f) (Docx.relaxed_items parsed f).
Proof.
  unfold Docx.relaxed_items.
  destruct parsed as [| | | | | |o]; try constructor.
  destruct (Obj.lookup "citationItems" o) as [[| | | | |citationItems|]|];
    try constructor.
  apply Forall_forall. intros r Hr.
  apply in_flat_map in Hr as (it & _ & Hr).
  unfold Docx.extractItemData in Hr.
  destruct it as [| | | | | |io]; try contradiction.
  destruct (Obj.get io "itemData"); try contradiction.
  destruct (negb _); [contradiction|].
  destruct Hr as [<-|[]]. now split.
Qed.

Lemma validated_items_file citationItems f refs :
  Docx.validated_items CslItemSchema citationItems f = Some refs ->
  Forall (from_docx f) refs.
Proof.
  revert refs. induction citationItems as [|ci r IH]; simpl; intros refs.
  - intros [= <-]. constructor.
  - destruct (Docx.validated_item CslItemSchema ci f) as [here|] eqn:Hh;
      [|discriminate].
    destruct (Docx.validated_items CslItemSchema r f) as [rest|];
      [|discriminate].
    intros [= <-]. apply Forall_app. split; auto.
    revert Hh. unfold Docx.validated_item.
    destruct (Js.prop ci "itemData") as [itemData|]; [|discriminate].
    destruct (Js.truthy itemData); [|intros [= <-]; constructor].
    destruct (CslItemSchema itemData).
    + intros [= <-]. repeat constructor.
    + destruct itemData; try (intros [= <-]; constructor).
      destruct (Js.truthy _); intros [= <-]; repeat constructor.
Qed.

Lemma extractFromDocx_file xmlEntries f refs :
  Docx.extractFromDocx ZoteroCitationSchema CslItemSchema xmlEntries f =
    Some refs ->
  Forall (from_docx f) refs.
Proof.
  unfold Docx.extractFromDocx. intros H.
  assert (Hrefs : refs =
            flat_map (fun doc =>
                        Docx.extractCitationsFromXml ZoteroCitationSchema
                          CslItemSchema doc f) xmlEntries)
    by (destruct xmlEntries; [discriminate | now injection H]).
  rewrite Hrefs. clear H Hrefs.
  apply Forall_forall. intros r Hr.
  apply in_flat_map in Hr as (doc & _ & Hr).
  unfold Docx.extractCitationsFromXml in Hr.
  destruct doc as [d|]; [|contradiction].
  apply in_flat_map in Hr as (json & _ & Hr).
  destruct (Docx.parseCitationJson _ _ json f) as [items|] eqn:Hj;
    [|contradiction].
  revert Hj. unfold Docx.parseCitationJson.
  destruct (Json.parse json) as [parsed|]; [|discriminate].
  destruct (ZoteroCitationSchema parsed) as [citation|].
  - destruct (Js.prop citation "citationItems") as [cis|]; [|discriminate].
    destruct (Js.truthy cis); [|intros [= <-]; contradiction].
    destruct cis; try discriminate.
    + intros [= <-]. contradiction.
    + intros Hv. apply validated_items_file in Hv.
      rewrite Forall_forall in Hv. now apply Hv.
  - intros [= <-]. pose proof (relaxed_items_file parsed f) as Hv.
    rewrite Forall_forall in Hv. now apply Hv.
Qed.

End Provenance.

Lemma refs_of_file biblStructs f refs :
  Pdf.refs_of biblStructs f = Some refs ->
  Forall (fun r => (source r = PdfGrobid /\ sourceFile r = f) /\ In (rawData r) biblStructs /\
                   Pdf.biblStructToCsl (rawData r) = Some (Some (item r)))
    refs.
Proof.
  revert refs. induction biblStructs as [|bibl r IH]; simpl; intros refs.
  - intros [= <-]. constructor.
  - destruct (Pdf.biblStructToCsl bibl) as [[it|]|] eqn:Hb; try discriminate;
      destruct (Pdf.refs_of r f) as [rest|]; try discriminate;
      intros [= <-].
    + constructor; [simpl; auto|].
      apply Forall_impl with (2 := IH _ eq_refl). intros x; tauto.
    + apply Forall_impl with (2 := IH _ eq_refl). intros x; tauto.
Qed.


(** X17: every reference collected from a batch comes from one of its
    files and says so: it carries the path of that file, a reference of a
    Word file has the source [docx-citation], and a reference of a PDF has
    the source [pdf-grobid], and its record is the conversion of the TEI
    entry kept as its raw data, an entry found in the answer of the
    service for that file. *)
Theorem allRefs_provenance
        (ZoteroCitationSchema : JsVal -> option JsVal)
        (CslItemSchema : JsVal -> option obj)
        (files : list Cli.File) (r : ExtractedRef) :
  In r (Cli.allRefs ZoteroCitationSchema CslItemSchema files) ->
  exists file,
    In file files /\ sourceFile r = fst file /\
    ((exists xmlEntries,
        snd file = Cli.DocxParts xmlEntries /\ source r = DocxCitation) \/
     (exists doc,
        snd file = Cli.PdfTei (Some doc) /\ source r = PdfGrobid /\
        In (rawData r) (Pdf.findElements "biblStruct" doc) /\
        Pdf.biblStructToCsl (rawData r) = Some (Some (item r)))).
Proof.
  intros Hr. apply in_flat_map in Hr as ([path content] & Hin & Hr).
  exists (path, content). split; [exact Hin|].
  unfold Cli.extract in Hr. cbn [fst snd] in *.
  destruct content as [xmlEntries|tei|]; [| |contradiction].
  - destruct (Docx.extractFromDocx _ _ _ _) as [refs|] eqn:He;
      [|contradiction].
    apply extractFromDocx_file in He. rewrite Forall_forall in He.
    destruct (He r Hr) as [Hs Hf]. split; [exact Hf|]. left. eauto.
  - destruct tei as [doc|]; [|contradiction].
    simpl in Hr. unfold Pdf.parseTeiToCsl in Hr.
    destruct (Pdf.refs_of _ path) as [refs|] eqn:He; [|contradiction].
    apply refs_of_file in He. rewrite Forall_forall in He.
    destruct (He r Hr) as ((Hs & Hf) & Hraw & Hconv).
    split; [exact Hf|]. right. exists doc.
    split; [reflexivity|]. split; [exact Hs|]. split; assumption.
Qed.

Lemma allRefs_provenance_witness :
  exists r file,
    In r (Cli.allRefs Types.ZoteroCitationSchema Types.CslItemSchema
            [Cli.paper_docx; Cli.paper_pdf]) /\
    source r = PdfGrobid /\
    In file [Cli.paper_docx; Cli.paper_pdf] /\ sourceFile r = fst file.
Proof.
  eexists.
  assert (Hin : In (nth 1 (Cli.allRefs Types.ZoteroCitationSchema
                             Types.CslItemSchema
                             [Cli.paper_docx; Cli.paper_pdf])
                      (Samples.ref_of []))
                  (Cli.allRefs Types.ZoteroCitationSchema Types.CslItemSchema
                     [Cli.paper_docx; Cli.paper_pdf]))
    by (vm_compute; tauto).
  destruct (allRefs_provenance _ _ _ _ Hin) as (file & Hf & Hp & _).
  exists file. split; [exact Hin|]. split; [reflexivity|]. split; assumption.
Defined.

(** X18: [collectInstrTexts] returns the instruction texts of the runs of
    a paragraph in document order, one for each run whose [w:instrText] is
    a text node; but when [w:instrText] holds an array, as for a run with
    several instruction elements, its texts are not collected. *)
Theorem collectInstrTexts_runs (texts : list str) (d : JsVal) :
  Cli.part_with texts = Some d ->
  Docx.collectInstrTexts d = texts /\
  Docx.collectInstrTexts
    (JObj [("w:r", JObj [("w:instrText", JArr (map JStr texts))])]) = [] /\
  Docx.collectInstrTexts
    (JObj [("w:r",
            JObj [("w:instrText",
                   JArr (map (fun t => JObj [("#text", JStr t)]) texts))])])
    = [].
Proof.
  intros [= <-]. split; [|split].
  - cbn. rewrite !app_nil_r.
    induction texts as [|t r IH]; [reflexivity|].
    cbn. now rewrite IH.
  - cbn. rewrite !app_nil_r.
    induction texts as [|t r IH]; [reflexivity|].
    cbn. exact IH.
  - cbn. rewrite !app_nil_r.
    induction texts as [|t r IH]; [reflexivity|].
    cbn. exact IH.
Qed.

Lemma collectInstrTexts_runs_witness :
  exists d,
    Cli.part_with [" ADDIN ZOTERO_ITEM "; "CSL_CITATION {}"] = Some d /\
    Docx.collectInstrTexts d = [" ADDIN ZOTERO_ITEM "; "CSL_CITATION {}"].
Proof.
  eexists. split; [reflexivity|].
  apply (@collectInstrTexts_runs [" ADDIN ZOTERO_ITEM "; "CSL_CITATION {}"]).
  reflexivity.
Defined.

(** * Records of the declared type through the pipeline *)

Section Fieldwise.
Import Types.

Lemma fields_ok_forall check o fields :
  fields_ok check o fields = true <->
  forall f, (if in_fields f fields then check (Obj.get o f) else true) = true.
Proof.
  unfold fields_ok, in_fields. rewrite forallb_forall. split.
  - intros H f. destruct (existsb (str_eqb f) fields) eqn:E; auto.
    apply existsb_exists in E as (g & Hin & Hg).
    apply str_eqb_eq in Hg. subst g. auto.
  - intros H f Hin. specialize (H f).
    replace (existsb (str_eqb f) fields) with true in H; auto.
    symmetry. apply existsb_exists. exists f. split; auto.
    apply str_eqb_refl.
Qed.

(** The item schema holds of a record exactly when it holds field by
    field. *)
Lemma CslItem_ok_fieldwise o :
  CslItem_ok o = true <-> forall f, field_ok f (Obj.get o f) = true.
Proof.
  unfold CslItem_ok, field_ok. rewrite !andb_true_iff, !fields_ok_forall.
  split.
  - intros ((((Ht & H1) & H2) & H3) & H4) f.
    rewrite H1, H2, H3, H4, !andb_true_r.
    destruct (str_eqb f "type") eqn:E; auto.
    apply str_eqb_eq in E. now subst f.
  - intros H. repeat split.
    + specialize (H "type"). rewrite !andb_true_iff in H.
      now destruct H as ((((Ht & _) & _) & _) & _).
    + intros f. specialize (H f). rewrite !andb_true_iff in H. tauto.
    + intros f. specialize (H f). rewrite !andb_true_iff in H. tauto.
    + intros f. specialize (H f). rewrite !andb_true_iff in H. tauto.
    + intros f. specialize (H f). rewrite !andb_true_iff in H. tauto.
Qed.

Lemma get_set (o : obj) f v g :
  Obj.get (Obj.set o f v) g = if str_eqb f g then v else Obj.get o g.
Proof.
  destruct (str_eqb f g) eqn:E.
  - apply str_eqb_eq in E. subst. apply get_set_same.
  - apply str_eqb_neq in E. now apply get_set_other.
Qed.

Lemma CslItem_ok_set o f v :
  CslItem_ok o = true -> field_ok f v = true ->
  CslItem_ok (Obj.set o f v) = true.
Proof.
  rewrite !CslItem_ok_fieldwise. intros Ho Hv g. rewrite get_set.
  destruct (str_eqb f g) eqn:E; auto.
  apply str_eqb_eq in E. now subst.
Qed.

Lemma field_ok_undef f : f <> "type" -> field_ok f JUndef = true.
Proof.
  intros H. apply str_eqb_neq in H. unfold field_ok. rewrite H.
  repeat match goal with |- context [if ?b then _ else _] => destruct b end;
    reflexivity.
Qed.

End Fieldwise.

Lemma wf_set (o : obj) k v : Obj.wf o -> Obj.wf (Obj.set o k v).
Proof.
  unfold Obj.wf. intros H.
  destruct (in_dec (list_eq_dec ascii_dec) k (Obj.keys o)) as [Hin|Hnin].
  - now rewrite keys_set_in.
  - rewrite keys_set_notin by assumption.
    apply NoDup_app; auto.
    + repeat constructor. simpl. tauto.
    + intros x Hx [<-|[]]. contradiction.
Qed.

Section TeiValid.
Import Types Pdf.

(** A record of the declared type with pairwise distinct keys. *)
Local Abbreviation valid :=
  (fun it : obj => CslItem_ok it = true /\ Obj.wf it).

Lemma valid_set it f v :
  valid it -> field_ok f v = true -> valid (Obj.set it f v).
Proof.
  intros [Hok Hwf] Hv. split; [now apply CslItem_ok_set | now apply wf_set].
Qed.

(** The fields that the conversion fills with text. *)
Lemma text_field_ok f s :
  In f ["title"; "container-title"; "volume"; "issue"; "page"; "publisher";
        "DOI"; "PMID"; "PMCID"; "ISSN"; "ISBN"; "type"] ->
  field_ok f (JStr s) = true.
Proof.
  intros H. repeat (destruct H as [<-|H]; [reflexivity|]). destruct H.
Qed.

Lemma extractTextOf_result e type v :
  extractTextOf e type = Some v -> text_result v.
Proof.
  unfold extractTextOf.
  destruct (negb (Js.truthy e)); [intros [= <-]; now left|].
  destruct e as [| | | |s|vs|o]; try (intros [= <-]; now left).
  - intros [= <-]. right. eauto.
  - induction vs as [|el r IH]; [intros [= <-]; now left|].
    destruct (has_type el type) as [[|]|]; try discriminate; auto.
    destruct (Js.truthy (extractText el)); auto.
    intros [= <-]. apply extractText_result.
  - destruct (_ && _); intros [= <-];
      [now left | apply (extractText_result (JObj o))].
Qed.

Lemma set_if_valid it f v :
  valid it -> text_result v ->
  In f ["title"; "container-title"; "volume"; "issue"; "page"; "publisher";
        "DOI"; "PMID"; "PMCID"; "ISSN"; "ISBN"; "type"] ->
  valid (set_if it f v).
Proof.
  intros Hit Hv Hf. unfold set_if.
  destruct Hv as [->|[s ->]]; [exact Hit|].
  destruct (Js.truthy _); [|exact Hit].
  apply valid_set; auto. now apply text_field_ok.
Qed.

Lemma author_of_valid a : forallb CslName_ok (author_of a) = true.
Proof.
  unfold author_of.
  destruct (Normalize.is_object a); [|reflexivity].
  destruct (Js.truthy (Js.oprop a "persName")).
  - destruct (_ || _); [|reflexivity].
    destruct (extractText_result
                (Js.oprop (Js.oprop a "persName") "surname")) as [->|[s ->]];
      destruct (extractText_result
                  (Js.oprop (Js.oprop a "persName") "forename"))
        as [->|[g ->]]; reflexivity.
  - destruct (Js.truthy (extractText a)); [|reflexivity].
    destruct (extractText_result a) as [->|[s ->]]; reflexivity.
Qed.

Lemma extractAuthors_valid e : forallb CslName_ok (extractAuthors e) = true.
Proof.
  unfold extractAuthors. destruct (negb _); [reflexivity|].
  induction (as_list e) as [|a r IH]; [reflexivity|].
  simpl. rewrite forallb_app, IH, author_of_valid. reflexivity.
Qed.

Lemma field_ok_author v : field_ok "author" v = opt_names v.
Proof.
  unfold field_ok. generalize (opt_names v). intros b.
  vm_compute. destruct b; reflexivity.
Qed.

Lemma set_authors_valid it e :
  valid it -> valid (set_authors it (extractAuthors e)).
Proof.
  intros Hit. unfold set_authors.
  pose proof (extractAuthors_valid e) as Ha.
  destruct (extractAuthors e) as [|a r]; [exact Hit|].
  apply valid_set; auto. now rewrite field_ok_author.
Qed.

Lemma set_date_valid it date it' :
  set_date it date = Some it' -> valid it -> valid it'.
Proof.
  unfold set_date.
  destruct (Js.truthy date); [|now intros [= <-]].
  cbv zeta. destruct (Js.truthy _); [|now intros [= <-]].
  destruct (year_of date); try discriminate.
  destruct (Str.parseInt10 _); intros [= <-] Hit; auto.
  apply valid_set; auto.
Qed.

Lemma add_identifiers_valid ids it it' :
  add_identifiers it ids = Some it' -> valid it -> valid it'.
Proof.
  revert it. induction ids as [|id r IH]; simpl; intros it.
  - now intros [= <-].
  - destruct (add_identifier it id) as [it1|] eqn:H1; [|discriminate].
    intros H Hit. apply (IH _ H). revert H1. unfold add_identifier.
    destruct (Normalize.is_object id); [|now intros [= <-]].
    destruct (_ || _); [now intros [= <-]|].
    destruct (Js.oprop id "@_type"); try discriminate.
    destruct (identifier_field s) as [f|] eqn:Hf; intros [= <-]; auto.
    apply identifier_field_In in Hf.
    destruct (extractText_result id) as [->|[x ->]].
    + apply valid_set; auto. apply field_ok_undef.
      intros ->. unfold identifier_fields in Hf. simpl in Hf.
      intuition discriminate.
    + apply valid_set; auto. apply text_field_ok.
      unfold identifier_fields in Hf. simpl in *. tauto.
Qed.

Lemma extractIdentifiers_valid o it it' :
  extractIdentifiers o it = Some it' -> valid it -> valid it'.
Proof.
  unfold extractIdentifiers.
  destruct (negb _); [now intros [= <-]|]. apply add_identifiers_valid.
Qed.

Lemma from_imprint_valid it imprint it' :
  from_imprint it imprint = Some it' -> valid it -> valid it'.
Proof.
  unfold from_imprint.
  destruct (Js.truthy imprint); [|now intros [= <-]].
  destruct (extractTextOf _ "volume") as [volume|] eqn:Hv; [|discriminate].
  destruct (extractTextOf _ "issue") as [issue|] eqn:Hi; [|discriminate].
  destruct (extractTextOf _ "page") as [pages|] eqn:Hp; [|discriminate].
  destruct (set_date _ _) as [it4|] eqn:Hd; [|discriminate].
  intros [= <-] Hit.
  apply extractTextOf_result in Hv, Hi, Hp.
  apply set_if_valid; [|apply extractText_result | simpl; tauto].
  apply (@set_date_valid _ _ _ Hd).
  repeat (apply set_if_valid; [|assumption | simpl; tauto]).
  exact Hit.
Qed.

Lemma from_analytic_valid it analytic it' :
  from_analytic it analytic = Some it' -> valid it -> valid it'.
Proof.
  unfold from_analytic.
  destruct (Js.truthy analytic); [|now intros [= <-]].
  intros H Hit. apply (@extractIdentifiers_valid _ _ _ H).
  apply set_authors_valid.
  apply set_if_valid; [exact Hit | apply extractText_result | simpl; tauto].
Qed.

Lemma from_monogr_valid it monogr it' :
  from_monogr it monogr = Some it' -> valid it -> valid it'.
Proof.
  unfold from_monogr.
  destruct (Js.truthy monogr); [|now intros [= <-]].
  cbv zeta.
  destruct (from_imprint _ _) as [it3|] eqn:Hi; [|discriminate].
  intros H Hit. apply (@extractIdentifiers_valid _ _ _ H).
  assert (H3 : valid it3).
  { apply (@from_imprint_valid _ _ _ Hi).
    assert (H1 : valid (set_if it "container-title"
                          (extractText (Js.oprop monogr "title"))))
      by (apply set_if_valid;
          [exact Hit | apply extractText_result | simpl; tauto]).
    destruct (negb (Js.truthy (Obj.get (set_if it "container-title" _)
                                 "title"))); [|exact H1].
    apply valid_set; [|reflexivity].
    apply valid_set; [exact H1|].
    destruct (extractText_result (Js.oprop monogr "title")) as [E|[s E]];
      rewrite E; reflexivity. }
  destruct (negb (Js.truthy (Obj.get it3 "author"))); [|exact H3].
  now apply set_authors_valid.
Qed.

Lemma biblStructToCsl_valid bibl it :
  biblStructToCsl bibl = Some (Some it) -> valid it.
Proof.
  unfold biblStructToCsl.
  destruct (Normalize.is_object bibl); [|discriminate].
  destruct (from_analytic _ _) as [it1|] eqn:H1; [|discriminate].
  destruct (from_monogr _ _) as [it2|] eqn:H2; [|discriminate].
  destruct (extractIdentifiers _ _) as [it3|] eqn:H3; [|discriminate].
  destruct (negb _); [discriminate|]. intros [= <-].
  apply (@extractIdentifiers_valid _ _ _ H3), (@from_monogr_valid _ _ _ H2),
    (@from_analytic_valid _ _ _ H1).
  split; [reflexivity | repeat constructor; simpl; tauto].
Qed.

End TeiValid.

Section NormalizeValid.
Import Types Normalize.

Lemma generateDedupeKey_typed it :
  CslItem_ok it = true -> exists key, generateDedupeKey it = Some key.
Proof.
  intros Hok. apply CslItem_ok_fields in Hok.
  destruct Hok as (Ht & Ha & Hy & Hd & Hu).
  unfold generateDedupeKey.
  destruct (Obj.get it "DOI") as [| | | |d| |]; try discriminate Hd;
    cbn [Js.truthy].
  2: destruct d; [|eexists; reflexivity].
  all: destruct (Obj.get it "URL") as [| | | |u| |]; try discriminate Hu;
    cbn [Js.truthy].
  2, 4: destruct u; [|eexists; reflexivity].
  all: destruct (title_total _ Ht) as [t ->];
    destruct (@extractYear_total it Hy) as [y ->];
    destruct (@getFirstAuthorFamily_total it Ha) as [a ->];
    eexists; reflexivity.
Qed.

Lemma mergeItems_typed source target :
  CslItem_ok target = true -> CslItem_ok source = true -> Obj.wf source ->
  CslItem_ok (mergeItems target source) = true.
Proof.
  intros Ht Hs Hwf. unfold mergeItems.
  assert (H : forall l, incl l source ->
              forall t, CslItem_ok t = true ->
                        CslItem_ok (fold_left merge_field l t) = true).
  { induction l as [|[k v] r IH]; intros Hl t Hok; [exact Hok|].
    simpl. apply IH; [intros x Hx; apply Hl; now right|].
    destruct (negb (Js.is_empty v)); [|exact Hok].
    destruct (target_empty t k); [|exact Hok].
    apply CslItem_ok_set; [exact Hok|].
    assert (Hin : In (k, v) source) by (apply Hl; now left).
    apply (@in_wf_lookup _ _ _ Hwf) in Hin.
    rewrite CslItem_ok_fieldwise in Hs. specialize (Hs k).
    unfold Obj.get in Hs. now rewrite Hin in Hs. }
  apply H; [apply incl_refl | exact Ht].
Qed.

Lemma opt_string_trim v :
  opt_string v = true -> opt_string (trim_value v) = true.
Proof. now destruct v. Qed.

Lemma CslName_ok_trim v :
  CslName_ok v = true -> CslName_ok (trimName v) = true.
Proof.
  destruct v as [| | | | | |o]; try discriminate.
  unfold CslName_ok, trimName, fields_ok. cbn [entries].
  rewrite !forallb_forall. intros H f Hf.
  rewrite get_map_values, get_assigned by reflexivity.
  destruct (Obj.assignable f); [|reflexivity].
  apply opt_string_trim. auto.
Qed.

Lemma field_ok_trim f v :
  field_ok f v = true -> field_ok f (trim_field v) = true.
Proof.
  unfold field_ok. rewrite !andb_true_iff.
  intros ((((H0 & H1) & H2) & H3) & H4).
  assert (Hcase : forall (c : bool) check,
            (if c then check v else true) = true ->
            (check v = true -> check (trim_field v) = true) ->
            (if c then check (trim_field v) else true) = true)
    by (intros [|]; auto).
  repeat split.
  - apply (Hcase _ (fun x => match x with JStr _ => true | _ => false end));
      auto. now destruct v.
  - apply Hcase; auto. now destruct v.
  - apply Hcase; auto. now destruct v.
  - apply Hcase; auto.
    destruct v as [| | | | |vs|]; try discriminate; auto.
    cbn [trim_field opt_names]. rewrite !forallb_forall.
    intros Hvs x Hx. apply in_map_iff in Hx as (y & <- & Hy).
    specialize (Hvs y Hy).
    replace (is_object y) with true by (now destruct y).
    now apply CslName_ok_trim.
  - apply Hcase; auto. now destruct v.
Qed.

Lemma trimItem_typed it :
  CslItem_ok it = true -> CslItem_ok (trimItem it) = true.
Proof.
  rewrite !CslItem_ok_fieldwise. intros H f.
  destruct (Obj.assignable f) eqn:Ef.
  - rewrite trimItem_get by assumption. apply field_ok_trim, H.
  - unfold trimItem. rewrite get_map_values, get_assigned, Ef by reflexivity.
    unfold Obj.assignable in Ef. apply negb_false_iff, str_eqb_eq in Ef.
    subst f. reflexivity.
Qed.

Lemma seen_merge_typed key source seen :
  CslItem_ok source = true -> Obj.wf source ->
  Forall (fun kv => CslItem_ok (snd kv) = true) seen ->
  Forall (fun kv => CslItem_ok (snd kv) = true) (seen_merge key source seen).
Proof.
  intros Hs Hwf. induction 1 as [|[k v] r Hv Hr IH]; simpl; [constructor|].
  destruct (str_eqb key k); constructor; auto.
  now apply mergeItems_typed.
Qed.

Lemma dedupe_loop_typed refs :
  Forall (fun r => CslItem_ok (item r) = true /\ Obj.wf (item r)) refs ->
  forall seen n,
    Forall (fun kv => CslItem_ok (snd kv) = true) seen ->
    exists seen' n',
      dedupe_loop refs seen n = Some (seen', n') /\
      Forall (fun kv => CslItem_ok (snd kv) = true) seen'.
Proof.
  induction 1 as [|ref rest [Hok Hwf] _ IH]; intros seen n Hseen.
  - exists seen, n. auto.
  - simpl. destruct (@generateDedupeKey_typed _ Hok) as [key ->].
    destruct (seen_get key seen).
    + apply IH. now apply seen_merge_typed.
    + apply IH. apply Forall_app. split; auto.
Qed.

End NormalizeValid.

(** X19: a record that [biblStructToCsl] returns satisfies the item schema
    [CslItemSchema], and its keys are pairwise distinct: every record of
    the external-parser path is of the declared type. *)
Theorem biblStructToCsl_schema (bibl : JsVal) (it : obj) :
  Pdf.biblStructToCsl bibl = Some (Some it) ->
  Types.CslItem_ok it = true /\ Obj.wf it /\
  Types.CslItemSchema (JObj it) = Some it.
Proof.
  intros H. destruct (@biblStructToCsl_valid _ _ H) as [Hok Hwf].
  split; [exact Hok|]. split; [exact Hwf|].
  unfold Types.CslItemSchema. now rewrite Hok.
Qed.

Lemma biblStructToCsl_schema_witness :
  exists it,
    Pdf.biblStructToCsl tei_article = Some (Some it) /\
    Obj.get it "DOI" = JStr "10.1038/nature14539" /\
    Types.CslItem_ok it = true /\ Obj.wf it /\
    Types.CslItemSchema (JObj it) = Some it.
Proof.
  eexists. split; [vm_compute; reflexivity|]. split; [reflexivity|].
  apply (@biblStructToCsl_schema tei_article). vm_compute. reflexivity.
Defined.

Lemma normalizeRefs_defined (lc : str -> str -> comparison)
        (refs : list ExtractedRef) :
  Forall (fun r => Types.CslItem_ok (item r) = true /\ Obj.wf (item r))
    refs ->
  exists items n,
    Normalize.normalizeRefs lc refs = Some (items, n) /\
    Forall (fun it => Types.CslItem_ok it = true) items.
Proof.
  intros Hrefs. unfold Normalize.normalizeRefs, Normalize.deduplicateItems.
  destruct (@dedupe_loop_typed refs Hrefs [] 0) as (seen & n & -> & Hseen);
    [constructor|].
  assert (Ht : Forall (fun it => Types.CslItem_ok it = true)
                 (map Normalize.trimItem (map snd seen))).
  { rewrite map_map. apply Forall_forall. intros it Hin.
    apply in_map_iff in Hin as (kv & <- & Hkv).
    apply trimItem_typed. rewrite Forall_forall in Hseen. now apply Hseen. }
  destruct (@sort_defined _ (Normalize.compareItems lc)
              (map Normalize.trimItem (map snd seen))) as [sorted Hs].
  { rewrite Forall_forall in Ht. intros x y Hx Hy.
    destruct (@sort_key_typed _ (Ht x Hx)) as [kx Hkx].
    destruct (@sort_key_typed _ (Ht y Hy)) as [ky Hky].
    rewrite (@compareItems_keys lc x y kx ky Hkx Hky). discriminate. }
  unfold Normalize.sortItems. rewrite Hs.
  exists sorted, n. split; [reflexivity|].
  apply sort_perm in Hs.
  apply Forall_forall. intros it Hin.
  apply (Permutation_in _ (Permutation_sym Hs)) in Hin.
  rewrite Forall_forall in Ht. now apply Ht.
Qed.

(** X20: [normalizeRefs] does not raise on records of the declared type
    in which no object has a field named [__proto__]: for references
    whose records satisfy the item schema, with pairwise distinct keys, it
    returns a list and a count of duplicates that add up to the number of
    references, and every record of that list satisfies the item schema
    again.  (A field [__proto__] would give the trimmed record another
    prototype, and the fields inherited from it are not represented
    here.) *)
Theorem normalizeRefs_typed (lc : str -> str -> comparison)
        (refs : list ExtractedRef) :
  Forall (fun r => Types.CslItem_ok (item r) = true /\ Obj.wf (item r) /\
                   Js.proto_free (JObj (item r)) = true) refs ->
  exists items n,
    Normalize.normalizeRefs lc refs = Some (items, n) /\
    Forall (fun it => Types.CslItem_ok it = true) items /\
    length items + n = length refs.
Proof.
  intros Hrefs.
  assert (Hrefs' : Forall (fun r => Types.CslItem_ok (item r) = true /\
                                    Obj.wf (item r)) refs).
  { revert Hrefs. apply Forall_impl. tauto. }
  clear Hrefs.
  destruct (@normalizeRefs_defined lc refs Hrefs') as (items & n & Hn & Hok).
  exists items, n. split; [exact Hn|]. split; [exact Hok|].
  revert Hn. unfold Normalize.normalizeRefs, Normalize.deduplicateItems.
  destruct (Normalize.dedupe_loop refs [] 0) as [[seen m]|] eqn:Hd;
    [|discriminate].
  destruct (Normalize.sortItems lc _) as [sorted|] eqn:Hs; [|discriminate].
  intros [= <- <-].
  apply sort_perm, Permutation_length in Hs.
  apply dedupe_loop_count in Hd.
  rewrite <- Hs, !length_map. simpl in Hd. lia.
Qed.

Lemma normalizeRefs_typed_witness :
  exists items n,
    Normalize.normalizeRefs codeunit_compare Samples.cited =
      Some (items, n) /\
    Forall (fun it => Types.CslItem_ok it = true) items /\
    length items + n = length Samples.cited.
Proof.
  apply normalizeRefs_typed.
  repeat (constructor;
          [split; [reflexivity|split; [|reflexivity]];
           repeat (constructor; [simpl; intuition discriminate|]);
           constructor|]).
  constructor.
Defined.

(** X21: a batch without Word files never makes the normalization raise:
    whatever the service answered for the PDFs, the run has a final list,
    and every record in it satisfies the item schema and has a non-empty
    title. *)
Theorem pdf_batch_normalizes
        (ZoteroCitationSchema : JsVal -> option JsVal)
        (CslItemSchema : JsVal -> option obj)
        (localeCompare : str -> str -> comparison)
        (files : list Cli.File) :
  Forall (fun f => Cli.is_docx f = false) files ->
  exists items,
    Cli.items ZoteroCitationSchema CslItemSchema localeCompare files =
      Some items /\
    Forall (fun it => Types.CslItem_ok it = true /\ Cli.titled it) items.
Proof.
  intros Hfiles.
  assert (Hrefs : Forall (fun r => (Types.CslItem_ok (item r) = true /\
                                    Obj.wf (item r)) /\
                                   Cli.has_title (item r))
                    (Cli.allRefs ZoteroCitationSchema CslItemSchema files)).
  { apply Forall_forall. intros r Hr.
    apply in_flat_map in Hr as ([path content] & Hin & Hr).
    rewrite Forall_forall in Hfiles. specialize (Hfiles _ Hin).
    unfold Cli.extract in Hr. cbn [fst snd] in Hr.
    destruct content as [xmlEntries|tei|]; [discriminate| |contradiction].
    destruct tei as [doc|]; [|contradiction].
    simpl in Hr. unfold Pdf.parseTeiToCsl in Hr.
    destruct (Pdf.refs_of _ path) as [refs|] eqn:He; [|contradiction].
    apply refs_of_file in He. rewrite Forall_forall in He.
    destruct (He r Hr) as (_ & _ & Hconv).
    split; [now apply (@biblStructToCsl_valid (rawData r))|].
    destruct (@biblStructToCsl_titled _ _ Hconv) as (t & Ht & Hne & Htrim).
    exists t. split; [exact Ht|]. now rewrite Htrim. }
  destruct (@normalizeRefs_defined localeCompare
              (Cli.allRefs ZoteroCitationSchema CslItemSchema files))
    as (items & n & Hn & Hok);
    [apply Forall_impl with (2 := Hrefs); tauto|].
  unfold Cli.items. rewrite Hn. exists items. split; [reflexivity|].
  assert (Ht : Forall Cli.titled items).
  { apply (@normalizeRefs_titled _ _ _ _ Hn).
    apply Forall_impl with (2 := Hrefs). tauto. }
  rewrite Forall_forall in *. auto.
Qed.

Lemma pdf_batch_normalizes_witness :
  exists items,
    Cli.items Types.ZoteroCitationSchema Types.CslItemSchema
      codeunit_compare [Cli.paper_pdf] = Some items /\
    Forall (fun it => Types.CslItem_ok it = true /\ Cli.titled it) items.
Proof.
  apply pdf_batch_normalizes. repeat constructor.
Defined.

Lemma dedupe_loop_raises refs r :
  In r refs -> Normalize.generateDedupeKey (item r) = None ->
  forall seen n, Normalize.dedupe_loop refs seen n = None.
Proof.
  induction refs as [|ref rest IH]; intros Hin Hr seen n; [contradiction|].
  simpl. destruct Hin as [->|Hin]; [now rewrite Hr|].
  destruct (Normalize.generateDedupeKey (item ref)); [|reflexivity].
  destruct (Normalize.seen_get _ _); now apply IH.
Qed.

(** X22: one record with a [DOI] that is a number other than zero makes
    [normalizeRefs] raise, wherever the record stands in the list; the
    relaxed fallback of the DOCX path lets such a record through, since it
    only asks for a [type]. *)
Theorem normalizeRefs_raises_on_numeric_doi
        (lc : str -> str -> comparison) (refs : list ExtractedRef)
        (r : ExtractedRef) (n : Z) :
  In r refs -> Obj.get (item r) "DOI" = JNum n -> n <> 0%Z ->
  Normalize.generateDedupeKey (item r) = None /\
  Normalize.normalizeRefs lc refs = None /\
  (forall f, Js.truthy (Obj.get (item r) "type") = true ->
     Docx.extractItemData (JObj [("itemData", JObj (item r))]) f =
       Some (mkRef (item r) DocxCitation f
               (JObj [("itemData", JObj (item r))]))).
Proof.
  intros Hin Hdoi Hn.
  assert (Hkey : Normalize.generateDedupeKey (item r) = None).
  { unfold Normalize.generateDedupeKey. rewrite Hdoi. simpl.
    apply Z.eqb_neq in Hn. now rewrite Hn. }
  split; [exact Hkey|]. split.
  - unfold Normalize.normalizeRefs, Normalize.deduplicateItems.
    now rewrite (@dedupe_loop_raises refs r Hin Hkey).
  - intros f Ht. unfold Docx.extractItemData.
    change (Obj.get [("itemData", JObj (item r))] "itemData")
      with (JObj (item r)).
    cbv beta iota. now rewrite Ht.
Qed.

Lemma normalizeRefs_raises_on_numeric_doi_witness :
  exists r,
    In r (Cli.allRefs Types.ZoteroCitationSchema Types.CslItemSchema
            [Cli.paper_docx; numeric_doi_docx]) /\
    Normalize.normalizeRefs codeunit_compare
      (Cli.allRefs Types.ZoteroCitationSchema Types.CslItemSchema
         [Cli.paper_docx; numeric_doi_docx]) = None.
Proof.
  eexists.
  assert (Hin : In (nth 1 (Cli.allRefs Types.ZoteroCitationSchema
                             Types.CslItemSchema
                             [Cli.paper_docx; numeric_doi_docx])
                      (Samples.ref_of []))
                  (Cli.allRefs Types.ZoteroCitationSchema Types.CslItemSchema
                     [Cli.paper_docx; numeric_doi_docx]))
    by (vm_compute; tauto).
  split; [exact Hin|].
  apply (@normalizeRefs_raises_on_numeric_doi codeunit_compare _ _ 101234
           Hin); [reflexivity | discriminate].
Defined.

(** ** Sorting with the collation of the host *)

Section SortExt.
Variable A : Type.
Variables cmp cmp' : A -> A -> option comparison.

Lemma insert_ext x l :
  (forall y, In y l -> cmp x y = cmp' x y) ->
  ArraySort.insert cmp x l = ArraySort.insert cmp' x l.
Proof.
  induction l as [|y r IH]; simpl; intros H; [reflexivity|].
  rewrite <- (H y) by auto. rewrite IH by auto. reflexivity.
Qed.

Lemma sort_ext l :
  (forall x y, In x l -> In y l -> cmp x y = cmp' x y) ->
  ArraySort.sort cmp l = ArraySort.sort cmp' l.
Proof.
  induction l as [|x r IH]; simpl; intros H; [reflexivity|].
  rewrite <- IH by auto.
  destruct (ArraySort.sort cmp r) as [s|] eqn:Es; [|reflexivity].
  apply insert_ext. intros y Hy. apply H; auto. right.
  eapply Permutation_in; [symmetry; eapply sort_perm|]; eauto.
Qed.

End SortExt.

Lemma StronglySorted_in_impl (A : Type) (R R' : A -> A -> Prop) l :
  (forall x y, In x l -> In y l -> R x y -> R' x y) ->
  StronglySorted R l -> StronglySorted R' l.
Proof.
  intros H Hs. induction Hs as [|x r Hr IH Hx]; constructor.
  - apply IH. intros a b Ha Hb. apply H; now right.
  - rewrite Forall_forall in *. intros y Hy.
    apply H; [now left | now right | now apply Hx].
Qed.

Section HostCollation.
Import Normalize Types Collation.

Variable localeCompare : str -> str -> comparison.
Hypothesis lc_eq :
  forall a b, plain a = true -> plain b = true ->
    (localeCompare a b = Eq <-> a = b).
Hypothesis lc_antisym :
  forall a b, plain a = true -> plain b = true ->
    localeCompare b a = CompOpp (localeCompare a b).
Hypothesis lc_trans :
  forall a b c, plain a = true -> plain b = true -> plain c = true ->
    localeCompare a b = Lt -> localeCompare b c = Lt ->
    localeCompare a c = Lt.

Lemma extend_plain a b :
  plain a = true -> plain b = true ->
  extend localeCompare a b = localeCompare a b.
Proof. unfold extend. now intros -> ->. Qed.

Lemma extend_eq a b : extend localeCompare a b = Eq <-> a = b.
Proof.
  unfold extend. destruct (plain a) eqn:Ea, (plain b) eqn:Eb.
  - now apply lc_eq.
  - split; [discriminate|]. intros ->. congruence.
  - split; [discriminate|]. intros ->. congruence.
  - apply codeunit_compare_eq.
Qed.

Lemma extend_antisym a b :
  extend localeCompare b a = CompOpp (extend localeCompare a b).
Proof.
  unfold extend. destruct (plain a) eqn:Ea, (plain b) eqn:Eb; auto.
  apply codeunit_compare_antisym.
Qed.

Lemma extend_trans a b c :
  extend localeCompare a b = Lt -> extend localeCompare b c = Lt ->
  extend localeCompare a c = Lt.
Proof.
  unfold extend.
  destruct (plain a) eqn:Ea, (plain b) eqn:Eb, (plain c) eqn:Ec;
    try discriminate; auto.
  - now apply lc_trans.
  - apply codeunit_compare_trans.
Qed.

Lemma letters_plain a : forallb Char.is_az a = true -> plain a = true.
Proof.
  unfold plain. rewrite !forallb_forall. intros H c Hc.
  unfold Char.is_alnum_lower. now rewrite (H c Hc).
Qed.

Lemma sort_key_plain it k :
  (forall y, extractYear it = Some y -> plain y = true) ->
  sort_key it = Some k -> plain_key k.
Proof.
  intros Hy. unfold sort_key.
  destruct (getFirstAuthorFamily it) as [a|] eqn:Ea; [|discriminate].
  destruct (extractYear it) as [y|]; [|discriminate].
  destruct (as_str _) as [t|]; [|discriminate].
  intros [= <-]. repeat split.
  - apply letters_plain. eapply getFirstAuthorFamily_letters; eauto.
  - now apply Hy.
  - unfold normalizeTitle, plain. apply forallb_firstn, forallb_filter.
Qed.

Lemma compare_keys_extend k1 k2 :
  plain_key k1 -> plain_key k2 ->
  compare_keys (extend localeCompare) k1 k2 = compare_keys localeCompare k1 k2.
Proof.
  destruct k1 as [[a1 y1] t1], k2 as [[a2 y2] t2].
  intros (Ha1 & Hy1 & Ht1) (Ha2 & Hy2 & Ht2). unfold compare_keys.
  now rewrite !extend_plain.
Qed.

Lemma key_le_extend k1 k2 :
  plain_key k1 -> plain_key k2 ->
  key_le (extend localeCompare) k1 k2 -> key_le localeCompare k1 k2.
Proof.
  destruct k1 as [[a1 y1] t1], k2 as [[a2 y2] t2].
  intros (Ha1 & Hy1 & Ht1) (Ha2 & Hy2 & Ht2). unfold key_le, before.
  now rewrite !extend_plain.
Qed.

(** On records with plain sort keys, [sortItems] with the collation of
    the host is [sortItems] with its extension. *)
Lemma sortItems_plain (items : list obj) :
  Forall (fun it => exists k, sort_key it = Some k /\ plain_key k) items ->
  exists sorted,
    sortItems localeCompare items = Some sorted /\
    Permutation items sorted /\
    StronglySorted (item_le localeCompare) sorted /\
    (forall k, with_key k sorted = with_key k items).
Proof.
  intros Hk.
  destruct (@sortItems_keyed (extend localeCompare)
              extend_eq extend_antisym extend_trans items)
    as (s & H1 & H2 & H3 & H4).
  { revert Hk. apply Forall_impl. intros it (k & E & _). eauto. }
  rewrite Forall_forall in Hk.
  exists s. split; [|split; [exact H2|split; [|exact H4]]].
  - rewrite <- H1. unfold sortItems. apply sort_ext.
    intros x y Hx Hy.
    destruct (Hk x Hx) as (kx & Ex & Px), (Hk y Hy) as (ky & Ey & Py).
    rewrite (@compareItems_keys localeCompare x y kx ky Ex Ey).
    rewrite (@compareItems_keys (extend localeCompare) x y kx ky Ex Ey).
    now rewrite compare_keys_extend.
  - apply StronglySorted_in_impl with (2 := H3).
    intros x y Hx Hy (kx & ky & Ex & Ey & Hle).
    apply (Permutation_in _ (Permutation_sym H2)) in Hx, Hy.
    destruct (Hk x Hx) as (kx' & Ex' & Px), (Hk y Hy) as (ky' & Ey' & Py).
    rewrite Ex in Ex'. rewrite Ey in Ey'.
    injection Ex' as <-. injection Ey' as <-.
    exists kx, ky. repeat split; auto. now apply key_le_extend.
Qed.

End HostCollation.

(** C6, amended: let the collation [localeCompare] be, on strings of
    lower-case letters and digits, a strict total order (zero for equal
    strings only) that puts digits before letters.  Then for every list
    of records of the declared type whose years are such strings,
    [sortItems] returns a permutation of the list that is ordered by the
    first-author key ascending, then by the year compared as a string,
    then by the normalized title; a four-digit year comes before the
    literal [unknown]; and the records that share all three sort keys
    keep their input order. *)
Theorem sortItems_sorted_stable
  (localeCompare : str -> str -> comparison)
  (lc_eq : forall a b,
     Collation.plain a = true -> Collation.plain b = true ->
     (localeCompare a b = Eq <-> a = b))
  (lc_antisym : forall a b,
     Collation.plain a = true -> Collation.plain b = true ->
     localeCompare b a = CompOpp (localeCompare a b))
  (lc_trans : forall a b c,
     Collation.plain a = true -> Collation.plain b = true ->
     Collation.plain c = true ->
     localeCompare a b = Lt -> localeCompare b c = Lt ->
     localeCompare a c = Lt)
  (lc_digit_letter : forall c s d t,
     Collation.plain (c :: s) = true -> Collation.plain (d :: t) = true ->
     Char.is_digit c = true -> Char.is_az d = true ->
     localeCompare (c :: s) (d :: t) = Lt)
  (items : list obj) :
  Forall (fun it => Types.CslItem_ok it = true) items ->
  Forall (fun it => forall y, Normalize.extractYear it = Some y ->
                              Collation.plain y = true) items ->
  exists sorted,
    Normalize.sortItems localeCompare items = Some sorted /\
    Permutation items sorted /\
    StronglySorted (Normalize.item_le localeCompare) sorted /\
    (forall k, Normalize.with_key k sorted = Normalize.with_key k items) /\
    (forall y, length y = 4 -> forallb Char.is_digit y = true ->
       Normalize.before localeCompare y "unknown").
Proof.
  intros Hok Hyears.
  destruct (@sortItems_plain localeCompare lc_eq lc_antisym lc_trans items)
    as (s & H1 & H2 & H3 & H4).
  { rewrite Forall_forall in *. intros x Hx.
    destruct (@sort_key_typed x (Hok x Hx)) as [k Hk].
    exists k. split; [exact Hk|].
    eapply sort_key_plain; [apply Hyears|]; eauto. }
  exists s. repeat split; auto.
  intros y Hlen Hdigits. unfold Normalize.before.
  destruct y as [|c r]; [discriminate|].
  apply lc_digit_letter; [| reflexivity | | reflexivity].
  - unfold Collation.plain. rewrite forallb_forall in *.
    intros x Hx. unfold Char.is_alnum_lower.
    rewrite (Hdigits x Hx). apply orb_true_r.
  - simpl in Hdigits. now apply andb_true_iff in Hdigits as [-> _].
Qed.

Lemma sortItems_sorted_stable_witness :
  exists sorted,
    Normalize.sortItems codeunit_compare Examples.unsorted = Some sorted /\
    Permutation Examples.unsorted sorted /\
    StronglySorted (Normalize.item_le codeunit_compare) sorted /\
    (forall k,
       Normalize.with_key k sorted = Normalize.with_key k Examples.unsorted) /\
    (forall y, length y = 4 -> forallb Char.is_digit y = true ->
       Normalize.before codeunit_compare y "unknown").
Proof.
  apply (@sortItems_sorted_stable codeunit_compare
           (fun a b _ _ => codeunit_compare_eq a b)
           (fun a b _ _ => codeunit_compare_antisym a b)
           (fun a b c _ _ _ => @codeunit_compare_trans a b c)
           (fun c s d t _ _ => @codeunit_digit_letter c s d t)).
  - repeat constructor.
  - repeat constructor; intros y H; vm_compute in H; injection H as <-;
      reflexivity.
Defined.

(** C6, as stated, fails for a collation that gives zero for two
    different strings, as the collation of the host does when they differ
    by a soft hyphen: the comparator then returns zero for two records
    with different years, so that their titles are not compared and the
    records stay in input order. *)
Lemma sortItems_collation_counterexample :
  let year := "2020" ++ [Collation.soft_hyphen] in
  let first := Collation.dated "b" "2020" in
  let second := Collation.dated "a" year in
  Types.CslItem_ok first = true /\ Types.CslItem_ok second = true /\
  Normalize.sort_key first = Some ("unknown", "2020", "b") /\
  Normalize.sort_key second = Some ("unknown", year, "a") /\
  Collation.ignoring_compare "2020" year = Eq /\
  Collation.ignoring_compare "a" "b" = Lt /\
  Normalize.sortItems Collation.ignoring_compare [first; second] =
    Some [first; second] /\
  ~ Normalize.item_le Collation.ignoring_compare first second.
Proof.
  intros year first second.
  do 7 (split; [vm_compute; reflexivity|]).
  intros (ka & kb & Ha & Hb & H).
  vm_compute in Ha, Hb. injection Ha as <-. injection Hb as <-.
  unfold Normalize.key_le, Normalize.before in H.
  destruct H as [H|[_ [H|[H _]]]]; vm_compute in H; discriminate H.
Qed.
